(** * gemini-cli: configuration merge and slash-command aggregation

    A shallow embedding of

    - [packages/core/src/utils/merge.ts]: [isObject] and [deepMerge]
      ([Merge]);
    - the [CommandService] class of the command-line interface in its three
      versions: the conflict resolution they share ([Aggregator]), the
      service with [reloadCommands(externalSignal?)] and a [Set] of
      listeners ([Registry]), the service with [reloadCommands()] and an
      array of listeners ([Manager]), and the service made by the static
      [create] with its lookup maps ([Factory]);
    - the command resolution [parseSlashCommand], of which only the tests
      are at hand ([Resolution]);
    - [packages/cli/src/utils/args.ts] ([Args]), the refresher of custom
      commands ([Refresher]), [processPatterns] of
      [packages/core/src/utils/gitIgnoreParser.ts] ([GitIgnore]) and
      [packages/core/src/utils/debugLogger.ts] ([DebugLog]).

    A JavaScript object that [deepMerge] reads and writes is the list of its
    own properties in the order of [Object.keys] together with its prototype
    ([Merge.record]); a JavaScript [Map], whose iteration order is its
    insertion order, is an association list ([JsMap]).  An [async] method is
    cut at its [await] into the steps the event loop runs one at a time.
    Loops and recursions that are not structural carry fuel, and are proved
    never to exhaust it.

    The definitions come first, module by module; the modules named
    [...Spec] and [...Laws] hold what is proved about them. *)

From Stdlib Require Import Ascii.
From stdpp Require Import strings list sets pretty.

Set Default Proof Using "Type".
#[local] Set Warnings "-register-all,-clear-no-such-hyp".

(** ** ConfigMerger: [packages/core/src/utils/merge.ts] *)

Module Merge.

(** The values a [Record<string, unknown>] holds: finite trees, as parsed
    from a settings file.  An object is the list of its own enumerable
    string-keyed properties, in the order in which [Object.keys] lists them,
    together with its prototype: [const result = {}] makes an object whose
    prototype is [Object.prototype], and [result[key]] reads and writes
    through the prototype chain.  [VObjectPrototype] is [Object.prototype]
    itself, which [result['__proto__']] reads.  The payload of a number is
    never inspected by the merge. *)
Inductive value : Type :=
| VUndefined
| VNull
| VBool (b : bool)
| VNumber (n : Z)
| VString (s : string)
| VArray (elems : list value)
| VObject (own : list (string * value)) (proto : value)
| VObjectPrototype.

Abbreviation props := (list (string * value)).

(** An object that is known to be one: the [Record<string, unknown>] of the
    signature. *)
Record record := mkRecord { own : props; proto : value }.

Definition toValue (obj : record) : value := VObject (own obj) (proto obj).

(** The answers of [typeof] on these values. *)
Inductive jstype := TyUndefined | TyObject | TyBoolean | TyNumber | TyString.

#[global] Instance jstype_eq_dec : EqDecision jstype.
Proof. solve_decision. Defined.

Definition typeof (item : value) : jstype :=
  match item with
  | VUndefined => TyUndefined
  | VNull | VArray _ | VObject _ _ | VObjectPrototype => TyObject
  | VBool _ => TyBoolean
  | VNumber _ => TyNumber
  | VString _ => TyString
  end.

(** [!!item] *)
Definition truthy (item : value) : bool :=
  match item with
  | VUndefined | VNull => false
  | VBool b => b
  | VNumber n => negb (n =? 0)%Z
  | VString s => negb (String.eqb s "")
  | VArray _ | VObject _ _ | VObjectPrototype => true
  end.

Definition isArray (item : value) : bool :=
  match item with VArray _ => true | _ => false end.

(** [return !!item && typeof item === 'object' && !Array.isArray(item);] *)
Definition isObject (item : value) : bool :=
  truthy item && bool_decide (typeof item = TyObject) && negb (isArray item).

(** The narrowing [item is Record<string, unknown>] of the type guard.
    [Object.prototype] passes the guard; it has no enumerable own property
    and no prototype. *)
Definition asRecord (item : value) : option record :=
  match item with
  | VObject own proto => Some (mkRecord own proto)
  | VObjectPrototype => Some (mkRecord [] VNull)
  | _ => None
  end.

(** *** Array indices

    [Object.keys] lists the keys that are array indices first, in ascending
    order, and the other string keys after them in the order of their
    creation.  An array index is the canonical decimal numeral of an integer
    below [2^32 - 1]. *)
Definition digit (c : ascii) : option N :=
  let n := N_of_ascii c in
  if (48 <=? n)%N && (n <=? 57)%N then Some (n - 48)%N else None.

Fixpoint digits (s : string) (acc : N) : option N :=
  match s with
  | EmptyString => Some acc
  | String c rest => d ← digit c; digits rest (acc * 10 + d)%N
  end.

Definition arrayIndex (key : string) : option N :=
  match key with
  | EmptyString => None
  | _ =>
      n ← digits key 0;
      if bool_decide (pretty n = key) && (n <? 4294967295)%N then Some n else None
  end.

(** *** [result[key]] as a read *)

(** The own property of an object under [key], if it has one. *)
Fixpoint ownProperty (own : props) (key : string) : option value :=
  match own with
  | [] => None
  | (k, v) :: rest => if decide (k = key) then Some v else ownProperty rest key
  end.

(** The own properties of an array: its elements under their indices and
    [length]. *)
Definition arrayOwn (elems : list value) (key : string) : option value :=
  if decide (key = "length") then Some (VNumber (Z.of_nat (length elems)))
  else i ← arrayIndex key; elems !! N.to_nat i.

(** The read of [key] along the prototype chain that starts at [holder], for
    an object whose prototype is [receiverProto].  The chain of an object
    ends in [Object.prototype] or in [null], that of an array passes through
    [Array.prototype] to [Object.prototype].  On [Object.prototype] the key
    [__proto__] is an accessor whose getter answers the prototype of the
    object that was read.  Every other member of [Object.prototype] and of
    [Array.prototype] that a string key reaches is a function: [typeof]
    answers ['function'] for it, [isObject] refuses it as it refuses
    [undefined], and the merge does nothing else with what it reads; it is
    read here as [undefined]. *)
Fixpoint inherited (holder receiverProto : value) (key : string) : value :=
  match holder with
  | VObject own proto =>
      match ownProperty own key with
      | Some v => v
      | None => inherited proto receiverProto key
      end
  | VArray elems =>
      match arrayOwn elems key with
      | Some v => v
      | None => if decide (key = "__proto__") then receiverProto else VUndefined
      end
  | VObjectPrototype =>
      if decide (key = "__proto__") then receiverProto else VUndefined
  | _ => VUndefined
  end.

(** [const resultValue = result[key];] *)
Definition get (result : record) (key : string) : value :=
  match ownProperty (own result) key with
  | Some v => v
  | None => inherited (proto result) (proto result) key
  end.

(** *** [result[key] = v] as a write *)

(** Whether an assignment to [__proto__] that starts at [holder] reaches the
    setter of [Object.prototype]: an own data property [__proto__] on the
    way hides it, a chain that ends in [null] does not have it. *)
Fixpoint setterVisible (holder : value) : bool :=
  match holder with
  | VObject own proto =>
      match ownProperty own "__proto__" with
      | Some _ => false
      | None => setterVisible proto
      end
  | VArray _ | VObjectPrototype => true
  | _ => false
  end.

(** An assignment to a key the object has: the value changes, the place of
    the key does not. *)
Fixpoint writeOwn (own : props) (key : string) (v : value) : props :=
  match own with
  | [] => []
  | (k, x) :: rest =>
      if decide (k = key) then (k, v) :: rest else (k, x) :: writeOwn rest key v
  end.

(** Whether [Object.keys] lists a new key [key] before the key [key']. *)
Definition listedBefore (key key' : string) : bool :=
  match arrayIndex key, arrayIndex key' with
  | Some i, Some j => (i <? j)%N
  | Some _, None => true
  | None, _ => false
  end.

(** An assignment that creates an own property. *)
Fixpoint defineOwn (own : props) (key : string) (v : value) : props :=
  match own with
  | [] => [(key, v)]
  | (k, x) :: rest =>
      if listedBefore key k then (key, v) :: own
      else (k, x) :: defineOwn rest key v
  end.

(** The values the setter of [__proto__] takes for a prototype: an object or
    [null].  It ignores every other value. *)
Definition isPrototype (v : value) : bool :=
  match v with
  | VObject _ _ | VArray _ | VObjectPrototype | VNull => true
  | _ => false
  end.

(** [result[key] = v;]: an own property is overwritten; otherwise the
    assignment walks the prototype chain, and it finds there either the
    setter of [__proto__], which replaces the prototype of [result] or does
    nothing, or a writable data property or nothing at all, and then it
    creates an own property. *)
Definition set (result : record) (key : string) (v : value) : record :=
  match ownProperty (own result) key with
  | Some _ => {| own := writeOwn (own result) key v; proto := proto result |}
  | None =>
      if bool_decide (key = "__proto__") && setterVisible (proto result)
      then if isPrototype v then {| own := own result; proto := v |} else result
      else {| own := defineOwn (own result) key v; proto := proto result |}
  end.

(** *** [deepMerge] *)

(** The body of the [forEach] callback of [mergeIntoResult]: the value that
    is assigned to [result[key]], given what [result[key]] and [obj[key]]
    hold.  [rec] is the recursive call to [deepMerge]. *)
Definition mergedValue (rec : option record → option record → option record)
    (resultValue objValue : value) : option value :=
  if isObject resultValue && isObject objValue
  then toValue <$> rec (asRecord resultValue) (asRecord objValue)
  else Some objValue.

(** [Object.keys(obj).forEach((key) => ...)]: the own keys of [obj] are
    visited in their order; the closure mutates [result], which is threaded
    here.  [obj[key]] is the own property the key was listed for. *)
Fixpoint mergeEntries (rec : option record → option record → option record)
    (result : record) (entries : props) : option record :=
  match entries with
  | [] => Some result
  | (key, objValue) :: rest =>
      v ← mergedValue rec (get result key) objValue;
      mergeEntries rec (set result key v) rest
  end.

(** [mergeIntoResult]: [if (!obj) return;] and the loop. *)
Definition mergeIntoResult (rec : option record → option record → option record)
    (result : record) (obj : option record) : option record :=
  match obj with
  | None => Some result
  | Some o => mergeEntries rec result (own o)
  end.

(** [const result: Record<string, unknown> = {};] *)
Definition emptyObject : record := {| own := []; proto := VObjectPrototype |}.

(** [deepMerge], with the depth of the JavaScript call stack bounded by
    [fuel]; [None] means that the bound was reached. *)
Fixpoint deepMergeN (fuel : nat) (target source : option record) : option record :=
  match fuel with
  | 0 => None
  | S fuel' =>
      let result := emptyObject in
      result ← mergeIntoResult (deepMergeN fuel') result target;
      mergeIntoResult (deepMergeN fuel') result source
  end.

(** Nesting depth of a value: a bound on the number of stack frames a merge
    needs.  [Object.prototype] as the prototype of an object adds nothing to
    it. *)
Fixpoint depth (v : value) : nat :=
  match v with
  | VObject own proto =>
      S (foldr (λ entry acc, depth entry.2 `max` acc) 0 own
         `max` match proto with VObjectPrototype => 0 | _ => depth proto end)
  | VArray elems => S (foldr (λ x acc, depth x `max` acc) 0 elems)
  | VObjectPrototype => 1
  | _ => 0
  end.

Definition depthRecord (obj : option record) : nat :=
  match obj with Some o => depth (toValue o) | None => 0 end.

(** [deepMerge] run with a stack that is deep enough for its arguments. *)
Definition deepMerge (target source : option record) : option record :=
  deepMergeN (S (depthRecord target `max` depthRecord source)) target source.

(** *** Vocabulary of the statements *)

(** An object as [JSON.parse] or an object literal makes it: its prototype
    is [Object.prototype].  [JSON.parse] makes an own property of every key
    of the text, [__proto__] included. *)
Definition object (own : props) : record := {| own := own; proto := VObjectPrototype |}.

Definition VPlain (own : props) : value := VObject own VObjectPrototype.

(** The keys of an object are pairwise distinct and [__proto__] is none of
    them. *)
Definition plain (obj : record) : Prop :=
  NoDup (own obj).*1 ∧ ("__proto__" ∉ (own obj).*1).

(** The entries are listed in the order of [Object.keys]: defining them one
    after the other gives the list back. *)
Definition listed (own : props) : Prop :=
  foldl (λ acc entry, defineOwn acc entry.1 entry.2) [] own = own.

(** A tree of configuration data none of whose objects has an own key
    [__proto__]: every object in it, outside arrays, has the prototype
    [Object.prototype] and lists pairwise distinct keys in the order of
    [Object.keys]; what arrays hold is not looked at. *)
Fixpoint settled (v : value) : Prop :=
  match v with
  | VObject own proto =>
      proto = VObjectPrototype ∧ NoDup own.*1 ∧ ("__proto__" ∉ own.*1) ∧
      listed own ∧
      foldr (λ entry rest, settled entry.2 ∧ rest) True own
  | VObjectPrototype => False
  | _ => True
  end.

(** The depth of a prototype, as [depth] counts it. *)
Definition protoDepth (p : value) : nat :=
  match p with VObjectPrototype => 0 | _ => depth p end.

(** Everything an object holds is nested at most [n] deep. *)
Definition within (n : nat) (obj : record) : Prop :=
  Forall (λ entry, depth entry.2 ≤ n) (own obj) ∧ protoDepth (proto obj) ≤ n.

Definition withinOption (n : nat) (obj : option record) : Prop :=
  match obj with Some o => within n o | None => True end.

End Merge.

(** ** JavaScript [Map<string, V>]

    Iteration follows insertion order and [set] on a key that is present
    replaces the value in place, so the map is an association list. *)

Module JsMap.

Definition t (V : Type) : Type := list (string * V).

Definition has {V} (m : t V) (key : string) : bool :=
  bool_decide (key ∈ m.*1).

Fixpoint get {V} (m : t V) (key : string) : option V :=
  match m with
  | [] => None
  | (k, v) :: rest => if decide (k = key) then Some v else get rest key
  end.

Fixpoint set {V} (m : t V) (key : string) (v : V) : t V :=
  match m with
  | [] => [(key, v)]
  | (k, old) :: rest =>
      if decide (k = key) then (k, v) :: rest else (k, old) :: set rest key v
  end.

Definition values {V} (m : t V) : list V := m.*2.

End JsMap.

(** ** Slash commands *)

Module Commands.

(** Modelled from the spec: the kinds of a command, "built-in | file-defined
    | extension-provided"; [ui/commands/types.ts] is missing.  The sources at
    hand use [CommandKind.BUILT_IN] and [CommandKind.FILE]. *)
Inductive CommandKind := BUILT_IN | FILE | EXTENSION.

(** Modelled from the spec: the fields of [SlashCommand] of section 3;
    [ui/commands/types.ts] is missing.  [commandMap] is the lookup that the
    sources attach to a command.  [action] is a capability, kept as an opaque
    handle. *)
Inductive SlashCommand : Type := mkSlashCommand {
  name : string;
  description : string;
  kind : CommandKind;
  altNames : option (list string);
  extensionName : option string;
  action : option nat;
  subCommands : option (list SlashCommand);
  commandMap : option (list (string * SlashCommand));
}.

(** [{ ...cmd, name: finalName }] *)
Definition withName (cmd : SlashCommand) (finalName : string) : SlashCommand :=
  {| name := finalName;
     description := description cmd;
     kind := kind cmd;
     altNames := altNames cmd;
     extensionName := extensionName cmd;
     action := action cmd;
     subCommands := subCommands cmd;
     commandMap := commandMap cmd |}.

(** Truthiness of an optional string: [undefined] and [''] are falsy. *)
Definition truthyString (s : option string) : bool :=
  match s with
  | Some s => negb (String.eqb s "")
  | None => false
  end.

End Commands.

(** ** Conflict resolution: the [commandMap] loop shared by the three
    versions of [CommandService] *)

Module Aggregator.
Import Commands.

(** [`${cmd.extensionName}.${cmd.name}`] *)
Definition qualified (extension cmdName : string) : string :=
  extension +:+ "." +:+ cmdName.

(** The [while (commandMap.has(renamedName))] loop.  [fuel] bounds the
    number of iterations; [None] means that the bound was reached. *)
Fixpoint renameLoop {V} (fuel : nat) (commandMap : JsMap.t V)
    (extension cmdName renamedName : string) (suffix : N) : option string :=
  if JsMap.has commandMap renamedName then
    match fuel with
    | 0 => None
    | S fuel' =>
        renameLoop fuel' commandMap extension cmdName
          (qualified extension cmdName +:+ pretty suffix) (suffix + 1)
    end
  else Some renamedName.

(** The value of [finalName] when [commandMap.set] is reached.  A map with
    [n] keys cannot hold [n + 1] distinct candidates, hence the bound. *)
Definition finalNameOf {V} (commandMap : JsMap.t V)
    (cmdName : string) (extension : option string) : option string :=
  if truthyString extension && JsMap.has commandMap cmdName then
    let ext := default "" extension in
    renameLoop (length commandMap) commandMap ext cmdName (qualified ext cmdName) 1
  else Some cmdName.

(** One iteration of [for (const cmd of allCommands)]. *)
Definition place (commandMap : JsMap.t SlashCommand) (cmd : SlashCommand)
    : option (JsMap.t SlashCommand) :=
  finalName ← finalNameOf commandMap (name cmd) (extensionName cmd);
  Some (JsMap.set commandMap finalName (withName cmd finalName)).

Fixpoint placeAll (commandMap : JsMap.t SlashCommand) (allCommands : list SlashCommand)
    : option (JsMap.t SlashCommand) :=
  match allCommands with
  | [] => Some commandMap
  | cmd :: rest => commandMap ← place commandMap cmd; placeAll commandMap rest
  end.

(** [const commandMap = new Map(); for (const cmd of allCommands) { ... }] *)
Definition resolveConflicts (allCommands : list SlashCommand)
    : option (JsMap.t SlashCommand) :=
  placeAll [] allCommands.

(** The names an extension command can end up with, in the order the loop
    tries them: [ext.name], [ext.name1], [ext.name2], ... *)
Definition candidate (extension cmdName : string) (i : N) : string :=
  if decide (i = 0%N) then qualified extension cmdName
  else qualified extension cmdName +:+ pretty i.

(** What the loop body decides: an extension command whose name is taken
    gets the first candidate that is free, every other command keeps its
    name. *)
Definition renamedTo {V} (commandMap : JsMap.t V) (cmdName : string)
    (extension : option string) (finalName : string) : Prop :=
  if truthyString extension && JsMap.has commandMap cmdName then
    ∃ i : N,
      finalName = candidate (default "" extension) cmdName i ∧
      JsMap.has commandMap finalName = false ∧
      ∀ j : N, (j < i)%N →
        JsMap.has commandMap (candidate (default "" extension) cmdName j) = true
  else finalName = cmdName.

(** Keys are distinct and every command is stored under its own name. *)
Definition keyed (commandMap : JsMap.t SlashCommand) : Prop :=
  NoDup commandMap.*1 ∧ ∀ key cmd, (key, cmd) ∈ commandMap → name cmd = key.

(** *** The same loop over a store of command objects

    Loaders hand over references to their command objects.  The loop reads
    [cmd.name] and [cmd.extensionName] through the reference and stores a
    fresh object, the spread copy, in the map. *)

Definition heap := list SlashCommand.
Definition ref := nat.

(** Allocation of an object literal. *)
Definition alloc (h : heap) (obj : SlashCommand) : heap * ref :=
  (h ++ [obj], length h).

Definition placeRef (h : heap) (commandMap : JsMap.t ref) (cmd : ref)
    : option (heap * JsMap.t ref) :=
  obj ← h !! cmd;
  finalName ← finalNameOf commandMap (name obj) (extensionName obj);
  let '(h', copy) := alloc h (withName obj finalName) in
  Some (h', JsMap.set commandMap finalName copy).

Fixpoint placeAllRef (h : heap) (commandMap : JsMap.t ref) (allCommands : list ref)
    : option (heap * JsMap.t ref) :=
  match allCommands with
  | [] => Some (h, commandMap)
  | cmd :: rest =>
      '(h', commandMap') ← placeRef h commandMap cmd;
      placeAllRef h' commandMap' rest
  end.

Definition resolveConflictsRef (h : heap) (allCommands : list ref)
    : option (heap * JsMap.t ref) :=
  placeAllRef h [] allCommands.

(** A map of references read through the store: [commandMap] holds, key by
    key, references to the objects of [objects]. *)
Definition stores (h : heap) (commandMap : JsMap.t ref)
    (objects : JsMap.t SlashCommand) : Prop :=
  Forall2 (λ entry object, entry.1 = object.1 ∧ h !! entry.2 = Some object.2)
          commandMap objects.

(** Every name under which a command answers: its name and its aliases. *)
Definition labels (cmd : SlashCommand) : list string :=
  name cmd :: default [] (altNames cmd).

(** No name or alias of a command is a name or alias of another one. *)
Definition distinctLabels (cmds : list SlashCommand) : Prop :=
  ∀ i j c d label,
    cmds !! i = Some c → cmds !! j = Some d → i ≠ j →
    label ∈ labels c → label ∉ labels d.

End Aggregator.

(** ** What the services share: settled loaders, signals, listeners *)

Module Runtime.
Import Commands.

(** The rejection reason of a loader, as far as the services look at it:
    [reason instanceof Error] and [reason.name]. *)
Record Reason := mkReason {
  instanceofError : bool;
  reasonName : string;
  reasonMessage : string;
}.

#[global] Instance Reason_eq_dec : EqDecision Reason.
Proof. solve_decision. Defined.

(** An element of the array [Promise.allSettled] resolves to. *)
Inductive SettledResult :=
| Fulfilled (value : list SlashCommand)
| Rejected (reason : Reason).

(** [reason instanceof Error && reason.name === 'AbortError'] *)
Definition isAbortError (reason : Reason) : bool :=
  instanceofError reason && String.eqb (reasonName reason) "AbortError".

(** An [AbortSignal] is either the signal of a controller the service
    created itself or one that belongs to the caller. *)
Inductive Signal :=
| OwnSignal (controller : nat)
| ExternalSignal (id : nat).

#[global] Instance Signal_eq_dec : EqDecision Signal.
Proof. solve_decision. Defined.

(** Listeners are functions compared by identity.  A listener is taken to
    return without calling back into the service. *)
Abbreviation Listener := nat.

(** The commands of the loaders that fulfilled, in loader order. *)
Fixpoint fulfilledCommands (results : list SettledResult) : list SlashCommand :=
  match results with
  | [] => []
  | Fulfilled value :: rest => value ++ fulfilledCommands rest
  | Rejected _ :: rest => fulfilledCommands rest
  end.

Definition isFulfilled (result : SettledResult) : bool :=
  match result with Fulfilled _ => true | Rejected _ => false end.

Definition rejections (results : list SettledResult) : list Reason :=
  omap (λ result, match result with Rejected r => Some r | Fulfilled _ => None end)
       results.

(** The fields of a service, followed by the part of the JavaScript
    runtime its methods act on: the abort controllers created so far, the
    signals that are aborted, what [debugLogger.debug] received, the listener
    calls made and the unsubscribe closures handed out (each captures the
    listener of its [subscribe] call). *)
Record State := mkState {
  commands : list SlashCommand;
  listeners : list Listener;
  currentAbortController : option nat;
  controllers : nat;
  aborted : list Signal;
  debugLog : list Reason;
  invoked : list Listener;
  closures : list Listener;
}.

Definition initial : State :=
  {| commands := []; listeners := []; currentAbortController := None;
     controllers := 0; aborted := []; debugLog := []; invoked := [];
     closures := [] |}.

Definition isAborted (st : State) (signal : Signal) : bool :=
  bool_decide (signal ∈ aborted st).

(** [controller.abort()] *)
Definition abort (signal : Signal) (st : State) : State :=
  {| commands := commands st; listeners := listeners st;
     currentAbortController := currentAbortController st;
     controllers := controllers st;
     aborted := signal :: aborted st;
     debugLog := debugLog st; invoked := invoked st; closures := closures st |}.

(** [this.currentAbortController = new AbortController()] *)
Definition newController (st : State) : State :=
  {| commands := commands st; listeners := listeners st;
     currentAbortController := Some (controllers st);
     controllers := S (controllers st);
     aborted := aborted st;
     debugLog := debugLog st; invoked := invoked st; closures := closures st |}.

(** [this.commands = ...; this.notifyListeners()] with the log written
    before. *)
Definition publish (snapshot : list SlashCommand) (logged : list Reason) (st : State)
    : State :=
  {| commands := snapshot; listeners := listeners st;
     currentAbortController := currentAbortController st;
     controllers := controllers st; aborted := aborted st;
     debugLog := debugLog st ++ logged;
     invoked := invoked st ++ listeners st;
     closures := closures st |}.

(** Removal of every occurrence of [listener]: [this.listeners.delete(listener)]
    on the [Set], [this.listeners.filter((l) => l !== listener)] on the array. *)
Definition deleteListener (listener : Listener) (st : State) : State :=
  {| commands := commands st;
     listeners := filter (λ l, l ≠ listener) (listeners st);
     currentAbortController := currentAbortController st;
     controllers := controllers st; aborted := aborted st;
     debugLog := debugLog st; invoked := invoked st;
     closures := closures st |}.

(** The listener calls made between two states. *)
Definition notified (st st' : State) : list Listener :=
  drop (length (invoked st)) (invoked st').

(** The entries [debugLogger.debug] received between two states. *)
Definition logged (st st' : State) : list Reason :=
  drop (length (debugLog st)) (debugLog st').

(** [this.currentAbortController!.signal] *)
Definition currentSignal (st : State) : Signal :=
  OwnSignal (default 0 (currentAbortController st)).

End Runtime.

(** ** [CommandService implements CommandRegistry]: [reloadCommands] takes an
    optional external signal, listeners are a [Set] *)

Module Registry.
Import Commands Runtime.

(** [reloadCommands] up to its [await]: the signal handed to the loaders. *)
Definition reloadCommands_begin (externalSignal : option Signal) (st : State)
    : State * Signal :=
  match externalSignal with
  | None =>
      let st :=
        match currentAbortController st with
        | Some controller => abort (OwnSignal controller) st
        | None => st
        end in
      let st := newController st in
      (st, currentSignal st)
  | Some signal => (st, signal)
  end.

(** The loop over [results]: the commands collected and the reasons passed
    to [debugLogger.debug]. *)
Fixpoint collect (results : list SettledResult) : list SlashCommand * list Reason :=
  match results with
  | [] => ([], [])
  | Fulfilled value :: rest =>
      let '(allCommands, logged) := collect rest in (value ++ allCommands, logged)
  | Rejected reason :: rest =>
      let '(allCommands, logged) := collect rest in
      if isAbortError reason then (allCommands, logged)
      else (allCommands, reason :: logged)
  end.

(** [reloadCommands] after its [await]: [results] is what
    [Promise.allSettled] resolved to.  Running out of fuel in the renaming
    loop would mean that the call never returns.  Nothing in the [try] block
    throws here ([Promise.allSettled] does not reject, listeners return), so
    the [catch] block is not entered. *)
Definition reloadCommands_settled (signal : Signal) (results : list SettledResult)
    (st : State) : option State :=
  if isAborted st signal then Some st
  else
    let '(allCommands, logged) := collect results in
    commandMap ← Aggregator.resolveConflicts allCommands;
    Some (publish (JsMap.values commandMap) logged st).

(** [this.listeners.add(listener)] and the closure that is returned, as the
    index under which it is kept. *)
Definition subscribe (listener : Listener) (st : State) : State * nat :=
  ({| commands := commands st;
      listeners := if bool_decide (listener ∈ listeners st) then listeners st
                   else listeners st ++ [listener];
      currentAbortController := currentAbortController st;
      controllers := controllers st; aborted := aborted st;
      debugLog := debugLog st; invoked := invoked st;
      closures := closures st ++ [listener] |},
   length (closures st)).

(** Calling the closure returned by [subscribe]. *)
Definition unsubscribe (capability : nat) (st : State) : State :=
  match closures st !! capability with
  | Some listener => deleteListener listener st
  | None => st
  end.

(** What can happen to a service, one atomic step of the event loop each. *)
Inductive Event :=
| Reload (externalSignal : option Signal)
| Settled (signal : Signal) (results : list SettledResult)
| Subscribe (listener : Listener)
| Unsubscribe (capability : nat)
| AbortExternal (id : nat).

Definition step (st : State) (ev : Event) : State :=
  match ev with
  | Reload externalSignal => (reloadCommands_begin externalSignal st).1
  | Settled signal results => default st (reloadCommands_settled signal results st)
  | Subscribe listener => (subscribe listener st).1
  | Unsubscribe capability => unsubscribe capability st
  | AbortExternal id => abort (ExternalSignal id) st
  end.

Definition run (st : State) (trace : list Event) : State :=
  foldl step st trace.

(** Once a controller of the service is no longer the current one, its
    signal is aborted. *)
Definition retired (controller : nat) (st : State) : Prop :=
  controller < controllers st ∧
  (currentAbortController st = Some controller ∨
   OwnSignal controller ∈ aborted st).

(** "Every rejection that is not an [AbortError] is logged", for one
    continuation of [reloadCommands]. *)
Definition rejectionsLogged (st : State) (signal : Signal)
    (results : list SettledResult) : Prop :=
  ∀ st' reason,
    reloadCommands_settled signal results st = Some st' →
    Rejected reason ∈ results → isAbortError reason = false →
    reason ∈ logged st st'.




End Registry.

(** ** [CommandService implements CustomCommandManager]: [reloadCommands]
    owns its signal, listeners are an array *)

Module Manager.
Import Commands Runtime.

(** [reloadCommands] up to its [await]. *)
Definition reloadCommands_begin (st : State) : State * Signal :=
  let st :=
    match currentAbortController st with
    | Some controller => abort (OwnSignal controller) st
    | None => st
    end in
  let st := newController st in
  (st, currentSignal st).

(** The loop over [results]: every rejection is passed to
    [debugLogger.debug]. *)
Fixpoint collect (results : list SettledResult) : list SlashCommand * list Reason :=
  match results with
  | [] => ([], [])
  | Fulfilled value :: rest =>
      let '(allCommands, logged) := collect rest in (value ++ allCommands, logged)
  | Rejected reason :: rest =>
      let '(allCommands, logged) := collect rest in (allCommands, reason :: logged)
  end.

(** The [finally] block:
    [if (this.currentAbortController?.signal === signal) this.currentAbortController = null] *)
Definition releaseController (signal : Signal) (st : State) : State :=
  if bool_decide (OwnSignal <$> currentAbortController st = Some signal)
  then {| commands := commands st; listeners := listeners st;
          currentAbortController := None;
          controllers := controllers st; aborted := aborted st;
          debugLog := debugLog st; invoked := invoked st;
          closures := closures st |}
  else st.

(** [reloadCommands] after its [await]. *)
Definition reloadCommands_settled (signal : Signal) (results : list SettledResult)
    (st : State) : option State :=
  st ←
    (if isAborted st signal then Some st
     else
       let '(allCommands, logged) := collect results in
       commandMap ← Aggregator.resolveConflicts allCommands;
       Some (publish (JsMap.values commandMap) logged st));
  Some (releaseController signal st).

(** [this.listeners.push(listener)] and the closure that is returned. *)
Definition subscribe (listener : Listener) (st : State) : State * nat :=
  ({| commands := commands st;
      listeners := listeners st ++ [listener];
      currentAbortController := currentAbortController st;
      controllers := controllers st; aborted := aborted st;
      debugLog := debugLog st; invoked := invoked st;
      closures := closures st ++ [listener] |},
   length (closures st)).

Definition unsubscribe (capability : nat) (st : State) : State :=
  match closures st !! capability with
  | Some listener => deleteListener listener st
  | None => st
  end.

Inductive Event :=
| Reload
| Settled (signal : Signal) (results : list SettledResult)
| Subscribe (listener : Listener)
| Unsubscribe (capability : nat).

Definition step (st : State) (ev : Event) : State :=
  match ev with
  | Reload => (reloadCommands_begin st).1
  | Settled signal results => default st (reloadCommands_settled signal results st)
  | Subscribe listener => (subscribe listener st).1
  | Unsubscribe capability => unsubscribe capability st
  end.

Definition run (st : State) (trace : list Event) : State :=
  foldl step st trace.

(** Whether [ev] subscribes [listener] again or calls an unsubscribe closure
    that captured it. *)
Definition disturbs (listener : Listener) (handed : list Listener) (ev : Event) : bool :=
  match ev with
  | Subscribe l => bool_decide (l = listener)
  | Unsubscribe capability => bool_decide (handed !! capability = Some listener)
  | _ => false
  end.

Fixpoint undisturbed (listener : Listener) (st : State) (trace : list Event) : bool :=
  match trace with
  | [] => true
  | ev :: rest =>
      negb (disturbs listener (closures st) ev) && undisturbed listener (step st ev) rest
  end.

(** A controller that is no longer the current one and whose signal is
    aborted; a controller that is either still the current one or replaced. *)
Definition replaced (controller : nat) (st : State) : Prop :=
  currentAbortController st ≠ Some controller ∧
  OwnSignal controller ∈ aborted st.

Definition retired (controller : nat) (st : State) : Prop :=
  controller < controllers st ∧
  (currentAbortController st = Some controller ∨ replaced controller st).

(** Whether [ev] is the continuation of the call that holds [signal]. *)
Definition settles (signal : Signal) (ev : Event) : bool :=
  match ev with
  | Settled signal' _ => bool_decide (signal' = signal)
  | _ => false
  end.

End Manager.

(** ** [CommandService] with the static factory [create] and the lookup
    maps *)

Module Factory.
Import Commands Runtime.

(** The entries [buildLookupMap] writes for one command:
    [map.set(cmd.name, cmd)] and [map.set(alias, cmd)] for every alias. *)
Definition setCommand (map : JsMap.t SlashCommand) (cmd : SlashCommand)
    : JsMap.t SlashCommand :=
  foldl (λ map alias, JsMap.set map alias cmd)
        (JsMap.set map (name cmd) cmd)
        (default [] (altNames cmd)).

(** What [buildLookupMap] does to one command before it enters the map: the
    sub-commands are cloned, processed in turn, and their map is attached as
    [commandMap].  The objects are updated in place; they are the copies made
    by the conflict resolution and the clones made here. *)
Fixpoint attach (cmd : SlashCommand) : SlashCommand :=
  match cmd with
  | mkSlashCommand name description kind altNames extensionName action
      (Some subCommands) _ =>
      let newSubCommands := List.map attach subCommands in
      mkSlashCommand name description kind altNames extensionName action
        (Some newSubCommands)
        (Some (foldl setCommand [] newSubCommands))
  | _ => cmd
  end.

(** [buildLookupMap(commands)]: the commands as they are afterwards and the
    map that is returned. *)
Definition buildLookupMap (commands : list SlashCommand)
    : list SlashCommand * JsMap.t SlashCommand :=
  let commands := List.map attach commands in
  (commands, foldl setCommand [] commands).

Record CommandService := mkCommandService {
  commands : list SlashCommand;
  rootCommandMap : JsMap.t SlashCommand;
}.

(** [create] after [Promise.allSettled]: the service and the reasons passed
    to [debugLogger.debug].  The loop over the results is the one of
    [Manager]: every rejection is logged.  The signal goes to the loaders
    and is not looked at again. *)
Definition create (results : list SettledResult) : option (CommandService * list Reason) :=
  let '(allCommands, logged) := Manager.collect results in
  commandMap ← Aggregator.resolveConflicts allCommands;
  let commandsForProcessing := JsMap.values commandMap in
  let '(finalCommands, rootMap) := buildLookupMap commandsForProcessing in
  Some (mkCommandService finalCommands rootMap, logged).

End Factory.

(** ** Command resolution: [parseSlashCommand]

    [packages/cli/src/utils/commands.ts] is not among the sources at hand,
    only its tests are. *)

Module Resolution.
Import Commands.

(** Modelled from the spec: the whitespace that separates tokens and that
    trimming removes; [commands.ts] is missing.  These are the characters of
    [\s] in the ASCII range. *)
Definition isSpace (c : ascii) : bool :=
  bool_decide (c ∈ [" "; "009"; "010"; "011"; "012"; "013"]%char).

(** Modelled from the spec: "leading/trailing whitespace trimmed";
    [commands.ts] is missing. *)
Fixpoint trimStart (s : string) : string :=
  match s with
  | String c rest => if isSpace c then trimStart rest else s
  | EmptyString => EmptyString
  end.

(** Modelled from the spec: trailing whitespace trimmed; [commands.ts] is
    missing. *)
Fixpoint trimEnd (s : string) : string :=
  match s with
  | String c rest =>
      let rest := trimEnd rest in
      if isSpace c && bool_decide (rest = "") then "" else String c rest
  | EmptyString => EmptyString
  end.

(** Modelled from the spec: "leading/trailing whitespace trimmed";
    [commands.ts] is missing. *)
Definition trim (s : string) : string := trimEnd (trimStart s).

(** Modelled from the spec: whether a text goes on with a token rather than
    with whitespace or its end; [commands.ts] is missing. *)
Definition startsToken (s : string) : bool :=
  match s with
  | String c _ => negb (isSpace c)
  | EmptyString => false
  end.

(** Modelled from the spec: "split on whitespace (collapsing runs of
    whitespace) into tokens"; [commands.ts] is missing.  Every token comes
    with the raw text that follows it, because the argument string is "the
    remaining, unconsumed raw text". *)
Fixpoint tokenize (text : string) : list (string * string) :=
  match text with
  | EmptyString => []
  | String c rest =>
      if isSpace c then tokenize rest
      else
        match startsToken rest, tokenize rest with
        | true, (token, after) :: more => (String c token, after) :: more
        | _, more => (String c "", rest) :: more
        end
  end.

(** Modelled from the spec: a lookup resolves a token "by name or alias";
    [commands.ts] is missing.  The tests hand over either a [Map] from names
    and aliases to commands or an array of commands. *)
Inductive Lookup :=
| ByMap (entries : JsMap.t SlashCommand)
| ByList (cmds : list SlashCommand).

(** Modelled from the spec: a command answers to its "name or alias";
    [commands.ts] is missing. *)
Definition answersTo (token : string) (cmd : SlashCommand) : bool :=
  bool_decide (name cmd = token) ||
  bool_decide (token ∈ default [] (altNames cmd)).

(** Modelled from the spec: "resolve the token against the lookup";
    [commands.ts] is missing. *)
Definition resolveToken (lookup : Lookup) (token : string) : option SlashCommand :=
  match lookup with
  | ByMap entries => JsMap.get entries token
  | ByList cmds => List.find (answersTo token) cmds
  end.

(** Modelled from the spec: "the resolved command's own nested lookup (if it
    has one)"; [commands.ts] is missing.  The tests descend through
    [commandMap] where it is attached and through [subCommands] otherwise. *)
Definition nestedLookup (cmd : SlashCommand) : option Lookup :=
  match commandMap cmd with
  | Some entries => Some (ByMap entries)
  | None => ByList <$> subCommands cmd
  end.

(** Modelled from the spec: the result of a resolution, "the deepest
    successfully resolved command (or none), the canonical path of names from
    root to that command, and the remaining text as the argument string";
    [commands.ts] is missing, the field names are those its tests read. *)
Record ParsedSlashCommand := mkParsed {
  commandToExecute : option SlashCommand;
  args : string;
  canonicalPath : list string;
}.

(** Modelled from the spec: the result once the descent has stopped, with
    "the remaining, unconsumed raw text (leading/trailing whitespace
    trimmed) as the argument string"; [commands.ts] is missing. *)
Definition finish (found : option SlashCommand) (path : list string)
    (remaining : string) : ParsedSlashCommand :=
  {| commandToExecute := found; args := trim remaining; canonicalPath := path |}.

(** Modelled from the spec: "Resolve the first token against the current
    top-level lookup; if found, repeatedly attempt to resolve the next token
    against the resolved command's own nested lookup, descending while
    matches continue; stop descending at the first token with no match, a
    command with no nested lookup, or end of input"; [commands.ts] is
    missing. *)
Fixpoint descend (lookup : Lookup) (tokens : list (string * string))
    (remaining : string) (found : option SlashCommand) (path : list string)
    : ParsedSlashCommand :=
  match tokens with
  | [] => finish found path remaining
  | (token, after) :: more =>
      match resolveToken lookup token with
      | None => finish found path remaining
      | Some cmd =>
          match nestedLookup cmd with
          | Some nested => descend nested more after (Some cmd) (path ++ [name cmd])
          | None => finish (Some cmd) (path ++ [name cmd]) after
          end
      end
  end.

(** Modelled from the spec: the command prefix; [commands.ts] is missing and
    its tests use the slash. *)
Definition commandPrefix : ascii := "/"%char.

(** Modelled from the spec: section 4.5, "Command resolution"; [commands.ts]
    is missing.  The tests accept whitespace around the input. *)
Definition parseSlashCommand (query : string) (lookup : Lookup) : ParsedSlashCommand :=
  match trim query with
  | String c text =>
      if bool_decide (c = commandPrefix)
      then descend lookup (tokenize text) text None []
      else finish None [] ""
  | EmptyString => finish None [] ""
  end.

(** Modelled from the spec: a text without token; [commands.ts] is
    missing. *)
Definition allSpaces (s : string) : Prop :=
  Forall (λ c, isSpace c = true) (String.list_ascii_of_string s).

(** Modelled from the spec: a token, a non-empty text without whitespace;
    [commands.ts] is missing. *)
Definition isToken (s : string) : Prop :=
  s ≠ "" ∧ Forall (λ c, isSpace c = false) (String.list_ascii_of_string s).

(** Modelled from the spec: [token] is the first token of [text] and [after]
    is the raw text that follows it; [commands.ts] is missing. *)
Inductive firstToken (text token after : string) : Prop :=
| FirstToken (spaces : string) :
    text = spaces +:+ token +:+ after →
    allSpaces spaces → isToken token → startsToken after = false →
    firstToken text token after.

(** Modelled from the spec: the prose of section 4.5 as a relation between
    the text after the prefix and the result, one rule for each way the
    descent stops and one for a step down; [commands.ts] is missing. *)
Inductive resolution (lookup : Lookup) (text : string)
    (found : option SlashCommand) (path : list string)
    : ParsedSlashCommand → Prop :=
| EndOfInput :
    allSpaces text →
    resolution lookup text found path (finish found path text)
| NoMatch token after :
    firstToken text token after →
    resolveToken lookup token = None →
    resolution lookup text found path (finish found path text)
| NoNestedLookup token after cmd :
    firstToken text token after →
    resolveToken lookup token = Some cmd →
    nestedLookup cmd = None →
    resolution lookup text found path
      (finish (Some cmd) (path ++ [name cmd]) after)
| Descend token after cmd nested result :
    firstToken text token after →
    resolveToken lookup token = Some cmd →
    nestedLookup cmd = Some nested →
    resolution nested after (Some cmd) (path ++ [name cmd]) result →
    resolution lookup text found path result.

End Resolution.

(** ** Standard input as an argument: [packages/cli/src/utils/args.ts] *)

Module Args.
Import Commands.

Definition BOOLEAN_FLAGS : list string :=
  ["--debug"; "-d"; "--sandbox"; "-s"; "--yolo"; "-y"; "--experimental-acp";
   "--list-extensions"; "-l"; "--list-sessions"; "--screen-reader";
   "--help"; "-h"; "--version"; "-v"].

(** [arg.startsWith(prefix)] *)
Definition startsWith (arg prefix : string) : bool := String.prefix prefix arg.

(** [`${stdinData}\n\n${arg}`] *)
Definition withStdin (stdinData arg : string) : string :=
  stdinData +:+ String "010" (String "010" arg).

(** The [for (let i = 2; i < finalArgs.length; i++)] loop, entered with
    index [i]; [finalArgs !! i] is [None] exactly when the loop condition
    fails, and [finalArgs.push('--prompt', stdinData)] follows.  [fuel]
    bounds the number of iterations; [None] means that the bound was
    reached. *)
Fixpoint scanArgs (fuel : nat) (stdinData : string) (finalArgs : list string)
    (i : nat) : option (list string) :=
  match finalArgs !! i with
  | None => Some (finalArgs ++ ["--prompt"; stdinData])
  | Some arg =>
      match fuel with
      | 0 => None
      | S fuel =>
          if startsWith arg "-" then
            match
              if bool_decide (arg = "--prompt") || bool_decide (arg = "-p")
              then finalArgs !! (i + 1) else None
            with
            | Some next => Some (<[i + 1 := withStdin stdinData next]> finalArgs)
            | None =>
                if bool_decide (arg ∈ BOOLEAN_FLAGS)
                then scanArgs fuel stdinData finalArgs (i + 1)
                else scanArgs fuel stdinData finalArgs (i + 1 + 1)
            end
          else Some (<[i := withStdin stdinData arg]> finalArgs)
      end
  end.

(** [injectStdinIntoArgs(args, stdinData)]; [finalArgs] is a copy of
    [args].  Every iteration advances the index, so [args.length] iterations
    are enough. *)
Definition injectStdinIntoArgs (args : list string) (stdinData : option string)
    : option (list string) :=
  let finalArgs := args in
  if negb (truthyString stdinData) then Some finalArgs
  else scanArgs (length finalArgs) (default "" stdinData) finalArgs 2.

(** The same scan read as a recursion over the arguments not yet visited:
    what the loop leaves of them. *)
Fixpoint injectFrom (stdinData : string) (rest : list string) : list string :=
  match rest with
  | [] => ["--prompt"; stdinData]
  | arg :: rest' =>
      if startsWith arg "-" then
        match
          if bool_decide (arg = "--prompt") || bool_decide (arg = "-p")
          then rest' else []
        with
        | next :: rest'' => arg :: withStdin stdinData next :: rest''
        | [] =>
            if bool_decide (arg ∈ BOOLEAN_FLAGS)
            then arg :: injectFrom stdinData rest'
            else
              match rest' with
              | value :: rest'' => arg :: value :: injectFrom stdinData rest''
              | [] => [arg; "--prompt"; stdinData]
              end
        end
      else withStdin stdinData arg :: rest'
  end.

(** The options that announce the prompt. *)
Definition isPromptOption (arg : string) : bool :=
  bool_decide (arg = "--prompt") || bool_decide (arg = "-p").

End Args.

(** ** The static [create] of [CommandService implements CommandRegistry] *)

Module RegistryCreate.
Import Commands Runtime.

(** [create(loaders, signal)]: [new CommandService(loaders)], then
    [await service.reloadCommands(signal)].  Nobody else holds the new
    service before [create] returns it; what can happen while the loaders
    run is that the caller aborts [signal] ([abortedMeanwhile]). *)
Definition create (signal : Signal) (abortedMeanwhile : bool)
    (results : list SettledResult) : option State :=
  let service := initial in
  let '(service, signal) := Registry.reloadCommands_begin (Some signal) service in
  let service := if abortedMeanwhile then abort signal service else service in
  Registry.reloadCommands_settled signal results service.

End RegistryCreate.

(** ** [CommandRefresher implements CustomCommandManager] *)

Module Refresher.

(** The [Set] of listeners in insertion order, followed by the listener
    calls made and the unsubscribe closures handed out.  Listeners are
    functions compared by identity that return without calling back. *)
Record State := mkState {
  listeners : list Runtime.Listener;
  invoked : list Runtime.Listener;
  closures : list Runtime.Listener;
}.

Definition initial : State :=
  {| listeners := []; invoked := []; closures := [] |}.

(** [this.listeners.forEach((listener) => listener())] *)
Definition refreshCommands (st : State) : State :=
  {| listeners := listeners st;
     invoked := invoked st ++ listeners st;
     closures := closures st |}.

(** [this.listeners.add(callback)] and the closure that is returned, as the
    index under which it is kept. *)
Definition subscribe (callback : Runtime.Listener) (st : State) : State * nat :=
  ({| listeners := if bool_decide (callback ∈ listeners st) then listeners st
                   else listeners st ++ [callback];
      invoked := invoked st;
      closures := closures st ++ [callback] |},
   length (closures st)).

(** Calling the closure: [this.listeners.delete(callback)]. *)
Definition unsubscribe (capability : nat) (st : State) : State :=
  match closures st !! capability with
  | Some callback =>
      {| listeners := filter (λ l, l ≠ callback) (listeners st);
         invoked := invoked st;
         closures := closures st |}
  | None => st
  end.

Inductive Event :=
| Refresh
| Subscribe (callback : Runtime.Listener)
| Unsubscribe (capability : nat).

Definition step (st : State) (ev : Event) : State :=
  match ev with
  | Refresh => refreshCommands st
  | Subscribe callback => (subscribe callback st).1
  | Unsubscribe capability => unsubscribe capability st
  end.

Definition run (st : State) (trace : list Event) : State :=
  foldl step st trace.

(** The listener calls made between two states. *)
Definition notified (st st' : State) : list Runtime.Listener :=
  drop (length (invoked st)) (invoked st').

(** The refresher seen as a service that has no commands and no loaders. *)
Definition asService (st : State) : Runtime.State :=
  {| Runtime.commands := [];
     Runtime.listeners := listeners st;
     Runtime.currentAbortController := None;
     Runtime.controllers := 0;
     Runtime.aborted := [];
     Runtime.debugLog := [];
     Runtime.invoked := invoked st;
     Runtime.closures := closures st |}.

(** A refresh is what a reload on a caller's signal comes to when there is
    nothing to load. *)
Definition asServiceEvent (ev : Event) : Registry.Event :=
  match ev with
  | Refresh => Registry.Settled (Runtime.ExternalSignal 0) []
  | Subscribe callback => Registry.Subscribe callback
  | Unsubscribe capability => Registry.Unsubscribe capability
  end.

End Refresher.

(** ** Controllers and their signals *)

Module Controllers.
Import Runtime.

(** Controllers are numbered in the order of their creation: the current
    one has been created, and so has every one whose signal is aborted. *)
Definition numbered (st : State) : Prop :=
  (∀ controller, currentAbortController st = Some controller →
     controller < controllers st) ∧
  (∀ controller, OwnSignal controller ∈ aborted st → controller < controllers st).

(** The changes of a state that anyone but the service can see. *)
Definition observably (st st' : State) : Prop :=
  commands st' = commands st ∧ invoked st' = invoked st ∧
  debugLog st' = debugLog st.

End Controllers.

(** ** Ignore patterns: [processPatterns] of
    [packages/core/src/utils/gitIgnoreParser.ts] *)

Module GitIgnore.

(** [p.substring(1)] *)
Definition substring1 (p : string) : string :=
  match p with
  | String _ rest => rest
  | EmptyString => EmptyString
  end.

(** [p.includes('/')] *)
Fixpoint includesSlash (p : string) : bool :=
  match p with
  | String c rest => Ascii.eqb c "/" || includesSlash rest
  | EmptyString => false
  end.

(** The pattern without its ['!'] and without the ['/'] that follows. *)
Definition unmarked (p : string) : string :=
  let p := if Args.startsWith p "!" then substring1 p else p in
  if Args.startsWith p "/" then substring1 p else p.

Section patterns.

(** [p.trimStart()] and [path.posix.join(a, b)] belong to the runtime; the
    processing is read for whatever they return. *)
Variable trimStart : string → string.
Variable posixJoin : string → string → string.

(** The callback of the second [map]. *)
Definition processPattern (relativeBaseDir p : string) : string :=
  let isNegative := Args.startsWith p "!" in
  let p := if isNegative then substring1 p else p in
  let isAnchoredInFile := Args.startsWith p "/" in
  let p := if isAnchoredInFile then substring1 p else p in
  if String.eqb p "" then ""
  else
    let newPattern := p in
    let newPattern :=
      if negb (String.eqb relativeBaseDir "") && negb (String.eqb relativeBaseDir ".")
      then
        let newPattern :=
          if negb isAnchoredInFile && negb (includesSlash p)
          then posixJoin "**" p else newPattern in
        let newPattern := posixJoin relativeBaseDir newPattern in
        if negb (Args.startsWith newPattern "/") then "/" +:+ newPattern
        else newPattern
      else newPattern in
    let newPattern :=
      if isAnchoredInFile && negb (Args.startsWith newPattern "/")
      then "/" +:+ newPattern else newPattern in
    let newPattern := if isNegative then "!" +:+ newPattern else newPattern in
    newPattern.

(** [p !== '' && !p.startsWith('#')] *)
Definition isPattern (p : string) : bool :=
  negb (String.eqb p "") && negb (Args.startsWith p "#").

Definition processPatterns (rawPatterns : list string) (relativeBaseDir : string)
    : list string :=
  List.filter (λ p, negb (String.eqb p ""))
    (List.map (processPattern relativeBaseDir)
       (List.filter isPattern (List.map trimStart rawPatterns))).

End patterns.

End GitIgnore.

(** ** [DebugLogger]: [packages/core/src/utils/debugLogger.ts] *)

Module DebugLog.

Inductive Level := LOG | WARN | ERROR | DEBUG.

Definition levelName (level : Level) : string :=
  match level with
  | LOG => "LOG" | WARN => "WARN" | ERROR => "ERROR" | DEBUG => "DEBUG"
  end.

Section logger.

(** The arguments of a call are arbitrary values, among them strings.
    [util.format] and the clock belong to the runtime. *)
Context {Arg : Type}.
Variable ofString : string → Arg.
Variable format : list Arg → string.
Variable toISOString : nat → string.

(** What a call does to the outside: a call of the delegate's method of the
    same name, a line written to the log stream, a call of [console]. *)
Inductive Effect :=
| ToDelegate (delegate : nat) (level : Level) (args : list Arg)
| ToFile (logEntry : string)
| ToConsole (level : Level) (args : list Arg).

(** The fields of the logger, the time, and the effects so far.  An error
    of the stream, which its handler reports on the console, is not
    modelled. *)
Record State := mkState {
  logStream : bool;
  delegate : option nat;
  clock : nat;
  effects : list Effect;
}.

(** [setDelegate(logger)] *)
Definition setDelegate (logger : option nat) (st : State) : State :=
  {| logStream := logStream st; delegate := logger; clock := clock st;
     effects := effects st |}.

(** [writeToFile(level, args)] *)
Definition writeToFile (level : Level) (args : list Arg) (st : State) : State :=
  if logStream st then
    let message := format args in
    let timestamp := toISOString (clock st) in
    let logEntry :=
      "[" +:+ timestamp +:+ "] [" +:+ levelName level +:+ "] " +:+ message
      +:+ String "010" "" in
    {| logStream := logStream st; delegate := delegate st; clock := clock st;
       effects := effects st ++ [ToFile logEntry] |}
  else st.

(** [log], [warn], [error] and [debug] differ in the level only. *)
Definition call (level : Level) (args : list Arg) (st : State) : State :=
  match delegate st with
  | Some logger =>
      {| logStream := logStream st; delegate := delegate st; clock := clock st;
         effects := effects st ++ [ToDelegate logger level args] |}
  | None =>
      let st := writeToFile level args st in
      {| logStream := logStream st; delegate := delegate st; clock := clock st;
         effects := effects st ++ [ToConsole level args] |}
  end.

(** A method of the object [getLogger(name)] returns: it captures the
    logger and the name. *)
Definition named (name : string) (level : Level) (args : list Arg) (st : State)
    : State :=
  call level (ofString ("[" +:+ name +:+ "]") :: args) st.

Inductive Event :=
| SetDelegate (logger : option nat)
| Call (level : Level) (args : list Arg)
| NamedCall (name : string) (level : Level) (args : list Arg)
| Tick.

Definition step (st : State) (ev : Event) : State :=
  match ev with
  | SetDelegate logger => setDelegate logger st
  | Call level args => call level args st
  | NamedCall name level args => named name level args st
  | Tick => {| logStream := logStream st; delegate := delegate st;
               clock := S (clock st); effects := effects st |}
  end.

Definition run (st : State) (trace : list Event) : State := foldl step st trace.

(** The calls a trace asks for, as they reach [log], [warn], [error] or
    [debug]. *)
Definition requested (ev : Event) : option (Level * list Arg) :=
  match ev with
  | Call level args => Some (level, args)
  | NamedCall name level args =>
      Some (level, ofString ("[" +:+ name +:+ "]") :: args)
  | _ => None
  end.

(** The calls that reached the console or a delegate. *)
Definition delivered (e : Effect) : option (Level * list Arg) :=
  match e with
  | ToDelegate _ level args | ToConsole level args => Some (level, args)
  | ToFile _ => None
  end.

Definition isToFile (e : Effect) : bool :=
  match e with ToFile _ => true | _ => false end.

Definition isToConsole (e : Effect) : bool :=
  match e with ToConsole _ _ => true | _ => false end.

(** The effects between two states. *)
Definition since (st st' : State) : list Effect :=
  drop (length (effects st)) (effects st').

End logger.

End DebugLog.

(** ** The order of the loaders *)

Module Precedence.
Import Commands Aggregator.

(** Whether the conflict resolution can store [cmd] under [key]: under its
    name, or under one of the candidates when it is an extension command. *)
Definition mayTake (key : string) (cmd : SlashCommand) : Prop :=
  name cmd = key ∨
  (truthyString (extensionName cmd) = true ∧
   ∃ i, candidate (default "" (extensionName cmd)) (name cmd) i = key).

(** The entry of a command that keeps its name. *)
Definition entry (cmd : SlashCommand) : string * SlashCommand := (name cmd, cmd).

End Precedence.

(** ** Properties of the merge *)

Module MergeSpec.
Import Merge.

(** *** Own properties *)

Lemma ownProperty_None (own : props) key : ownProperty own key = None ↔ key ∉ own.*1.
Proof.
  induction own as [|[k x] rest IH];
    [split; [intros _; apply not_elem_of_nil|done]|].
  rewrite fmap_cons, not_elem_of_cons. cbn [ownProperty fst].
  destruct (decide (k = key)) as [->|?]; [naive_solver|]. rewrite IH. naive_solver.
Qed.

Lemma ownProperty_elem_of (own : props) key v :
  ownProperty own key = Some v → (key, v) ∈ own.
Proof.
  induction own as [|[k x] rest IH]; [done|]. cbn [ownProperty].
  destruct (decide (k = key)) as [->|?].
  - intros [= ->]. left.
  - intros ?. right. auto.
Qed.

Lemma keys_writeOwn (own : props) key v : (writeOwn own key v).*1 = own.*1.
Proof.
  induction own as [|[k x] rest IH]; [done|]. cbn [writeOwn].
  destruct (decide (k = key)); [done|]. rewrite !fmap_cons. by f_equal.
Qed.

Lemma ownProperty_writeOwn (own : props) key v k :
  is_Some (ownProperty own key) →
  ownProperty (writeOwn own key v) k =
  if decide (k = key) then Some v else ownProperty own k.
Proof.
  induction own as [|[k' x] rest IH]; [by intros [? [=]]|].
  cbn [ownProperty writeOwn]. destruct (decide (k' = key)) as [->|Hne].
  - intros _. cbn [ownProperty]. repeat case_decide; congruence.
  - intros Hkey. cbn [ownProperty]. rewrite IH by done.
    repeat case_decide; congruence.
Qed.

Lemma writeOwn_same (own : props) key v :
  NoDup own.*1 → (key, v) ∈ own → writeOwn own key v = own.
Proof.
  induction own as [|[k x] rest IH]; [done|].
  rewrite fmap_cons, NoDup_cons. intros [Hk Hrest] Hin. cbn [writeOwn].
  destruct (decide (k = key)) as [->|Hne].
  - apply elem_of_cons in Hin as [[= ->]|Hin]; [done|].
    destruct Hk. apply list_elem_of_fmap. by exists (key, v).
  - apply elem_of_cons in Hin as [[= -> ->]|Hin]; [done|]. by rewrite IH.
Qed.

Lemma keys_defineOwn (own : props) key v : (defineOwn own key v).*1 ≡ₚ key :: own.*1.
Proof.
  induction own as [|[k x] rest IH]; [done|]. cbn [defineOwn].
  destruct (listedBefore key k); [done|].
  rewrite !fmap_cons, IH. cbn [fst]. apply Permutation_swap.
Qed.

Lemma ownProperty_defineOwn (own : props) key v k :
  ownProperty own key = None →
  ownProperty (defineOwn own key v) k =
  if decide (k = key) then Some v else ownProperty own k.
Proof.
  induction own as [|[k' x] rest IH]; cbn [ownProperty defineOwn].
  - intros _. repeat case_decide; congruence.
  - destruct (decide (k' = key)) as [->|Hne]; [done|]. intros Hkey.
    destruct (listedBefore key k'); cbn [ownProperty].
    + repeat case_decide; congruence.
    + rewrite IH by done. repeat case_decide; congruence.
Qed.

Lemma Forall_writeOwn (P : string * value → Prop) (own : props) key v :
  Forall P own → (∀ k, P (k, v)) → Forall P (writeOwn own key v).
Proof.
  intros Hown Hv. induction Hown as [|[k x] rest ? ? IH]; [constructor|].
  cbn [writeOwn]. destruct (decide (k = key)); by constructor.
Qed.

Lemma Forall_defineOwn (P : string * value → Prop) (own : props) key v :
  Forall P own → P (key, v) → Forall P (defineOwn own key v).
Proof.
  intros Hown Hv. induction Hown as [|[k x] rest ? ? IH]; [by repeat constructor|].
  cbn [defineOwn]. destruct (listedBefore key k); by repeat constructor.
Qed.

(** *** What an assignment does *)

(** An assignment under a key other than [__proto__] makes the key an own
    property and leaves the others and the prototype alone. *)
Lemma set_key (result : record) key v :
  key ≠ "__proto__" →
  proto (set result key v) = proto result ∧
  (∀ k, ownProperty (own (set result key v)) k =
        if decide (k = key) then Some v else ownProperty (own result) k) ∧
  (own (set result key v)).*1 ≡ₚ
    match ownProperty (own result) key with
    | Some _ => (own result).*1
    | None => key :: (own result).*1
    end.
Proof.
  intros Hkey. unfold set.
  destruct (ownProperty (own result) key) as [old|] eqn:Hown.
  - cbn [own proto]. split_and!; [done| |by rewrite keys_writeOwn].
    intros k. by rewrite ownProperty_writeOwn by by rewrite Hown.
  - rewrite bool_decide_false by done. cbn [andb own proto].
    split_and!; [done| |apply keys_defineOwn].
    intros k. by apply ownProperty_defineOwn.
Qed.

(** A read under a key other than [__proto__], while the prototype is
    [Object.prototype], sees the own property or nothing the merge could
    take for an object. *)
Lemma get_key (result : record) key :
  proto result = VObjectPrototype → key ≠ "__proto__" →
  get result key = default VUndefined (ownProperty (own result) key).
Proof.
  intros Hproto Hkey. unfold get. rewrite Hproto.
  destruct (ownProperty (own result) key); [done|]. simpl.
  by rewrite decide_False.
Qed.

(** *** The stack is never exhausted *)

Lemma depth_VObject own proto n :
  depth (VObject own proto) ≤ S n ↔ within n (mkRecord own proto).
Proof.
  unfold within. cbn [depth Merge.own Merge.proto].
  fold (protoDepth proto).
  assert (∀ l : props,
    foldr (λ entry acc, depth entry.2 `max` acc) 0 l ≤ n ↔
    Forall (λ entry, depth entry.2 ≤ n) l) as Hfold.
  { induction l as [|e l IH]; [split; [constructor|simpl; lia]|].
    rewrite Forall_cons, <-IH. simpl. lia. }
  rewrite <-Hfold. lia.
Qed.

Lemma within_le n m obj : within n obj → n ≤ m → within m obj.
Proof.
  intros [Hown Hproto] Hle. split; [|lia].
  eapply Forall_impl; [exact Hown|]. simpl. intros. lia.
Qed.

Lemma within_depth obj : within (pred (depth (toValue obj))) obj.
Proof.
  destruct obj as [o p]. apply depth_VObject. unfold toValue. simpl. lia.
Qed.

Lemma protoDepth_le p : protoDepth p ≤ depth p.
Proof. destruct p; simpl; lia. Qed.

Lemma depth_ownProperty (own : props) key v n :
  Forall (λ entry, depth entry.2 ≤ n) own → ownProperty own key = Some v →
  depth v ≤ n.
Proof.
  intros Hown Hv%ownProperty_elem_of.
  by apply (proj1 (Forall_forall _ _) Hown) in Hv.
Qed.

Lemma depth_inherited holder receiverProto key n :
  protoDepth holder ≤ n → protoDepth receiverProto ≤ n →
  depth (inherited holder receiverProto key) ≤ 1 `max` n.
Proof.
  intros Hholder Hreceiver.
  assert (depth receiverProto ≤ 1 `max` n) as Hself.
  { destruct receiverProto; simpl in *; lia. }
  revert Hholder. induction holder as [| | | | |elems|o p IH|]; intros Hholder;
    cbn [inherited]; try (simpl; lia).
  - unfold arrayOwn. case_decide; [simpl; lia|].
    destruct (arrayIndex key) as [i|]; cbn [mbind option_bind].
    + destruct (elems !! N.to_nat i) as [v|] eqn:Hv; [|case_decide; simpl; lia].
      simpl in Hholder. apply list_elem_of_lookup_2 in Hv.
      assert (depth v ≤ foldr (λ x acc, depth x `max` acc) 0 elems); [|lia].
      clear -Hv. induction Hv; simpl; lia.
    + case_decide; simpl; lia.
  - change (protoDepth (VObject o p)) with (depth (VObject o p)) in Hholder.
    destruct n as [|n]; [simpl in Hholder; lia|].
    apply depth_VObject in Hholder as [Hown Hproto]. cbn [own proto] in *.
    destruct (ownProperty o key) as [v|] eqn:Hv.
    + apply (depth_ownProperty _ _ _ _ Hown) in Hv. lia.
    + apply IH. lia.
  - case_decide; simpl; lia.
Qed.

Lemma within_get n (result : record) key :
  within n result → depth (get result key) ≤ 1 `max` n.
Proof.
  intros [Hown Hproto]. unfold get.
  destruct (ownProperty (own result) key) as [v|] eqn:Hv.
  - apply (depth_ownProperty _ _ _ _ Hown) in Hv. lia.
  - by apply depth_inherited.
Qed.

Lemma within_set n (result : record) key v :
  within n result → depth v ≤ n → within n (set result key v).
Proof.
  intros [Hown Hproto] Hv. unfold set.
  destruct (ownProperty (own result) key).
  - split; [|done]. by apply Forall_writeOwn.
  - destruct (bool_decide (key = "__proto__") && setterVisible (proto result)).
    + destruct (isPrototype v); [|done]. split; [done|].
      cbn [proto]. pose proof (protoDepth_le v). lia.
    + split; [|done]. by apply Forall_defineOwn.
Qed.

Lemma isObject_asRecord (item : value) :
  isObject item = true ↔ is_Some (asRecord item).
Proof.
  destruct item; simpl; unfold isObject; simpl;
    rewrite ?andb_false_r; split; (done || by intros [? [=]] || by eexists).
Qed.

Lemma within_asRecord n item obj :
  depth item ≤ S n → asRecord item = Some obj → within n obj.
Proof.
  destruct item; try done; intros Hd [= <-].
  - by apply depth_VObject.
  - split; [constructor|simpl; lia].
Qed.

Lemma depth_object item : isObject item = true → 1 ≤ depth item.
Proof.
  destruct item; unfold isObject; simpl; rewrite ?andb_false_r; intros;
    try done; lia.
Qed.

(** The loop over the own keys of [obj] with a recursive call that returns
    for whatever is nested less deep. *)
Lemma mergeEntries_within n rec (result : record) (entries : props) :
  (∀ m t s, n = S m → within m t → within m s →
     ∃ r, rec (Some t) (Some s) = Some r ∧ within m r) →
  within n result → Forall (λ entry, depth entry.2 ≤ n) entries →
  ∃ result', mergeEntries rec result entries = Some result' ∧ within n result'.
Proof.
  intros Hrec. revert result.
  induction entries as [|[key objValue] rest IH]; intros result Hresult Hentries.
  - by exists result.
  - apply Forall_cons in Hentries as [Hobj Hrest]. cbn [snd] in Hobj.
    cbn [mergeEntries].
    assert (∃ v, mergedValue rec (get result key) objValue = Some v ∧
                 depth v ≤ n) as (v & -> & Hv).
    { unfold mergedValue.
      destruct (isObject (get result key) && isObject objValue) eqn:Hboth;
        [|by exists objValue].
      apply andb_true_iff in Hboth as [Hr Ho].
      pose proof (depth_object _ Ho) as Hpos.
      destruct n as [|m]; [lia|].
      pose proof (within_get _ _ key Hresult) as Hget.
      apply isObject_asRecord in Hr as [t Ht], Ho as [s Hs].
      rewrite Ht, Hs.
      destruct (Hrec m t s eq_refl) as (r & -> & Hwithin).
      - eapply within_asRecord; [|done]. lia.
      - eapply within_asRecord; [|done]. lia.
      - exists (toValue r). split; [done|].
        destruct r. by apply depth_VObject. }
    cbn [mbind option_bind]. apply IH; [|done]. by apply within_set.
Qed.

Lemma within_empty n : within n emptyObject.
Proof. split; [constructor|simpl; lia]. Qed.

Lemma deepMergeN_unfold fuel target source :
  deepMergeN (S fuel) target source =
  (result ← mergeIntoResult (deepMergeN fuel) emptyObject target;
   mergeIntoResult (deepMergeN fuel) result source).
Proof. done. Qed.

Lemma deepMergeN_within (n : nat) target source :
  withinOption n target → withinOption n source →
  ∃ r, deepMergeN (S n) target source = Some r ∧ within n r.
Proof.
  revert target source. induction n as [|n IH]; intros target source Ht Hs;
    rewrite deepMergeN_unfold.
  - assert (∀ result obj, within 0 result → withinOption 0 obj →
      ∃ result', mergeIntoResult (deepMergeN 0) result obj = Some result' ∧
                 within 0 result') as Hpass.
    { intros result [o|] Hresult Ho; [|by exists result].
      apply mergeEntries_within; [intros; lia|done|apply Ho]. }
    destruct (Hpass emptyObject target (within_empty 0) Ht) as (r1 & -> & Hr1).
    by apply Hpass.
  - assert (∀ result obj, within (S n) result → withinOption (S n) obj →
      ∃ result', mergeIntoResult (deepMergeN (S n)) result obj = Some result' ∧
                 within (S n) result') as Hpass.
    { intros result [o|] Hresult Ho; [|by exists result].
      apply mergeEntries_within; [|done|apply Ho].
      intros m t s [= <-] ? ?. by apply IH. }
    destruct (Hpass emptyObject target (within_empty _) Ht) as (r1 & -> & Hr1).
    by apply Hpass.
Qed.

Lemma withinOption_depthRecord n obj : depthRecord obj ≤ S n → withinOption n obj.
Proof.
  destruct obj as [[o p]|]; [|done]. simpl. intros. by apply depth_VObject.
Qed.

(** [deepMerge] returns, whatever its arguments are. *)
Lemma deepMerge_is_Some target source : is_Some (deepMerge target source).
Proof.
  unfold deepMerge.
  destruct (deepMergeN_within (depthRecord target `max` depthRecord source)
              target source) as (r & -> & _); [..|by eexists];
    apply withinOption_depthRecord; lia.
Qed.

(** *** The result does not depend on the stack bound *)

Lemma mergedValue_mono (rec rec' : option record → option record → option record) :
  (∀ a b r, rec a b = Some r → rec' a b = Some r) →
  ∀ rv ov v, mergedValue rec rv ov = Some v → mergedValue rec' rv ov = Some v.
Proof.
  intros Hrec rv ov v. unfold mergedValue.
  destruct (isObject rv && isObject ov); [|done].
  destruct (rec (asRecord rv) (asRecord ov)) as [r|] eqn:Hr; [|done].
  by rewrite (Hrec _ _ _ Hr).
Qed.

Lemma mergeEntries_mono (rec rec' : option record → option record → option record) :
  (∀ a b r, rec a b = Some r → rec' a b = Some r) →
  ∀ entries result result',
    mergeEntries rec result entries = Some result' →
    mergeEntries rec' result entries = Some result'.
Proof.
  intros Hrec. induction entries as [|[key objValue] rest IH]; [done|].
  intros result result'. cbn [mergeEntries].
  destruct (mergedValue rec (get result key) objValue) as [v|] eqn:Hv; [|done].
  rewrite (mergedValue_mono _ _ Hrec _ _ _ Hv). apply IH.
Qed.

Lemma mergeIntoResult_mono (rec rec' : option record → option record → option record) :
  (∀ a b r, rec a b = Some r → rec' a b = Some r) →
  ∀ obj result result',
    mergeIntoResult rec result obj = Some result' →
    mergeIntoResult rec' result obj = Some result'.
Proof. intros Hrec [o|]; [by apply mergeEntries_mono|done]. Qed.

(** More stack never changes a result. *)
Lemma deepMergeN_mono (n m : nat) target source r :
  n ≤ m → deepMergeN n target source = Some r →
  deepMergeN m target source = Some r.
Proof.
  revert m target source r. induction n as [|n IH]; intros m t s r Hle; [done|].
  destruct m as [|m]; [lia|]. rewrite !deepMergeN_unfold.
  assert (∀ a b r, deepMergeN n a b = Some r → deepMergeN m a b = Some r) as Hrec.
  { intros a b r'. apply IH. lia. }
  destruct (mergeIntoResult (deepMergeN n) emptyObject t) as [r1|] eqn:H1; [|done].
  rewrite (mergeIntoResult_mono _ _ Hrec _ _ _ H1). cbn [mbind option_bind].
  by apply mergeIntoResult_mono.
Qed.

Lemma deepMergeN_Some_deepMerge (n : nat) target source r :
  deepMergeN n target source = Some r → deepMerge target source = Some r.
Proof.
  intros Hn. destruct (deepMerge_is_Some target source) as [r' Hr'].
  rewrite Hr'. f_equal. unfold deepMerge in Hr'.
  destruct (Nat.le_ge_cases n (S (depthRecord target `max` depthRecord source))).
  - eapply deepMergeN_mono in Hn; [|done]. congruence.
  - eapply deepMergeN_mono in Hr'; [|done]. congruence.
Qed.

(** The recursive equation of the source: [deepMerge] is the two passes of
    [mergeIntoResult] over a new object, with itself as recursive call. *)
Lemma deepMerge_eq target source :
  deepMerge target source =
  (result ← mergeIntoResult deepMerge emptyObject target;
   mergeIntoResult deepMerge result source).
Proof.
  destruct (deepMerge_is_Some target source) as [r Hr]. rewrite Hr.
  unfold deepMerge in Hr. rewrite deepMergeN_unfold in Hr.
  set (n := depthRecord target `max` depthRecord source) in Hr.
  assert (∀ a b r, deepMergeN n a b = Some r → deepMerge a b = Some r) as Hrec.
  { intros a b r'. apply deepMergeN_Some_deepMerge. }
  destruct (mergeIntoResult (deepMergeN n) emptyObject target) as [r1|] eqn:H1;
    [|done].
  rewrite (mergeIntoResult_mono _ _ Hrec _ _ _ H1). cbn [mbind option_bind].
  symmetry. by apply (mergeIntoResult_mono _ _ Hrec).
Qed.

(** *** Mappings that have no own key [__proto__] *)

(** While the prototype is [Object.prototype], a pass over entries whose
    keys are pairwise distinct and none of which is [__proto__] leaves the
    prototype alone and a merged value under every key of the entries. *)
Lemma mergeEntries_plain rec (entries : props) (result result' : record) :
  NoDup entries.*1 → "__proto__" ∉ entries.*1 →
  proto result = VObjectPrototype →
  mergeEntries rec result entries = Some result' →
  proto result' = VObjectPrototype ∧
  ∀ key,
    match ownProperty entries key with
    | Some objValue =>
        ∃ v, mergedValue rec (default VUndefined (ownProperty (own result) key))
               objValue = Some v ∧
             ownProperty (own result') key = Some v
    | None => ownProperty (own result') key = ownProperty (own result) key
    end.
Proof.
  revert result. induction entries as [|[k objValue] rest IH];
    intros result Hnodup Hplain Hproto.
  - by intros [= <-].
  - rewrite fmap_cons in Hnodup, Hplain. cbn [fst] in *.
    apply NoDup_cons in Hnodup as [Hk Hnodup].
    apply not_elem_of_cons in Hplain as [Hne Hplain].
    cbn [mergeEntries]. rewrite get_key by done.
    destruct (mergedValue rec (default VUndefined (ownProperty (own result) k))
                objValue) as [v|] eqn:Hv; [|done].
    cbn [mbind option_bind]. intros Hrest.
    destruct (set_key result k v) as (Hp & Hlookup & _); [done|].
    destruct (IH (set result k v) Hnodup Hplain) with (2 := Hrest)
      as [Hproto' Hkeys]; [congruence|].
    split; [done|]. intros key. specialize (Hkeys key). cbn [ownProperty].
    destruct (decide (k = key)) as [->|Hkey].
    + apply ownProperty_None in Hk. rewrite Hk in Hkeys.
      exists v. split; [done|]. by rewrite Hkeys, Hlookup, decide_True.
    + rewrite Hlookup, decide_False in Hkeys by done. exact Hkeys.
Qed.

(** The key-by-key law of the merge, for mappings that have no own key
    [__proto__]. *)
Lemma deepMerge_keys (target source : record) :
  plain target → plain source →
  ∃ merged,
    deepMerge (Some target) (Some source) = Some merged ∧
    proto merged = VObjectPrototype ∧
    ∀ key,
      match ownProperty (own target) key, ownProperty (own source) key with
      | None, None => ownProperty (own merged) key = None
      | Some targetValue, None => ownProperty (own merged) key = Some targetValue
      | None, Some sourceValue => ownProperty (own merged) key = Some sourceValue
      | Some targetValue, Some sourceValue =>
          match asRecord targetValue, asRecord sourceValue with
          | Some t, Some s =>
              ∃ sub, deepMerge (Some t) (Some s) = Some sub ∧
                     ownProperty (own merged) key = Some (toValue sub)
          | _, _ => ownProperty (own merged) key = Some sourceValue
          end
      end.
Proof.
  intros [Ht1 Ht2] [Hs1 Hs2].
  destruct (deepMerge_is_Some (Some target) (Some source)) as [merged Hm].
  exists merged. split; [done|]. rewrite deepMerge_eq in Hm.
  cbn [mergeIntoResult] in Hm.
  destruct (mergeEntries deepMerge emptyObject (own target)) as [r1|] eqn:H1;
    [|done].
  cbn [mbind option_bind] in Hm.
  destruct (mergeEntries_plain deepMerge (own target) emptyObject r1
              Ht1 Ht2 eq_refl H1) as [Hp1 Hk1].
  destruct (mergeEntries_plain _ _ _ _ Hs1 Hs2 Hp1 Hm) as [Hp2 Hk2].
  split; [done|]. intros key. specialize (Hk1 key). specialize (Hk2 key).
  cbn [own emptyObject ownProperty from_option id] in Hk1.
  destruct (ownProperty (own target) key) as [tv|].
  - destruct Hk1 as (v & [= <-] & Hr1). rewrite Hr1 in Hk2. cbn [from_option id] in Hk2.
    destruct (ownProperty (own source) key) as [sv|]; [|done].
    destruct Hk2 as (v & Hv & ->). unfold mergedValue in Hv.
    destruct (isObject tv && isObject sv) eqn:Hboth.
    + apply andb_true_iff in Hboth as [[t Ht]%isObject_asRecord
                                        [s Hs]%isObject_asRecord].
      rewrite Ht, Hs in Hv |- *.
      destruct (deepMerge (Some t) (Some s)) as [sub|]; [|done].
      injection Hv as <-. by exists sub.
    + injection Hv as <-. apply andb_false_iff in Hboth.
      destruct (asRecord tv) eqn:Ht, (asRecord sv) eqn:Hs; try done.
      destruct Hboth as [Hf|Hf];
        apply not_true_iff_false in Hf; destruct Hf; apply isObject_asRecord;
        by eexists.
  - rewrite Hk1 in Hk2. cbn [from_option id] in Hk2.
    destruct (ownProperty (own source) key) as [sv|]; [|done].
    by destruct Hk2 as (v & [= <-] & ->).
Qed.

Lemma NoDup_set (result : record) key v :
  NoDup (own result).*1 → NoDup (own (set result key v)).*1.
Proof.
  intros Hown. unfold set.
  destruct (ownProperty (own result) key) eqn:Hkey; cbn [own].
  - by rewrite keys_writeOwn.
  - destruct (bool_decide (key = "__proto__") && setterVisible (proto result)).
    + by destruct (isPrototype v).
    + cbn [own]. rewrite keys_defineOwn. apply NoDup_cons.
      split; [|done]. by apply ownProperty_None.
Qed.

Lemma NoDup_mergeEntries rec (entries : props) (result result' : record) :
  NoDup (own result).*1 → mergeEntries rec result entries = Some result' →
  NoDup (own result').*1.
Proof.
  revert result. induction entries as [|[k objValue] rest IH]; intros result Hown.
  - by intros [= <-].
  - cbn [mergeEntries].
    destruct (mergedValue rec (get result k) objValue) as [v|]; [|done].
    cbn [mbind option_bind]. apply IH. by apply NoDup_set.
Qed.

Lemma ownProperty_Some_elem_of (own : props) key v :
  NoDup own.*1 → (key, v) ∈ own → ownProperty own key = Some v.
Proof.
  induction own as [|[k x] rest IH]; intros Hown Hin; [by apply elem_of_nil in Hin|].
  rewrite fmap_cons in Hown. apply NoDup_cons in Hown as [Hk Hrest].
  cbn [ownProperty]. apply elem_of_cons in Hin as [[= <- <-]|Hin].
  - by rewrite decide_True.
  - rewrite decide_False; [by apply IH|].
    intros ->. apply Hk. apply list_elem_of_fmap. by exists (key, v).
Qed.

Lemma ownProperty_is_Some (own : props) key :
  is_Some (ownProperty own key) ↔ key ∈ own.*1.
Proof.
  rewrite <-not_eq_None_Some, ownProperty_None.
  split; [apply dec_stable|tauto].
Qed.

(** The first pass: keys that the object does not have yet are defined one
    after the other, and no recursive call is made. *)
Lemma mergeEntries_fresh rec (entries : props) (result : record) :
  NoDup ((own result).*1 ++ entries.*1) → "__proto__" ∉ entries.*1 →
  proto result = VObjectPrototype →
  mergeEntries rec result entries =
  Some {| own := foldl (λ acc entry, defineOwn acc entry.1 entry.2)
                   (own result) entries;
          proto := VObjectPrototype |}.
Proof.
  revert result. induction entries as [|[k objValue] rest IH];
    intros result Hnodup Hplain Hproto.
  - cbn [mergeEntries foldl]. destruct result. simpl in *. by subst.
  - rewrite fmap_cons in Hnodup, Hplain. cbn [fst] in *.
    apply not_elem_of_cons in Hplain as [Hne Hplain].
    assert (ownProperty (own result) k = None) as Hk.
    { apply ownProperty_None. apply NoDup_app in Hnodup as (_ & Hdisj & _).
      intros Hin. apply (Hdisj _ Hin). left. }
    cbn [mergeEntries]. rewrite get_key, Hk by done. cbn [from_option id].
    change (mergedValue rec VUndefined objValue) with (Some objValue).
    cbn [mbind option_bind foldl fst snd].
    assert (set result k objValue =
            {| own := defineOwn (own result) k objValue; proto := proto result |})
      as ->.
    { unfold set. rewrite Hk. by rewrite bool_decide_false by done. }
    rewrite IH; [done| |done|done]. cbn [own].
    rewrite keys_defineOwn.
    by rewrite <-Permutation_middle in Hnodup.
Qed.

(** The second pass of an object merged with itself. *)
Lemma mergeEntries_same rec (entries : props) (result : record) :
  NoDup (own result).*1 → proto result = VObjectPrototype →
  "__proto__" ∉ entries.*1 →
  Forall (λ entry, entry ∈ own result ∧
                   mergedValue rec entry.2 entry.2 = Some entry.2) entries →
  mergeEntries rec result entries = Some result.
Proof.
  intros Hown Hproto.
  induction entries as [|[k v] rest IH]; intros Hplain Hall; [done|].
  rewrite fmap_cons in Hplain. apply not_elem_of_cons in Hplain as [Hne Hplain].
  apply Forall_cons in Hall as [[Hin Hv] Hall]. cbn [fst snd] in *.
  cbn [mergeEntries].
  rewrite get_key, (ownProperty_Some_elem_of _ _ _ Hown Hin) by done.
  cbn [from_option id]. rewrite Hv. cbn [mbind option_bind].
  assert (set result k v = result) as ->; [|by apply IH].
  unfold set. rewrite (ownProperty_Some_elem_of _ _ _ Hown Hin).
  rewrite writeOwn_same by done. by destruct result.
Qed.

Lemma settled_entries (own : props) :
  foldr (λ entry rest, settled entry.2 ∧ rest) True own ↔
  Forall (λ entry, settled entry.2) own.
Proof.
  induction own as [|e own IH]; [split; [constructor|done]|].
  rewrite Forall_cons. simpl. by rewrite IH.
Qed.

Lemma deepMerge_settled (n : nat) (A : record) :
  depth (toValue A) ≤ n → settled (toValue A) → deepMerge (Some A) (Some A) = Some A.
Proof.
  revert A. induction n as [|n IH]; intros [o p] Hdepth Hsettled.
  { simpl in Hdepth. lia. }
  unfold toValue in Hdepth, Hsettled. cbn [own proto settled] in Hdepth, Hsettled.
  destruct Hsettled as (-> & Hnodup & Hplain & Hlisted & Hentries).
  apply settled_entries in Hentries. apply depth_VObject in Hdepth as [Hd _].
  cbn [own] in Hd.
  rewrite deepMerge_eq. cbn [mergeIntoResult own].
  rewrite mergeEntries_fresh; [|done..]. cbn [mbind option_bind emptyObject own].
  rewrite Hlisted. apply mergeEntries_same; [done..|].
  apply Forall_forall. intros [k v] Hin. split; [done|]. cbn [snd].
  apply (proj1 (Forall_forall _ _) Hentries) in Hin as Hv.
  apply (proj1 (Forall_forall _ _) Hd) in Hin as Hdv. cbn [snd] in *.
  unfold mergedValue. destruct (isObject v) eqn:Hobj; [|done]. cbn [andb].
  apply isObject_asRecord in Hobj as [t Ht].
  destruct v as [| | | | | |o' p'|]; try done.
  cbn [asRecord]. rewrite (IH (mkRecord o' p')); [|done..].
  by destruct Hv as (-> & _).
Qed.

(** An object whose keys are pairwise distinct, listed in the order of
    [Object.keys] and other than [__proto__] comes back with its own
    properties as they are when the other argument is empty or absent: the
    first pass that reaches it finds every key new and stores the value it
    reads. *)
Lemma deepMerge_identity (A : record) :
  plain A → listed (own A) →
  deepMerge (Some A) (Some (object [])) = Some (object (own A)) ∧
  deepMerge (Some A) None = Some (object (own A)) ∧
  deepMerge None (Some A) = Some (object (own A)) ∧
  deepMerge (Some (object [])) (Some A) = Some (object (own A)).
Proof.
  intros [Hnodup Hplain] Hlisted.
  assert (mergeEntries deepMerge emptyObject (own A) = Some (object (own A)))
    as Hpass.
  { rewrite mergeEntries_fresh by done. cbn [emptyObject own].
    by rewrite Hlisted. }
  rewrite !deepMerge_eq. cbn [mergeIntoResult own object].
  rewrite Hpass. by cbn [mbind option_bind mergeEntries].
Qed.

(** *** The own key [__proto__]

    [JSON.parse] gives an object an own property for the key [__proto__] of
    a settings text.  [Object.keys] lists it, and the merge then reads
    [result['__proto__']], which is [Object.prototype], and assigns to
    [result['__proto__']], which calls the setter that [result] inherits. *)

(** C5. The key-by-key law of the merge does not hold at an own key
    [__proto__].  A scalar under it, present in [target] only, is dropped,
    while the other keys follow the law: objects are merged key by key, an
    array is replaced by what [source] holds, a key of one argument passes.
    An object under it, present in [source] only, becomes the prototype of
    the result and no own key.  Where both arguments hold a scalar under it,
    the result holds neither.  Once the key has given the result a
    prototype, the keys that follow are read through it: a key present in
    [target] only is then merged with what the prototype holds under it. *)
Theorem own_proto_key_is_not_merged :
  deepMerge
    (Some (object [("__proto__", VNumber 5);
                   ("ui", VPlain [("footer", VBool true); ("width", VNumber 80)]);
                   ("tools", VArray [VString "ls"; VString "cat"]);
                   ("b", VNumber 1)]))
    (Some (object [("ui", VPlain [("width", VNumber 120)]);
                   ("tools", VArray [VString "grep"]);
                   ("c", VNumber 2)]))
    = Some (object [("ui", VPlain [("footer", VBool true); ("width", VNumber 120)]);
                    ("tools", VArray [VString "grep"]);
                    ("b", VNumber 1);
                    ("c", VNumber 2)]) ∧
  deepMerge (Some (object [("a", VNumber 1)]))
            (Some (object [("__proto__", VPlain [("x", VNumber 1)])]))
    = Some {| own := [("a", VNumber 1)]; proto := VPlain [("x", VNumber 1)] |} ∧
  deepMerge (Some (object [("__proto__", VNumber 1)]))
            (Some (object [("__proto__", VNumber 2)]))
    = Some (object []) ∧
  deepMerge
    (Some (object [("__proto__", VPlain [("a", VPlain [("x", VNumber 1)])]);
                   ("a", VPlain [("y", VNumber 2)])]))
    (Some (object []))
    = Some {| own := [("a", VPlain [("x", VNumber 1); ("y", VNumber 2)])];
              proto := VPlain [("a", VPlain [("x", VNumber 1)])] |}.
Proof. by vm_compute. Qed.

(** C6. Merging with the empty mapping does not give back a mapping that has
    an own key [__proto__]: the key is missing from the result. *)
Theorem empty_source_drops_own_proto_key :
  let A := object [("__proto__", VNumber 5); ("b", VPlain [("x", VNumber 1)])] in
  deepMerge (Some A) (Some (object [])) = Some (object [("b", VPlain [("x", VNumber 1)])]) ∧
  deepMerge (Some A) (Some (object [])) ≠ Some A ∧
  ownProperty (own A) "__proto__" = Some (VNumber 5).
Proof. by vm_compute. Qed.

(** C10. [deepMerge] returns for every combination of present and absent
    arguments, and two absent arguments give the empty mapping; but a
    mapping that has an own key [__proto__] does not come back when the
    other argument is absent: the key is missing from the result. *)
Theorem absent_argument_drops_own_proto_key :
  let B := object [("__proto__", VNumber 5); ("b", VNumber 1)] in
  (∀ target source : option record, is_Some (deepMerge target source)) ∧
  deepMerge None None = Some (object []) ∧
  deepMerge None (Some B) = Some (object [("b", VNumber 1)]) ∧
  deepMerge (Some B) None = Some (object [("b", VNumber 1)]) ∧
  Some (object [("b", VNumber 1)]) ≠ Some B.
Proof. split; [apply deepMerge_is_Some|by vm_compute]. Qed.

(** *** Concrete merges *)

(** The override law on a concrete pair: the scalar and the array of
    [source] win, nested objects are merged key by key. *)
Example deepMerge_override :
  deepMerge
    (Some (object [("theme", VString "dark");
                   ("tools", VArray [VString "ls"; VString "cat"]);
                   ("ui", VPlain [("footer", VBool true); ("width", VNumber 80)])]))
    (Some (object [("theme", VString "light");
                   ("tools", VArray [VString "grep"]);
                   ("ui", VPlain [("width", VNumber 120)])]))
  = Some (object [("theme", VString "light");
                  ("tools", VArray [VString "grep"]);
                  ("ui", VPlain [("footer", VBool true); ("width", VNumber 120)])]).
Proof. by vm_compute. Qed.

(** An array or [null] on either side is replaced by what [source] holds,
    and an object of [source] replaces a scalar. *)
Example deepMerge_mixed :
  deepMerge
    (Some (object [("a", VArray [VNumber 1]); ("b", VPlain [("x", VNumber 1)]);
                   ("c", VNull); ("d", VNumber 0)]))
    (Some (object [("a", VPlain [("y", VNumber 2)]); ("b", VArray [VNumber 3]);
                   ("c", VPlain []); ("d", VPlain [("z", VNull)])]))
  = Some (object [("a", VPlain [("y", VNumber 2)]); ("b", VArray [VNumber 3]);
                  ("c", VPlain []); ("d", VPlain [("z", VNull)])]).
Proof. by vm_compute. Qed.

(** The result lists its keys as [Object.keys] does: array indices first and
    in ascending order, then the other keys in the order in which they were
    created; [01] is no array index. *)
Example deepMerge_key_order :
  deepMerge (Some (object [("10", VNull); ("b", VNull)]))
            (Some (object [("9", VNull); ("a", VNull); ("01", VNull)]))
  = Some (object [("9", VNull); ("10", VNull); ("b", VNull); ("a", VNull);
                  ("01", VNull)]).
Proof. by vm_compute. Qed.

(** An array under an own key [__proto__] becomes the prototype as well:
    its elements are then read under their indices and its length under
    [length], and an assignment makes an own property of the result. *)
Example deepMerge_array_prototype :
  deepMerge
    (Some (object [("__proto__", VArray [VPlain [("x", VNumber 1)]])]))
    (Some (object [("0", VPlain [("y", VNumber 2)]); ("length", VNumber 5)]))
  = Some {| own := [("0", VPlain [("x", VNumber 1); ("y", VNumber 2)]);
                    ("length", VNumber 5)];
            proto := VArray [VPlain [("x", VNumber 1)]] |}.
Proof. by vm_compute. Qed.

(** [null] under an own key [__proto__] takes the prototype away, and with
    it the accessor: a second key [__proto__] is then an own property like
    any other. *)
Example deepMerge_null_prototype :
  deepMerge
    (Some (object [("__proto__", VNull)]))
    (Some (object [("__proto__", VPlain [("x", VNumber 1)]); ("a", VNumber 1)]))
  = Some {| own := [("__proto__", VPlain [("x", VNumber 1)]); ("a", VNumber 1)];
            proto := VNull |}.
Proof. by vm_compute. Qed.

End MergeSpec.

(** ** Properties of the insertion-ordered map *)

Module JsMapSpec.
Import JsMap.

Section facts.
Context {V : Type}.
Implicit Types (m : t V) (key : string) (v : V).

Lemma has_true m key : has m key = true ↔ key ∈ m.*1.
Proof. unfold has. by rewrite bool_decide_eq_true. Qed.

Lemma has_false m key : has m key = false ↔ key ∉ m.*1.
Proof. unfold has. by rewrite bool_decide_eq_false. Qed.

Lemma has_cons m k v key :
  has ((k, v) :: m) key = bool_decide (k = key) || has m key.
Proof.
  unfold has. rewrite fmap_cons. simpl.
  apply eq_true_iff_eq.
  rewrite orb_true_iff, !bool_decide_eq_true, elem_of_cons. naive_solver.
Qed.

(** [set] keeps the keys in place and appends a new one at the end. *)
Lemma keys_set m key v :
  (set m key v).*1 = if has m key then m.*1 else m.*1 ++ [key].
Proof.
  induction m as [|[k old] rest IH]; [done|].
  rewrite has_cons. cbn [set].
  destruct (decide (k = key)) as [->|Hne].
  - by rewrite bool_decide_true.
  - rewrite bool_decide_false by done. rewrite !fmap_cons, IH. simpl.
    by destruct (has rest key).
Qed.

Lemma NoDup_keys_set m key v : NoDup m.*1 → NoDup (set m key v).*1.
Proof.
  intros Hm. rewrite keys_set. destruct (has m key) eqn:Hkey; [done|].
  apply NoDup_app. split; [done|]. split; [|apply NoDup_singleton].
  intros x Hx ->%list_elem_of_singleton. by apply has_false in Hkey.
Qed.

Lemma length_set m key v :
  length (set m key v) = if has m key then length m else S (length m).
Proof.
  rewrite <-(length_fmap fst (set m key v)), keys_set.
  destruct (has m key); rewrite ?length_app, !length_fmap; simpl; lia.
Qed.

(** With distinct keys, the entries after [set] are the entry written and
    the entries of the other keys. *)
Lemma elem_of_set m key v k x :
  NoDup m.*1 →
  (k, x) ∈ set m key v ↔ (k = key ∧ x = v) ∨ (k ≠ key ∧ (k, x) ∈ m).
Proof.
  induction m as [|[k' old] rest IH]; intros Hm.
  - cbn [set]. rewrite list_elem_of_singleton, elem_of_nil. naive_solver.
  - rewrite fmap_cons in Hm. apply NoDup_cons in Hm as [Hk' Hrest]. cbn [set].
    destruct (decide (k' = key)) as [->|Hne].
    + rewrite !elem_of_cons.
      assert ((k, x) ∈ rest → k ≠ key).
      { intros Hin ->. apply Hk'. apply list_elem_of_fmap. by exists (key, x). }
      naive_solver.
    + rewrite !elem_of_cons, IH by done. naive_solver.
Qed.

Lemma get_Some_elem_of m key v : get m key = Some v → (key, v) ∈ m.
Proof.
  induction m as [|[k x] rest IH]; [done|]. cbn [get].
  destruct (decide (k = key)) as [->|?].
  - intros [= ->]. left.
  - intros ?. right. auto.
Qed.

End facts.
End JsMapSpec.

(** ** Properties of the conflict resolution *)

Module AggregatorSpec.
Import Commands Aggregator JsMapSpec.

(** *** The candidate names are pairwise distinct *)

Lemma append_empty_r (s : string) : s +:+ "" = s.
Proof.
  induction s as [|c s IH]; [done|].
  change (String c (s +:+ "") = String c s). by rewrite IH.
Qed.

Lemma pretty_N_go_nonempty (x : N) (s : string) :
  s ≠ "" → pretty_N_go x s ≠ "".
Proof.
  revert s. induction (N.lt_wf_0 x) as [x _ IH]. intros s Hs.
  destruct (decide (x = 0)%N) as [->|Hx]; [done|].
  rewrite pretty_N_go_step by lia.
  apply IH; [apply N.div_lt; lia|done].
Qed.

Lemma pretty_N_nonempty (x : N) : pretty x ≠ "".
Proof.
  unfold pretty, pretty_N. case_decide; [done|].
  rewrite pretty_N_go_step by lia. by apply pretty_N_go_nonempty.
Qed.

Lemma candidate_inj extension cmdName : Inj (=) (=) (candidate extension cmdName).
Proof.
  intros i j. unfold candidate. repeat case_decide; subst; try done.
  - rewrite <-(append_empty_r (qualified extension cmdName)) at 1.
    intros Heq%(inj (String.append _)). by destruct (pretty_N_nonempty j).
  - rewrite <-(append_empty_r (qualified extension cmdName)) at 2.
    intros Heq%(inj (String.append _)). by destruct (pretty_N_nonempty i).
  - intros Heq%(inj (String.append _)). by apply (inj pretty).
Qed.

Lemma candidate_succ extension cmdName (i : N) :
  candidate extension cmdName (i + 1) =
  qualified extension cmdName +:+ pretty (i + 1)%N.
Proof. unfold candidate. case_decide; [lia|done]. Qed.

(** *** The renaming loop *)

Section loop.
Context {V : Type} (commandMap : JsMap.t V) (extension cmdName : string).

#[local] Abbreviation cand := (candidate extension cmdName).
#[local] Abbreviation loop fuel i :=
  (renameLoop fuel commandMap extension cmdName (cand i) (i + 1)).

(** The loop entered with the [i]-th candidate returns the first candidate
    from there on that is not a key. *)
Lemma renameLoop_Some (fuel : nat) (i : N) finalName :
  loop fuel i = Some finalName →
  ∃ j : N, (i ≤ j)%N ∧ finalName = cand j ∧
    JsMap.has commandMap finalName = false ∧
    ∀ k : N, (i ≤ k < j)%N → JsMap.has commandMap (cand k) = true.
Proof.
  revert i. induction fuel as [|fuel IH]; intros i; cbn [renameLoop];
    destruct (JsMap.has commandMap (cand i)) eqn:Hi; try done.
  - intros [= <-]. exists i. repeat split; [lia|done|intros; lia].
  - rewrite <-candidate_succ. intros (j & ? & -> & ? & Hk)%IH.
    exists j. repeat split; [lia|done|].
    intros k ?. destruct (decide (k = i)) as [->|?]; [done|]. apply Hk. lia.
  - intros [= <-]. exists i. repeat split; [lia|done|intros; lia].
Qed.

(** It runs out of fuel only if all the candidates it tried are keys. *)
Lemma renameLoop_None (fuel : nat) (i : N) :
  loop fuel i = None →
  ∀ k : N, (i ≤ k ≤ i + N.of_nat fuel)%N → JsMap.has commandMap (cand k) = true.
Proof.
  revert i. induction fuel as [|fuel IH]; intros i; cbn [renameLoop];
    destruct (JsMap.has commandMap (cand i)) eqn:Hi; try done.
  - intros _ k ?. by replace k with i by lia.
  - rewrite <-candidate_succ. intros Hnone k ?.
    destruct (decide (k = i)) as [->|?]; [done|]. apply (IH _ Hnone). lia.
Qed.

(** A map cannot hold more candidates than it has keys. *)
Lemma renameLoop_is_Some :
  is_Some (loop (length commandMap) 0%N).
Proof.
  destruct (loop (length commandMap) 0%N) eqn:Hloop; [by eexists|].
  exfalso. pose proof (renameLoop_None _ _ Hloop) as Htaken.
  set (tried := (λ k : nat, cand (N.of_nat k)) <$> seq 0 (S (length commandMap))).
  assert (NoDup tried) as Hnodup.
  { apply NoDup_fmap_2; [|apply NoDup_seq].
    intros a b H%candidate_inj. lia. }
  assert (tried ⊆+ commandMap.*1) as Hsub.
  { apply NoDup_submseteq; [done|]. intros x (k & -> & Hk)%list_elem_of_fmap.
    apply elem_of_seq in Hk. apply has_true, Htaken. lia. }
  apply submseteq_length in Hsub. unfold tried in Hsub.
  rewrite !length_fmap, length_seq in Hsub. lia.
Qed.

End loop.

(** *** The name under which a command is stored *)

Lemma finalNameOf_renamedTo {V} (commandMap : JsMap.t V) cmdName extension :
  ∃ finalName,
    finalNameOf commandMap cmdName extension = Some finalName ∧
    renamedTo commandMap cmdName extension finalName.
Proof.
  unfold finalNameOf, renamedTo.
  destruct (truthyString extension && JsMap.has commandMap cmdName); [|eauto].
  destruct (renameLoop_is_Some commandMap (default "" extension) cmdName)
    as [finalName Hloop].
  exists finalName. split; [done|].
  apply renameLoop_Some in Hloop as (i & _ & -> & ? & Htaken).
  exists i. repeat split; [done|]. intros j ?. apply Htaken. lia.
Qed.

Lemma renamedTo_functional {V} (commandMap : JsMap.t V) cmdName extension n1 n2 :
  renamedTo commandMap cmdName extension n1 →
  renamedTo commandMap cmdName extension n2 → n1 = n2.
Proof.
  unfold renamedTo.
  destruct (truthyString extension && JsMap.has commandMap cmdName); [|congruence].
  intros (i & -> & Hi & Hlti) (j & -> & Hj & Hltj). f_equal.
  destruct (N.lt_trichotomy i j) as [?|[?|?]]; [|done|].
  - rewrite Hltj in Hi; done.
  - rewrite Hlti in Hj; done.
Qed.

(** *** The loop over [allCommands] *)

Lemma keyed_nil : keyed [].
Proof. split; [constructor|]. intros ?? ?%elem_of_nil. done. Qed.

Lemma place_Some commandMap cmd :
  ∃ finalName,
    renamedTo commandMap (name cmd) (extensionName cmd) finalName ∧
    place commandMap cmd =
      Some (JsMap.set commandMap finalName (withName cmd finalName)).
Proof.
  destruct (finalNameOf_renamedTo commandMap (name cmd) (extensionName cmd))
    as (finalName & Hfinal & ?).
  exists finalName. split; [done|]. unfold place. by rewrite Hfinal.
Qed.

Lemma place_keyed commandMap cmd commandMap' :
  keyed commandMap → place commandMap cmd = Some commandMap' → keyed commandMap'.
Proof.
  intros [Hnodup Hname] Hplace.
  destruct (place_Some commandMap cmd) as (finalName & _ & Heq).
  rewrite Heq in Hplace. injection Hplace as <-. split.
  - by apply NoDup_keys_set.
  - intros key c [[-> ->]|[_ ?]]%elem_of_set; [done|eauto|done].
Qed.

Lemma placeAll_is_Some commandMap allCommands :
  is_Some (placeAll commandMap allCommands).
Proof.
  revert commandMap. induction allCommands as [|cmd rest IH]; intros commandMap.
  - by eexists.
  - cbn [placeAll]. destruct (place_Some commandMap cmd) as (? & _ & ->). apply IH.
Qed.

Lemma placeAll_keyed commandMap allCommands commandMap' :
  keyed commandMap → placeAll commandMap allCommands = Some commandMap' →
  keyed commandMap'.
Proof.
  revert commandMap. induction allCommands as [|cmd rest IH]; intros commandMap Hk.
  - by intros [= <-].
  - cbn [placeAll]. destruct (place commandMap cmd) as [m|] eqn:Hplace; [|done].
    apply IH. by eapply place_keyed.
Qed.

Lemma placeAll_app commandMap before after :
  placeAll commandMap (before ++ after) =
  placeAll commandMap before ≫= λ m, placeAll m after.
Proof.
  revert commandMap. induction before as [|cmd rest IH]; intros commandMap; [done|].
  cbn [placeAll app]. destruct (place commandMap cmd); [apply IH|done].
Qed.

Lemma resolveConflicts_is_Some allCommands : is_Some (resolveConflicts allCommands).
Proof. apply placeAll_is_Some. Qed.

Lemma resolveConflicts_keyed allCommands commandMap :
  resolveConflicts allCommands = Some commandMap → keyed commandMap.
Proof. apply placeAll_keyed, keyed_nil. Qed.

Lemma names_values commandMap :
  keyed commandMap → name <$> JsMap.values commandMap = commandMap.*1.
Proof.
  intros [_ Hname]. unfold JsMap.values.
  induction commandMap as [|[key cmd] rest IH]; [done|].
  rewrite !fmap_cons. f_equal.
  - apply Hname. left.
  - apply IH. intros k c ?. apply Hname. by right.
Qed.

(** *** The loop over references *)

Lemma has_keys {V W} (m1 : JsMap.t V) (m2 : JsMap.t W) key :
  m1.*1 = m2.*1 → JsMap.has m1 key = JsMap.has m2 key.
Proof. unfold JsMap.has. by intros ->. Qed.

Lemma renameLoop_keys {V W} (m1 : JsMap.t V) (m2 : JsMap.t W)
    fuel extension cmdName renamedName suffix :
  m1.*1 = m2.*1 →
  renameLoop fuel m1 extension cmdName renamedName suffix =
  renameLoop fuel m2 extension cmdName renamedName suffix.
Proof.
  intros Hkeys. revert renamedName suffix.
  induction fuel as [|fuel IH]; intros renamedName suffix; cbn [renameLoop];
    rewrite (has_keys m1 m2) by done; [done|].
  by rewrite IH.
Qed.

Lemma finalNameOf_keys {V W} (m1 : JsMap.t V) (m2 : JsMap.t W) cmdName extension :
  m1.*1 = m2.*1 →
  finalNameOf m1 cmdName extension = finalNameOf m2 cmdName extension.
Proof.
  intros Hkeys. unfold finalNameOf. rewrite (has_keys m1 m2) by done.
  rewrite <-(length_fmap fst m1), Hkeys, length_fmap.
  by rewrite (renameLoop_keys m1 m2).
Qed.

Lemma stores_keys h commandMap objects :
  stores h commandMap objects → commandMap.*1 = objects.*1.
Proof.
  induction 1 as [|[??] [??] ?? [??]]; [done|].
  rewrite !fmap_cons. simpl in *. by f_equal.
Qed.

Lemma stores_alloc h obj commandMap objects :
  stores h commandMap objects → stores (h ++ [obj]) commandMap objects.
Proof.
  intros Hst. eapply Forall2_impl; [exact Hst|].
  intros [??] [??] [? Hr]. split; [done|]. by apply lookup_app_l_Some.
Qed.

Lemma stores_set h commandMap objects key r obj :
  stores h commandMap objects → h !! r = Some obj →
  stores h (JsMap.set commandMap key r) (JsMap.set objects key obj).
Proof.
  intros Hst Hr. induction Hst as [|[k r'] [k' obj'] ?? [Hk ?] ? IH]; cbn [JsMap.set].
  - by repeat constructor.
  - simpl in Hk. subst k'. destruct (decide (k = key)).
    + by repeat constructor.
    + constructor; [done|apply IH].
Qed.

Lemma placeRef_place h commandMap objects r obj :
  stores h commandMap objects → h !! r = Some obj →
  ∃ finalName,
    place objects obj = Some (JsMap.set objects finalName (withName obj finalName)) ∧
    placeRef h commandMap r =
      Some (h ++ [withName obj finalName],
            JsMap.set commandMap finalName (length h)) ∧
    stores (h ++ [withName obj finalName])
           (JsMap.set commandMap finalName (length h))
           (JsMap.set objects finalName (withName obj finalName)).
Proof.
  intros Hst Hr.
  destruct (finalNameOf_renamedTo objects (name obj) (extensionName obj))
    as (finalName & Hfinal & _).
  exists finalName. split; [|split].
  - unfold place. by rewrite Hfinal.
  - unfold placeRef. rewrite Hr. cbn [mbind option_bind].
    rewrite (finalNameOf_keys commandMap objects) by by eapply stores_keys.
    by rewrite Hfinal.
  - apply stores_set; [by apply stores_alloc|].
    by apply list_lookup_middle.
Qed.

Lemma placeAllRef_placeAll h commandMap objects allCommands cmds :
  stores h commandMap objects →
  Forall2 (λ r obj, h !! r = Some obj) allCommands cmds →
  ∃ h' commandMap' objects',
    placeAll objects cmds = Some objects' ∧
    placeAllRef h commandMap allCommands = Some (h', commandMap') ∧
    stores h' commandMap' objects' ∧
    h `prefix_of` h' ∧
    ∀ key r, (key, r) ∈ commandMap' → (key, r) ∈ commandMap ∨ length h ≤ r.
Proof.
  intros Hst Hall. revert h commandMap objects allCommands Hst Hall.
  induction cmds as [|obj cmds IH]; intros h commandMap objects allCommands Hst Hall.
  - apply Forall2_nil_inv_r in Hall as ->.
    exists h, commandMap, objects. split_and!; [done..|]. intros; by left.
  - apply Forall2_cons_inv_r in Hall as (r & rest & Hr & Hrest & ->).
    destruct (placeRef_place h commandMap objects r obj Hst Hr)
      as (finalName & Hplace & HplaceRef & Hst').
    destruct (IH _ _ _ rest Hst') as (h' & m' & o' & Hall' & HallRef & ? & Hpre & Hnew).
    { eapply Forall2_impl; [exact Hrest|]. intros ???. by apply lookup_app_l_Some. }
    exists h', m', o'. cbn [placeAll placeAllRef].
    rewrite Hplace, HplaceRef. cbn [mbind option_bind].
    split_and!; [done..| |].
    + etrans; [|exact Hpre]. by apply prefix_app_r.
    + intros key r' Hin. destruct (Hnew key r' Hin) as [Hset|Hle].
      * (* an entry that [set] wrote, or one it kept *)
        clear -Hset. induction commandMap as [|[k x] m IHm]; cbn [JsMap.set] in Hset.
        -- apply list_elem_of_singleton in Hset. simplify_eq. by right.
        -- destruct (decide (k = finalName)).
           ++ apply elem_of_cons in Hset as [?|?]; [simplify_eq; by right|].
              left. by right.
           ++ apply elem_of_cons in Hset as [?|?]; [simplify_eq; left; left|].
              destruct IHm as [?|?]; [done|left; by right|by right].
      * right. rewrite length_app in Hle. lia.
Qed.

(** C1. Whatever was processed before, an extension command whose name is
    already a key of the map is stored under the first free name among
    [extensionName.name], [extensionName.name1], [extensionName.name2], ...;
    a command that has no extension name, or whose name is free, is stored
    under its own name.  What is stored under that name is the command with
    its [name] replaced by it and every other field as it was; the key keeps
    its place in the map if it was there and comes last if it was not, and
    the entries of the other keys stay.  The loop always finishes. *)
Theorem extension_command_renamed (before after : list SlashCommand) (cmd : SlashCommand) :
  ∃ commandMap finalName placed stored,
    resolveConflicts before = Some commandMap ∧
    resolveConflicts (before ++ [cmd]) = Some placed ∧
    resolveConflicts (before ++ cmd :: after) = placeAll placed after ∧
    is_Some (resolveConflicts (before ++ cmd :: after)) ∧
    placed = JsMap.set commandMap finalName (withName cmd finalName) ∧
    (if truthyString (extensionName cmd) && JsMap.has commandMap (name cmd)
     then ∃ i : N,
            finalName = candidate (default "" (extensionName cmd)) (name cmd) i ∧
            JsMap.has commandMap finalName = false ∧
            ∀ j : N, (j < i)%N →
              JsMap.has commandMap
                (candidate (default "" (extensionName cmd)) (name cmd) j) = true
     else finalName = name cmd) ∧
    (extensionName cmd = None → finalName = name cmd) ∧
    (∀ ext : string,
       extensionName cmd = Some ext → ext ≠ "" → name cmd ∈ commandMap.*1 →
       ∃ i : N,
         finalName = (if decide (i = 0%N) then ext +:+ "." +:+ name cmd
                      else (ext +:+ "." +:+ name cmd) +:+ pretty i) ∧
         (finalName ∉ commandMap.*1) ∧
         ∀ j : N, (j < i)%N →
           (if decide (j = 0%N) then ext +:+ "." +:+ name cmd
            else (ext +:+ "." +:+ name cmd) +:+ pretty j) ∈ commandMap.*1) ∧
    (extensionName cmd = None ∨ extensionName cmd = Some "" ∨
       name cmd ∉ commandMap.*1 → finalName = name cmd) ∧
    placed.*1 = (if decide (finalName ∈ commandMap.*1) then commandMap.*1
                 else commandMap.*1 ++ [finalName]) ∧
    (∀ key x, (key, x) ∈ placed ↔
       (key = finalName ∧ x = stored) ∨ (key ≠ finalName ∧ (key, x) ∈ commandMap)) ∧
    stored = mkSlashCommand finalName (description cmd) (kind cmd) (altNames cmd)
               (extensionName cmd) (action cmd) (subCommands cmd)
               (Commands.commandMap cmd).
Proof.
  destruct (resolveConflicts_is_Some before) as [commandMap Hbefore].
  destruct (place_Some commandMap cmd) as (finalName & Hren & Hplace).
  pose proof (resolveConflicts_keyed _ _ Hbefore) as [Hnodup _].
  exists commandMap, finalName,
    (JsMap.set commandMap finalName (withName cmd finalName)),
    (withName cmd finalName).
  split_and!; [done| | |apply resolveConflicts_is_Some|done|exact Hren|..|done].
  - unfold resolveConflicts in *. rewrite placeAll_app, Hbefore.
    cbn [mbind option_bind placeAll]. by rewrite Hplace.
  - unfold resolveConflicts in *. rewrite placeAll_app, Hbefore.
    cbn [mbind option_bind placeAll]. by rewrite Hplace.
  - intros Hext. unfold renamedTo in Hren. by rewrite Hext in Hren.
  - intros ext Hext Hne Hin. unfold renamedTo in Hren. rewrite Hext in Hren.
    cbn [truthyString from_option id] in Hren.
    apply String.eqb_neq in Hne. rewrite Hne in Hren.
    apply JsMapSpec.has_true in Hin. rewrite Hin in Hren. cbn [negb andb] in Hren.
    destruct Hren as (i & Hi & Hfree & Htaken). exists i.
    split; [exact Hi|]. split; [by apply JsMapSpec.has_false|].
    intros j Hj. apply JsMapSpec.has_true. by apply Htaken.
  - intros Hcase. unfold renamedTo in Hren.
    destruct Hcase as [Hext|[Hext|Hfree]]; [by rewrite Hext in Hren..|].
    apply JsMapSpec.has_false in Hfree. by rewrite Hfree, andb_false_r in Hren.
  - rewrite JsMapSpec.keys_set. unfold JsMap.has.
    destruct (decide (finalName ∈ commandMap.*1));
      [by rewrite bool_decide_true|by rewrite bool_decide_false].
  - intros key x. by apply JsMapSpec.elem_of_set.
Qed.

(** The loop over references computes what the loop over values computes:
    read through the final store, its map is the map of the pure model. *)
Lemma resolveConflictsRef_refines (h : heap) (allCommands : list ref)
    (cmds : list SlashCommand) :
  Forall2 (λ r obj, h !! r = Some obj) allCommands cmds →
  ∃ h' commandMap objects,
    resolveConflictsRef h allCommands = Some (h', commandMap) ∧
    resolveConflicts cmds = Some objects ∧
    stores h' commandMap objects.
Proof.
  intros Hall.
  destruct (placeAllRef_placeAll h [] [] allCommands cmds)
    as (h' & commandMap & objects & ? & ? & ? & _); [constructor|done|].
  by exists h', commandMap, objects.
Qed.

(** The collision of the spec: the built-in [help] stays, the [help] of the
    extension [myext] becomes [myext.help], and [myext.help1] when that name
    is taken as well. *)
Example help_of_extension_renamed :
  let help := mkSlashCommand "help" "Show help" BUILT_IN None None None None None in
  let ext := mkSlashCommand "help" "Extension help" EXTENSION None (Some "myext")
               None None None in
  resolveConflicts [help; ext] =
    Some [("help", help); ("myext.help", withName ext "myext.help")] ∧
  resolveConflicts [help; ext; ext] =
    Some [("help", help); ("myext.help", withName ext "myext.help");
          ("myext.help1", withName ext "myext.help1")].
Proof. split; reflexivity. Qed.

(** C9. Over a store of command objects: every reference the map ends up
    with points to an object whose [name] is its key, that object was
    allocated by the loop, and the objects the loaders supplied are what they
    were. *)
Theorem stored_copy_carries_key (h : heap) (allCommands : list ref) :
  Forall (λ r, is_Some (h !! r)) allCommands →
  ∃ h' commandMap,
    resolveConflictsRef h allCommands = Some (h', commandMap) ∧
    (∀ key r, (key, r) ∈ commandMap →
       ∃ obj, h' !! r = Some obj ∧ name obj = key ∧ length h ≤ r) ∧
    (∀ r obj, h !! r = Some obj → h' !! r = Some obj).
Proof.
  intros Hall.
  assert (∃ cmds, Forall2 (λ r obj, h !! r = Some obj) allCommands cmds)
    as [cmds Hcmds].
  { induction Hall as [|r rest [obj Hr] _ [cmds IH]]; [by exists []|].
    exists (obj :: cmds). by constructor. }
  destruct (placeAllRef_placeAll h [] [] allCommands cmds) as
    (h' & commandMap & objects & Hpure & Href & Hst & Hpre & Hnew);
    [constructor|done|].
  exists h', commandMap. split; [done|]. split.
  - intros key r Hin. destruct (Hnew key r Hin) as [?%elem_of_nil|Hle]; [done|].
    apply list_elem_of_lookup in Hin as [i Hi].
    destruct (Forall2_lookup_l _ _ _ _ _ Hst Hi) as ([key' obj] & Hobj & Hk & Hr).
    simpl in *. subst key'. exists obj. repeat split; [done| |done].
    apply placeAll_keyed in Hpure as [_ Hname]; [|apply keyed_nil].
    apply Hname. by eapply list_elem_of_lookup_2.
  - intros r obj Hr. destruct Hpre as [new ->]. by apply lookup_app_l_Some.
Qed.

Lemma stored_copy_carries_key_witness :
  let help := mkSlashCommand "help" "Show help" BUILT_IN None None None None None in
  let ext := mkSlashCommand "help" "Extension help" EXTENSION None (Some "myext")
               None None None in
  Forall (λ r, is_Some ([help; ext] !! r)) [0; 1] ∧
  ∃ h' commandMap,
    resolveConflictsRef [help; ext] [0; 1] = Some (h', commandMap) ∧
    (∀ key r, (key, r) ∈ commandMap →
       ∃ obj, h' !! r = Some obj ∧ name obj = key ∧ length [help; ext] ≤ r) ∧
    (∀ r obj, [help; ext] !! r = Some obj → h' !! r = Some obj).
Proof.
  intros help ext.
  assert (Forall (λ r, is_Some ([help; ext] !! r)) [0; 1]) as Hrefs.
  { repeat constructor; by eexists. }
  split; [exact Hrefs|].
  exact (stored_copy_carries_key [help; ext] [0; 1] Hrefs).
Defined.

End AggregatorSpec.

(** ** Properties of the registry service *)

Module RegistrySpec.
Import Commands Runtime Aggregator AggregatorSpec Registry.

Lemma collect_eq results :
  collect results =
  (fulfilledCommands results,
   filter (λ reason, isAbortError reason = false) (rejections results)).
Proof.
  induction results as [|[value|reason] rest IH]; [done|..]; cbn [collect].
  - by rewrite IH.
  - rewrite IH. cbn [fulfilledCommands rejections omap list_omap].
    rewrite filter_cons. destruct (isAbortError reason); by case_decide.
Qed.

(** Rejected loaders contribute no commands: the collected commands are
    those of the results that fulfilled. *)
Lemma fulfilledCommands_filter results :
  fulfilledCommands (filter (λ result, isFulfilled result = true) results) =
  fulfilledCommands results.
Proof.
  induction results as [|[value|reason] rest IH]; [done|..];
    rewrite filter_cons; case_decide; try done; cbn [fulfilledCommands];
    by rewrite ?IH.
Qed.

Lemma run_app st trace1 trace2 :
  run st (trace1 ++ trace2) = run (run st trace1) trace2.
Proof. apply foldl_app. Qed.

Lemma run_snoc st trace ev : run st (trace ++ [ev]) = step (run st trace) ev.
Proof. by rewrite run_app. Qed.

(** The continuation of [reloadCommands] always returns. *)
Lemma reloadCommands_settled_is_Some signal results st :
  is_Some (reloadCommands_settled signal results st).
Proof.
  unfold reloadCommands_settled. destruct (isAborted st signal); [by eexists|].
  rewrite collect_eq.
  destruct (resolveConflicts_is_Some (fulfilledCommands results)) as [m ->].
  by eexists.
Qed.

Lemma reloadCommands_settled_aborted signal results st :
  isAborted st signal = true → reloadCommands_settled signal results st = Some st.
Proof. unfold reloadCommands_settled. by intros ->. Qed.

Lemma reloadCommands_settled_published signal results st :
  isAborted st signal = false →
  ∃ commandMap,
    resolveConflicts (fulfilledCommands results) = Some commandMap ∧
    reloadCommands_settled signal results st =
      Some (publish (JsMap.values commandMap)
              (filter (λ reason, isAbortError reason = false) (rejections results))
              st).
Proof.
  intros Hsig. unfold reloadCommands_settled. rewrite Hsig, collect_eq.
  destruct (resolveConflicts_is_Some (fulfilledCommands results)) as [m Hm].
  exists m. by rewrite Hm.
Qed.

(** The two ways the continuation of [reloadCommands] ends. *)
Ltac settled_cases signal results st :=
  let Hsig := fresh "Hsig" in
  let m := fresh "m" in
  let Hm := fresh "Hm" in
  destruct (isAborted st signal) eqn:Hsig;
    [rewrite (reloadCommands_settled_aborted signal results st Hsig)
    |destruct (reloadCommands_settled_published signal results st Hsig)
       as (m & Hm & ->)].

(** An invariant of the service is a property of [initial] that every step
    keeps. *)
Lemma run_invariant (P : State → Prop) :
  P initial → (∀ st ev, P st → P (step st ev)) → ∀ trace, P (run initial trace).
Proof.
  intros Hinit Hstep trace. induction trace as [|ev trace IH] using rev_ind; [done|].
  rewrite run_snoc. by apply Hstep.
Qed.

Lemma step_commands st ev :
  commands (step st ev) = commands st ∨
  ∃ commandMap, keyed commandMap ∧ commands (step st ev) = JsMap.values commandMap.
Proof.
  destruct ev as [[ext|]|signal results|listener|capability|id]; simpl; auto.
  - destruct (currentAbortController st); auto.
  - destruct (isAborted st signal) eqn:Hsig.
    + rewrite reloadCommands_settled_aborted by done. auto.
    + destruct (reloadCommands_settled_published signal results st Hsig)
        as (m & Hm & ->).
      right. exists m. split; [|done]. by eapply resolveConflicts_keyed.
  - unfold unsubscribe. destruct (closures st !! capability); auto.
Qed.

(** C3, as far as it holds.  The continuation of [reloadCommands] always
    returns.  If the signal is aborted by then it changes nothing: no log
    entry, no snapshot.  Otherwise the snapshot is built from the commands of
    the loaders that fulfilled, in loader order, whatever the other loaders
    rejected with; the rejections that are no [AbortError] are logged, in
    loader order, and no other; the listeners are notified. *)
Theorem rejected_loaders_are_skipped (st : State) (signal : Signal)
    (results : list SettledResult) :
  ∃ st',
    reloadCommands_settled signal results st = Some st' ∧
    if isAborted st signal then st' = st
    else
      ∃ commandMap,
        resolveConflicts (fulfilledCommands results) = Some commandMap ∧
        commands st' = JsMap.values commandMap ∧
        fulfilledCommands (filter (λ result, isFulfilled result = true) results) =
          fulfilledCommands results ∧
        logged st st' =
          filter (λ reason, isAbortError reason = false) (rejections results) ∧
        notified st st' = listeners st.
Proof.
  destruct (isAborted st signal) eqn:Hsig.
  - exists st. by rewrite reloadCommands_settled_aborted.
  - destruct (reloadCommands_settled_published signal results st Hsig)
      as (m & Hm & ->).
    eexists. split; [done|]. exists m. split_and!; [done|done|..].
    + apply fulfilledCommands_filter.
    + unfold logged. simpl. by rewrite drop_app_length.
    + unfold notified. simpl. by rewrite drop_app_length.
Qed.

(** C3, counterexample.  A reload that was superseded returns before the
    loop over the results: the [TypeError] of its loader is not logged. *)
Lemma superseded_reload_logs_nothing :
  let typeError := mkReason true "TypeError" "loader failed" in
  ¬ rejectionsLogged (run initial [Reload None; Reload None])
      (OwnSignal 0) [Rejected typeError].
Proof.
  intros typeError Hlogged.
  specialize (Hlogged (run initial [Reload None; Reload None]) typeError).
  assert (typeError ∈ @nil Reason) as ?%elem_of_nil; [|done].
  apply Hlogged; [done| |done]. left.
Qed.

(** *** Superseded reloads *)

Lemma step_retired controller st ev :
  retired controller st → retired controller (step st ev).
Proof.
  intros [Hlt Hc].
  destruct ev as [[ext|]|signal results|listener|capability|id]; simpl.
  - by split.
  - unfold retired, newController, abort.
    destruct (currentAbortController st) as [c|] eqn:Hcur; simpl.
    + split; [lia|]. right. destruct Hc as [[= ->]|?]; [left|by right].
    + split; [lia|]. right. by destruct Hc.
  - destruct (isAborted st signal) eqn:Hsig.
    + by rewrite reloadCommands_settled_aborted.
    + destruct (reloadCommands_settled_published signal results st Hsig)
        as (m & Hm & ->).
      by split.
  - by split.
  - unfold unsubscribe. destruct (closures st !! capability); by split.
  - split; [done|]. destruct Hc; [by left|right; by right].
Qed.

Lemma run_retired controller st trace :
  retired controller st → retired controller (run st trace).
Proof.
  revert st. induction trace as [|ev trace IH]; intros st Hst; [done|].
  apply IH. by apply step_retired.
Qed.

Lemma step_aborted signal st ev :
  isAborted st signal = true → isAborted (step st ev) signal = true.
Proof.
  unfold isAborted. rewrite !bool_decide_eq_true. intros Hsig.
  destruct ev as [[ext|]|signal' results|listener|capability|id]; simpl.
  - done.
  - unfold newController, abort. destruct (currentAbortController st); simpl;
      [by right|done].
  - by settled_cases signal' results st.
  - done.
  - unfold unsubscribe. by destruct (closures st !! capability).
  - by right.
Qed.

Lemma run_aborted signal st trace :
  isAborted st signal = true → isAborted (run st trace) signal = true.
Proof.
  revert st. induction trace as [|ev trace IH]; intros st Hst; [done|].
  apply IH. by apply step_aborted.
Qed.

Lemma begin_signal st :
  (reloadCommands_begin None st).2 = OwnSignal (controllers st).
Proof. simpl. by destruct (currentAbortController st). Qed.

Lemma begin_retired st : retired (controllers st) (reloadCommands_begin None st).1.
Proof.
  unfold retired. simpl. unfold newController, abort.
  destruct (currentAbortController st); simpl; (split; [lia|by left]).
Qed.

Lemma begin_aborts controller st :
  retired controller st →
  isAborted (reloadCommands_begin None st).1 (OwnSignal controller) = true.
Proof.
  intros [_ Hc]. unfold isAborted. apply bool_decide_eq_true.
  simpl. unfold newController, abort.
  destruct (currentAbortController st) as [c|]; simpl.
  - destruct Hc as [[= ->]|?]; [left|by right].
  - by destruct Hc.
Qed.

(** C4. Two calls of [reloadCommands] without external signal, with anything
    in between and after: the second call aborts the signal of the first
    before it hands its own signal to the loaders, and the continuation of
    the first call then returns with the state as it found it, so it neither
    replaces the snapshot nor calls a listener.  A call with an external
    signal leaves the state, and with it the controller of the service and
    the aborted signals, as they were. *)
Theorem superseded_reload_is_dropped (st0 : State) (between later : list Event)
    (results : list SettledResult) :
  let first := reloadCommands_begin None st0 in
  let second := reloadCommands_begin None (run first.1 between) in
  let st := run second.1 later in
  first.2 ≠ second.2 ∧
  isAborted second.1 first.2 = true ∧
  reloadCommands_settled first.2 results st = Some st ∧
  ∀ (external : Signal) (st' : State),
    reloadCommands_begin (Some external) st' = (st', external).
Proof.
  intros first second st.
  pose proof (begin_signal st0) as Hsig1. fold first in Hsig1.
  pose proof (begin_signal (run first.1 between)) as Hsig2. fold second in Hsig2.
  pose proof (run_retired _ _ between (begin_retired st0)) as Hret.
  fold first in Hret.
  pose proof (begin_aborts _ _ Hret) as Haborted. fold second in Haborted.
  rewrite <-Hsig1 in Haborted.
  split_and!.
  - rewrite Hsig1, Hsig2. intros Heq. destruct Hret as [Hlt _].
    assert (controllers st0 = controllers (run first.1 between)) by congruence.
    lia.
  - done.
  - apply reloadCommands_settled_aborted. by apply run_aborted.
  - done.
Qed.

(** *** Subscriptions *)

Lemma count_occ_filter_ne (listener other : Listener) (ls : list Listener) :
  other ≠ listener →
  count_occ Nat.eq_dec (filter (λ l, l ≠ other) ls) listener =
  count_occ Nat.eq_dec ls listener.
Proof.
  intros Hne. induction ls as [|l ls IH]; [done|].
  rewrite filter_cons. case_decide; simpl; destruct (Nat.eq_dec l listener);
    subst; try done; by rewrite IH.
Qed.

Lemma count_occ_filter_eq (listener : Listener) (ls : list Listener) :
  count_occ Nat.eq_dec (filter (λ l, l ≠ listener) ls) listener = 0.
Proof.
  apply count_occ_not_In. rewrite <-list_elem_of_In, list_elem_of_filter.
  naive_solver.
Qed.

Lemma count_occ_NoDup (listener : Listener) (ls : list Listener) :
  NoDup ls → listener ∈ ls → count_occ Nat.eq_dec ls listener = 1.
Proof.
  intros Hnd Hin. apply NoDup_ListNoDup in Hnd.
  rewrite (NoDup_count_occ Nat.eq_dec) in Hnd. specialize (Hnd listener).
  apply list_elem_of_In, (count_occ_In Nat.eq_dec) in Hin. lia.
Qed.

(** The listeners are a [Set]: no listener is held twice. *)
Lemma listeners_NoDup trace : NoDup (listeners (run initial trace)).
Proof.
  apply (run_invariant (λ st, NoDup (listeners st))); [constructor|].
  intros st ev Hst.
  destruct ev as [[ext|]|signal results|listener|capability|id]; simpl; try done.
  - by destruct (currentAbortController st).
  - by settled_cases signal results st.
  - case_bool_decide; [done|]. apply NoDup_app. split_and!; [done| |apply NoDup_singleton].
    by intros x ? ->%list_elem_of_singleton.
  - unfold unsubscribe. destruct (closures st !! capability); [|done].
    by apply NoDup_filter.
Qed.











End RegistrySpec.

(** ** Properties of the manager service

    The same statements for the version of the service whose listeners are
    an array and whose [reloadCommands] releases its controller. *)

Module ManagerSpec.
Import Commands Runtime Aggregator AggregatorSpec Manager.

Lemma collect_all results :
  collect results = (fulfilledCommands results, rejections results).
Proof.
  induction results as [|[value|reason] rest IH]; [done|..]; cbn [collect];
    by rewrite IH.
Qed.

Lemma settled_aborted_releases signal results st :
  isAborted st signal = true →
  reloadCommands_settled signal results st = Some (releaseController signal st).
Proof. unfold reloadCommands_settled. by intros ->. Qed.

Lemma settled_published_releases signal results st :
  isAborted st signal = false →
  ∃ commandMap,
    resolveConflicts (fulfilledCommands results) = Some commandMap ∧
    reloadCommands_settled signal results st =
      Some (releaseController signal
              (publish (JsMap.values commandMap) (rejections results) st)).
Proof.
  intros Hsig. unfold reloadCommands_settled. rewrite Hsig, collect_all.
  destruct (resolveConflicts_is_Some (fulfilledCommands results)) as [m Hm].
  exists m. by rewrite Hm.
Qed.

(** [releaseController] touches the controller field only. *)
Lemma releaseController_fields signal st :
  let st' := releaseController signal st in
  commands st' = commands st ∧ listeners st' = listeners st ∧
  controllers st' = controllers st ∧ aborted st' = aborted st ∧
  debugLog st' = debugLog st ∧ invoked st' = invoked st ∧
  closures st' = closures st ∧
  (currentAbortController st' = currentAbortController st ∨
   currentAbortController st' = None ∧
   OwnSignal <$> currentAbortController st = Some signal).
Proof.
  unfold releaseController. case_bool_decide; simpl; split_and!; auto.
Qed.

(** The continuation of [reloadCommands]: nothing but the release of the
    controller when the signal is aborted; otherwise the snapshot of the
    loaders that fulfilled, every rejection logged, the listeners called. *)
Lemma every_rejection_logged (st : State) (signal : Signal)
    (results : list SettledResult) :
  ∃ st',
    reloadCommands_settled signal results st = Some st' ∧
    if isAborted st signal
    then commands st' = commands st ∧ logged st st' = [] ∧ notified st st' = []
    else
      ∃ commandMap,
        resolveConflicts (fulfilledCommands results) = Some commandMap ∧
        commands st' = JsMap.values commandMap ∧
        logged st st' = rejections results ∧
        notified st st' = listeners st.
Proof.
  destruct (isAborted st signal) eqn:Hsig.
  - eexists. split; [by apply settled_aborted_releases|].
    destruct (releaseController_fields signal st) as (-> & _ & _ & _ & Hl & Hi & _).
    unfold logged, notified. rewrite Hl, Hi, !drop_all. done.
  - destruct (settled_published_releases signal results st Hsig)
      as (m & Hm & ->).
    eexists. split; [done|]. exists m.
    destruct (releaseController_fields signal
                (publish (JsMap.values m) (rejections results) st))
      as (-> & _ & _ & _ & Hl & Hi & _).
    unfold logged, notified. rewrite Hl, Hi. simpl.
    by rewrite !drop_app_length.
Qed.

(** *** Superseded reloads *)

Lemma step_replaced controller st ev :
  controller < controllers st → replaced controller st →
  controller < controllers (step st ev) ∧ replaced controller (step st ev).
Proof.
  intros Hlt [Hcur Hab].
  assert (∀ signal st', controller < controllers st' → replaced controller st' →
    controller < controllers (releaseController signal st') ∧
    replaced controller (releaseController signal st')) as Hrelease.
  { intros signal st' ? [? ?].
    destruct (releaseController_fields signal st')
      as (_ & _ & Hc & Ha & _ & _ & _ & Hcur').
    rewrite Hc. split; [done|]. split; [|by rewrite Ha].
    destruct Hcur' as [->|[-> _]]; done. }
  destruct ev as [|signal results|listener|capability]; simpl.
  - unfold replaced, newController, abort.
    destruct (currentAbortController st); simpl;
      (split; [lia|split; [intros [=]; lia|]]); [by right|done].
  - destruct (isAborted st signal) eqn:Hsig.
    + rewrite settled_aborted_releases by done. simpl. by apply Hrelease.
    + destruct (settled_published_releases signal results st Hsig)
        as (m & Hm & ->).
      simpl. by apply Hrelease.
  - done.
  - unfold unsubscribe. by destruct (closures st !! capability).
Qed.

Lemma run_replaced controller st trace :
  controller < controllers st → replaced controller st →
  replaced controller (run st trace).
Proof.
  revert st. induction trace as [|ev trace IH]; intros st Hlt Hst; [done|].
  destruct (step_replaced controller st ev Hlt Hst). by apply IH.
Qed.

Lemma step_open_retired controller st ev :
  settles (OwnSignal controller) ev = false →
  retired controller st → retired controller (step st ev).
Proof.
  intros Hev [Hlt [Hcur|Hrep]].
  - destruct ev as [|signal results|listener|capability]; simpl.
    + unfold retired, replaced, newController, abort. rewrite Hcur. simpl.
      split; [lia|]. right. split; [intros [=]; lia|left].
    + simpl in Hev. apply bool_decide_eq_false in Hev.
      assert (∀ st', controllers st' = controllers st →
                currentAbortController st' = Some controller →
                retired controller (releaseController signal st')) as Hrelease.
      { intros st' Hc Hcur'. unfold releaseController.
        rewrite Hcur'. simpl. rewrite bool_decide_false by congruence.
        split; [by rewrite Hc|by left]. }
      destruct (isAborted st signal) eqn:Hsig.
      * rewrite settled_aborted_releases by done. simpl. by apply Hrelease.
      * destruct (settled_published_releases signal results st Hsig)
          as (m & Hm & ->).
        simpl. by apply Hrelease.
    + split; [done|by left].
    + unfold unsubscribe. destruct (closures st !! capability); (split; [done|by left]).
  - destruct (step_replaced controller st ev Hlt Hrep). split; [done|by right].
Qed.

Lemma run_open_retired controller st trace :
  forallb (λ ev, negb (settles (OwnSignal controller) ev)) trace = true →
  retired controller st → retired controller (run st trace).
Proof.
  revert st. induction trace as [|ev trace IH]; intros st Hall Hst; [done|].
  cbn [forallb] in Hall. apply andb_true_iff in Hall as [Hev Hall].
  apply negb_true_iff in Hev. apply IH; [done|]. by apply step_open_retired.
Qed.

Lemma begin_own_signal st : (reloadCommands_begin st).2 = OwnSignal (controllers st).
Proof. simpl. by destruct (currentAbortController st). Qed.

Lemma begin_current st : retired (controllers st) (reloadCommands_begin st).1.
Proof.
  unfold retired. simpl. unfold newController, abort.
  destruct (currentAbortController st); simpl; (split; [lia|by left]).
Qed.

Lemma begin_replaces controller st :
  retired controller st →
  controller < controllers (reloadCommands_begin st).1 ∧
  replaced controller (reloadCommands_begin st).1.
Proof.
  intros [Hlt Hret]. unfold replaced. simpl. unfold newController, abort.
  destruct Hret as [Hcur|[Hcur Hab]].
  - rewrite Hcur. simpl. split; [lia|]. split; [intros [=]; lia|left].
  - destruct (currentAbortController st); simpl;
      (split; [lia|split; [intros [=]; lia|]]); [by right|done].
Qed.

(** X23. Two overlapping calls: as long as the first call has not continued,
    the second one aborts its signal, and the continuation of the first then
    leaves the service as it finds it. *)
Lemma open_reload_is_dropped (st0 : State) (between later : list Event)
    (results : list SettledResult) :
  let first := reloadCommands_begin st0 in
  let second := reloadCommands_begin (run first.1 between) in
  let st := run second.1 later in
  forallb (λ ev, negb (settles first.2 ev)) between = true →
  isAborted second.1 first.2 = true ∧
  reloadCommands_settled first.2 results st = Some st.
Proof.
  intros first second st Hopen.
  pose proof (begin_own_signal st0) as Hsig1. fold first in Hsig1.
  rewrite Hsig1 in Hopen |- *.
  pose proof (run_open_retired _ _ between Hopen (begin_current st0)) as Hret.
  fold first in Hret.
  destruct (begin_replaces _ _ Hret) as [Hlt2 Hrep]. fold second in Hlt2, Hrep.
  pose proof (run_replaced _ _ later Hlt2 Hrep) as [Hcur Hab]. fold st in Hcur, Hab.
  split.
  - unfold isAborted. apply bool_decide_eq_true. apply Hrep.
  - rewrite settled_aborted_releases
      by (unfold isAborted; by apply bool_decide_eq_true).
    f_equal. unfold releaseController. rewrite bool_decide_false; [done|].
    destruct (currentAbortController st); simpl; congruence.
Qed.

Lemma open_reload_is_dropped_witness :
  let first := reloadCommands_begin initial in
  let second := reloadCommands_begin (run first.1 [Subscribe 2]) in
  let st := run second.1 [Settled (OwnSignal 1) []] in
  isAborted second.1 first.2 = true ∧
  reloadCommands_settled first.2 [] st = Some st.
Proof.
  apply (open_reload_is_dropped initial [Subscribe 2] [Settled (OwnSignal 1) []] []).
  reflexivity.
Defined.

(** *** Subscriptions *)

(** The continuation of [reloadCommands] leaves the listeners and closures
    alone and calls every listener once, or none. *)
Lemma settled_listeners signal results st :
  let st' := default st (reloadCommands_settled signal results st) in
  listeners st' = listeners st ∧ closures st' = closures st ∧
  (invoked st' = invoked st ∨
   isAborted st signal = false ∧ invoked st' = invoked st ++ listeners st).
Proof.
  destruct (isAborted st signal) eqn:Hsig.
  - rewrite settled_aborted_releases by done. simpl.
    destruct (releaseController_fields signal st) as (_& -> &_&_&_& -> & -> &_).
    auto.
  - destruct (settled_published_releases signal results st Hsig)
      as (m & Hm & ->).
    simpl.
    destruct (releaseController_fields signal
                (publish (JsMap.values m) (rejections results) st))
      as (_& -> &_&_&_& -> & -> &_).
    auto.
Qed.

Lemma step_keeps_closures st ev capability listener :
  closures st !! capability = Some listener →
  closures (step st ev) !! capability = Some listener.
Proof.
  intros Hc.
  destruct ev as [|signal results|l|cap]; simpl.
  - by destruct (currentAbortController st).
  - by destruct (settled_listeners signal results st) as (_ & -> & _).
  - by apply lookup_app_l_Some.
  - unfold unsubscribe. by destruct (closures st !! cap).
Qed.

Lemma run_keeps_closures st trace capability listener :
  closures st !! capability = Some listener →
  closures (run st trace) !! capability = Some listener.
Proof.
  revert st. induction trace as [|ev trace IH]; intros st Hst; [done|].
  apply IH. by apply step_keeps_closures.
Qed.

Lemma step_still_subscribed listener st ev :
  disturbs listener (closures st) ev = false →
  count_occ Nat.eq_dec (listeners st) listener = 1 →
  count_occ Nat.eq_dec (listeners (step st ev)) listener = 1.
Proof.
  intros Hev Hst.
  destruct ev as [|signal results|l|cap]; simpl in *.
  - by destruct (currentAbortController st).
  - by destruct (settled_listeners signal results st) as (-> & _).
  - apply bool_decide_eq_false in Hev.
    rewrite count_occ_app, Hst. simpl. by destruct (Nat.eq_dec l listener).
  - apply bool_decide_eq_false in Hev. unfold unsubscribe.
    destruct (closures st !! cap) as [l|] eqn:Hcap; [|done]. simpl.
    rewrite RegistrySpec.count_occ_filter_ne; [done|congruence].
Qed.

Lemma run_still_subscribed listener st trace :
  undisturbed listener st trace = true →
  count_occ Nat.eq_dec (listeners st) listener = 1 →
  count_occ Nat.eq_dec (listeners (run st trace)) listener = 1.
Proof.
  revert st. induction trace as [|ev trace IH]; intros st Hun Hst; [done|].
  cbn [undisturbed] in Hun. apply andb_true_iff in Hun as [Hev Hun].
  apply negb_true_iff in Hev. apply IH; [done|]. by apply step_still_subscribed.
Qed.

Lemma step_not_called listener st ev :
  ev ≠ Subscribe listener → listener ∉ listeners st →
  (listener ∉ listeners (step st ev)) ∧
  (∃ calls, invoked (step st ev) = invoked st ++ calls ∧ listener ∉ calls).
Proof.
  intros Hev Hst.
  assert (∃ calls, invoked st = invoked st ++ calls ∧ listener ∉ calls) as Hnone.
  { exists []. rewrite app_nil_r. split; [done|apply not_elem_of_nil]. }
  destruct ev as [|signal results|l|cap]; simpl.
  - by destruct (currentAbortController st).
  - destruct (settled_listeners signal results st) as (-> & _ & [->|[_ ->]]);
      [done|]. split; [done|]. by exists (listeners st).
  - split; [|done]. rewrite elem_of_app, list_elem_of_singleton.
    intros [?| ->]; [done|]. by apply Hev.
  - unfold unsubscribe. destruct (closures st !! cap) as [l|]; [|done].
    simpl. split; [|done]. rewrite list_elem_of_filter. naive_solver.
Qed.

Lemma run_not_called listener st trace :
  Forall (λ ev, ev ≠ Subscribe listener) trace → listener ∉ listeners st →
  ∃ calls, invoked (run st trace) = invoked st ++ calls ∧ listener ∉ calls.
Proof.
  revert st. induction trace as [|ev trace IH]; intros st Hall Hst.
  - exists []. rewrite app_nil_r. split; [done|apply not_elem_of_nil].
  - apply Forall_cons in Hall as [Hev Hall].
    destruct (step_not_called listener st ev Hev Hst) as (Hst' & calls & Hcalls & ?).
    destruct (IH _ Hall Hst') as (calls' & Hcalls' & ?).
    exists (calls ++ calls'). cbn [run foldl]. fold (run (step st ev) trace).
    rewrite Hcalls', Hcalls, <-app_assoc. split; [done|].
    rewrite elem_of_app. naive_solver.
Qed.

(** X24. A listener that is not subscribed yet: from [subscribe] on, and as
    long as it is not subscribed once more and no unsubscribe closure obtained
    for it is called, a reload that publishes calls it exactly once; from the
    call of its unsubscribe closure on it is not called. *)
Lemma fresh_listener_called_once (st : State) (between after : list Event)
    (listener : Listener) (signal : Signal) (results : list SettledResult) :
  let st1 := (subscribe listener st).1 in
  let capability := (subscribe listener st).2 in
  let st2 := run st1 between in
  let st3 := unsubscribe capability st2 in
  listener ∉ listeners st →
  undisturbed listener st1 between = true →
  Forall (λ ev, ev ≠ Subscribe listener) after →
  (isAborted st2 signal = false →
   ∃ published,
     reloadCommands_settled signal results st2 = Some published ∧
     count_occ Nat.eq_dec (notified st2 published) listener = 1) ∧
  count_occ Nat.eq_dec (notified st3 (run st3 after)) listener = 0.
Proof.
  intros st1 capability st2 st3 Hfresh Hquiet Hafter. split.
  - intros Hsig.
    destruct (every_rejection_logged st2 signal results) as (st' & Hst' & Hpub).
    rewrite Hsig in Hpub. destruct Hpub as (m & _ & _ & _ & Hcalls).
    exists st'. split; [done|]. rewrite Hcalls.
    apply run_still_subscribed; [done|]. simpl. rewrite count_occ_app. simpl.
    destruct (Nat.eq_dec listener listener); [|done].
    rewrite (proj1 (count_occ_not_In Nat.eq_dec _ _)); [done|].
    by rewrite <-list_elem_of_In.
  - assert (closures st2 !! capability = Some listener) as Hcap.
    { apply run_keeps_closures. simpl. by apply list_lookup_middle. }
    assert (listener ∉ listeners st3) as Hgone.
    { unfold st3, unsubscribe. rewrite Hcap. simpl.
      rewrite list_elem_of_filter. naive_solver. }
    destruct (run_not_called listener st3 after Hafter Hgone) as (calls & Hcalls & ?).
    unfold notified. rewrite Hcalls, drop_app_length.
    apply count_occ_not_In. by rewrite <-list_elem_of_In.
Qed.

Lemma fresh_listener_called_once_witness :
  let st1 := (subscribe 7 initial).1 in
  let capability := (subscribe 7 initial).2 in
  let st2 := run st1 [Reload] in
  let st3 := unsubscribe capability st2 in
  (isAborted st2 (OwnSignal 0) = false →
   ∃ published,
     reloadCommands_settled (OwnSignal 0) [] st2 = Some published ∧
     count_occ Nat.eq_dec (notified st2 published) 7 = 1) ∧
  count_occ Nat.eq_dec
    (notified st3 (run st3 [Reload; Settled (OwnSignal 1) []])) 7 = 0.
Proof.
  apply (fresh_listener_called_once initial [Reload]
           [Reload; Settled (OwnSignal 1) []] 7 (OwnSignal 0) []).
  - apply not_elem_of_nil.
  - reflexivity.
  - repeat constructor; discriminate.
Defined.

(** The array keeps a listener once per [subscribe]: subscribed twice, it is
    called twice for one snapshot. *)
Example listener_subscribed_twice :
  invoked (run initial [Subscribe 7; Subscribe 7; Reload; Settled (OwnSignal 0) []])
  = [7; 7].
Proof. reflexivity. Qed.

End ManagerSpec.

(** ** Properties of the factory *)

Module FactorySpec.
Import Commands Runtime Aggregator AggregatorSpec Factory.

Lemma attach_name cmd : name (attach cmd) = name cmd.
Proof. by destruct cmd as [? ? ? ? ? ? [subs|] ?]. Qed.

Lemma attach_names cmds : name <$> List.map attach cmds = name <$> cmds.
Proof.
  induction cmds as [|cmd cmds IH]; [done|].
  cbn [List.map]. rewrite !fmap_cons, attach_name. by f_equal.
Qed.

(** [create] always returns; it logs every rejection and keeps the names the
    conflict resolution chose. *)
Lemma create_names results :
  ∃ service commandMap,
    create results = Some (service, rejections results) ∧
    resolveConflicts (fulfilledCommands results) = Some commandMap ∧
    name <$> commands service = commandMap.*1.
Proof.
  unfold create. rewrite ManagerSpec.collect_all.
  destruct (resolveConflicts_is_Some (fulfilledCommands results)) as [m Hm].
  rewrite Hm. cbn [mbind option_bind buildLookupMap].
  eexists _, m. split_and!; [done..|]. simpl.
  rewrite attach_names. apply names_values. by eapply resolveConflicts_keyed.
Qed.

(** The lookup maps at work: [memory] with its alias and two sub-commands,
    resolved through the root map and the attached [commandMap]. *)
Example create_then_resolve :
  let add := mkSlashCommand "add" "Add to memory" BUILT_IN None None (Some 2)
               None None in
  let clear := mkSlashCommand "clear" "Clear memory" BUILT_IN (Some ["c"]) None
                 (Some 3) None None in
  let memory := mkSlashCommand "memory" "Manage memory" BUILT_IN (Some ["mem"])
                  None None (Some [add; clear]) None in
  ∃ service logged,
    create [Fulfilled [memory]] = Some (service, logged) ∧
    (rootCommandMap service).*1 = ["memory"; "mem"] ∧
    Resolution.parseSlashCommand "/mem c now"
      (Resolution.ByMap (rootCommandMap service)) =
    Resolution.mkParsed (Some clear) "now" ["memory"; "clear"].
Proof. intros add clear memory. by eexists _, _. Qed.

End FactorySpec.

(** ** The names of a snapshot *)

Module SnapshotSpec.
Import Commands Runtime Aggregator AggregatorSpec.

Lemma manager_run_snoc st trace ev :
  Manager.run st (trace ++ [ev]) = Manager.step (Manager.run st trace) ev.
Proof. unfold Manager.run. by rewrite foldl_app. Qed.

Lemma manager_step_commands st ev :
  commands (Manager.step st ev) = commands st ∨
  ∃ commandMap,
    keyed commandMap ∧ commands (Manager.step st ev) = JsMap.values commandMap.
Proof.
  destruct ev as [|signal results|listener|capability]; simpl; auto.
  - destruct (currentAbortController st); auto.
  - destruct (ManagerSpec.every_rejection_logged st signal results)
      as (st' & -> & Hst').
    simpl. destruct (isAborted st signal).
    + left. apply Hst'.
    + destruct Hst' as (m & Hm & -> & _). right. exists m. split; [|done].
      by eapply resolveConflicts_keyed.
  - unfold Manager.unsubscribe. destruct (closures st !! capability); auto.
Qed.

(** C2, as far as it holds.  Every snapshot has pairwise distinct names:
    the values of the map built by the conflict resolution, and with them
    the commands of either service after any sequence of events and the
    commands of a service made by [create]. *)
Theorem published_names_distinct :
  (∀ allCommands, ∃ commandMap,
     resolveConflicts allCommands = Some commandMap ∧
     NoDup (name <$> JsMap.values commandMap)) ∧
  (∀ trace, NoDup (name <$> commands (Registry.run initial trace))) ∧
  (∀ trace, NoDup (name <$> commands (Manager.run initial trace))) ∧
  (∀ results, ∃ service logged,
     Factory.create results = Some (service, logged) ∧
     NoDup (name <$> Factory.commands service)).
Proof.
  split_and!.
  - intros allCommands.
    destruct (resolveConflicts_is_Some allCommands) as [m Hm].
    exists m. split; [done|]. apply resolveConflicts_keyed in Hm.
    rewrite names_values by done. apply Hm.
  - apply (RegistrySpec.run_invariant (λ st, NoDup (name <$> commands st)));
      [constructor|].
    intros st ev Hst.
    destruct (RegistrySpec.step_commands st ev) as [->|(m & Hm & ->)]; [done|].
    rewrite names_values by done. apply Hm.
  - intros trace. induction trace as [|ev trace IH] using rev_ind; [constructor|].
    rewrite manager_run_snoc.
    destruct (manager_step_commands (Manager.run initial trace) ev)
      as [->|(m & Hm & ->)]; [done|].
    rewrite names_values by done. apply Hm.
  - intros results.
    destruct (FactorySpec.create_names results) as (service & m & Hcreate & Hm & Hnames).
    exists service, (rejections results). split; [done|].
    rewrite Hnames. by apply resolveConflicts_keyed in Hm as [? _].
Qed.

(** C2, counterexample.  Aliases take no part in the conflict resolution:
    [memory] with the alias [mem] and a command named [mem] are published
    side by side. *)
Lemma alias_collides_with_name :
  let memory := mkSlashCommand "memory" "Manage memory" BUILT_IN (Some ["mem"])
                  None None None None in
  let mem := mkSlashCommand "mem" "Show memory" FILE None None None None None in
  ¬ distinctLabels
      (commands (Registry.run initial
                   [Registry.Reload None;
                    Registry.Settled (OwnSignal 0) [Fulfilled [memory; mem]]])).
Proof.
  intros memory mem Hdistinct.
  apply (Hdistinct 0 1 memory mem "mem"); [done|done|lia| |].
  - right. left.
  - left.
Qed.

End SnapshotSpec.

(** ** Properties of the command resolution *)

Module ResolutionSpec.
Import Commands Resolution.

Lemma append_cons (c : ascii) (s t : string) :
  String c s +:+ t = String c (s +:+ t).
Proof. done. Qed.

Lemma allSpaces_nil : allSpaces "".
Proof. constructor. Qed.

Lemma allSpaces_cons c s : allSpaces (String c s) ↔ isSpace c = true ∧ allSpaces s.
Proof. unfold allSpaces. simpl. by rewrite Forall_cons. Qed.

Lemma isToken_cons c s :
  isToken (String c s) ↔ isSpace c = false ∧ (s = "" ∨ isToken s).
Proof.
  unfold isToken. simpl. rewrite Forall_cons. split.
  - intros [_ [? ?]]. split; [done|]. destruct s; [by left|right]. done.
  - intros [? [->|[_ ?]]]; split_and!; done || constructor.
Qed.

(** *** The tokens *)

Lemma tokenize_spaces spaces text :
  allSpaces spaces → tokenize (spaces +:+ text) = tokenize text.
Proof.
  induction spaces as [|c spaces IH]; [done|].
  intros [Hc ?]%allSpaces_cons. rewrite append_cons. cbn [tokenize].
  rewrite Hc. by apply IH.
Qed.

Lemma tokenize_token token after :
  isToken token → startsToken after = false →
  tokenize (token +:+ after) = (token, after) :: tokenize after.
Proof.
  intros Htoken Hafter. induction token as [|c token IH]; [by destruct Htoken|].
  apply isToken_cons in Htoken as [Hc Htoken].
  rewrite append_cons. cbn [tokenize]. rewrite Hc.
  destruct Htoken as [->|Htoken].
  - change ("" +:+ after) with after. rewrite Hafter. by destruct (tokenize after).
  - rewrite (IH Htoken). destruct token as [|c' token]; [by destruct Htoken|].
    apply isToken_cons in Htoken as [Hc' _].
    rewrite append_cons. cbn [startsToken]. by rewrite Hc'.
Qed.

Lemma tokenize_firstToken text token after :
  firstToken text token after →
  tokenize text = (token, after) :: tokenize after.
Proof.
  intros [spaces -> ? ? ?]. rewrite tokenize_spaces by done.
  by apply tokenize_token.
Qed.

Lemma tokenize_allSpaces text : allSpaces text → tokenize text = [].
Proof.
  intros Hs. rewrite <-(AggregatorSpec.append_empty_r text).
  by rewrite tokenize_spaces.
Qed.

(** The tokenizer is complete: a text is blank or starts with a token. *)
Lemma tokenize_cases text :
  match tokenize text with
  | [] => allSpaces text
  | (token, after) :: more => firstToken text token after ∧ more = tokenize after
  end.
Proof.
  induction text as [|c text IH]; [apply allSpaces_nil|].
  cbn [tokenize]. destruct (isSpace c) eqn:Hc.
  - destruct (tokenize text) as [|[token after] more].
    + by apply allSpaces_cons.
    + destruct IH as [[spaces -> ? ? ?] ->]. split; [|done].
      apply (FirstToken _ _ _ (String c spaces)); [done| |done..].
      by apply allSpaces_cons.
  - destruct (startsToken text) eqn:Htext.
    + destruct (tokenize text) as [|[token after] more].
      * destruct text as [|c' text]; [done|].
        apply allSpaces_cons in IH as [Hc' _]. simpl in Htext.
        by rewrite Hc' in Htext.
      * destruct IH as [[spaces -> Hsp Htok ?] ->]. split; [|done].
        destruct spaces as [|c' spaces].
        -- apply (FirstToken _ _ _ ""); [done|apply allSpaces_nil| |done].
           apply isToken_cons. auto.
        -- apply allSpaces_cons in Hsp as [Hc' _]. simpl in Htext.
           by rewrite Hc' in Htext.
    + assert (firstToken (String c text) (String c "") text).
      { apply (FirstToken _ _ _ ""); [done|apply allSpaces_nil| |done].
        apply isToken_cons. auto. }
      by destruct (tokenize text).
Qed.

(** *** The descent *)

Lemma descend_resolution lookup text found path :
  resolution lookup text found path
    (descend lookup (tokenize text) text found path).
Proof.
  remember (tokenize text) as tokens eqn:Htokens.
  revert lookup text found path Htokens.
  induction tokens as [|[token after] more IH]; intros lookup text found path Htokens;
    pose proof (tokenize_cases text) as Hcases; rewrite <-Htokens in Hcases.
  - by apply EndOfInput.
  - destruct Hcases as [Hfirst ->]. cbn [descend].
    destruct (resolveToken lookup token) as [cmd|] eqn:Hcmd.
    + destruct (nestedLookup cmd) as [nested|] eqn:Hnested.
      * eapply Descend; [done..|]. by apply IH.
      * by eapply NoNestedLookup.
    + by eapply NoMatch.
Qed.

Lemma resolution_descend lookup text found path result :
  resolution lookup text found path result →
  result = descend lookup (tokenize text) text found path.
Proof.
  induction 1 as [lookup text found path Hblank
                 |lookup text found path token after Hfirst Hnone
                 |lookup text found path token after cmd Hfirst Hcmd Hleaf
                 |lookup text found path token after cmd nested result
                    Hfirst Hcmd Hnested _ IH].
  - by rewrite tokenize_allSpaces.
  - rewrite (tokenize_firstToken _ _ _ Hfirst). cbn [descend]. by rewrite Hnone.
  - rewrite (tokenize_firstToken _ _ _ Hfirst). cbn [descend].
    by rewrite Hcmd, Hleaf.
  - rewrite (tokenize_firstToken _ _ _ Hfirst). cbn [descend].
    by rewrite Hcmd, Hnested.
Qed.

(** *** Trimming *)

Lemma trimStart_spaces spaces text :
  allSpaces spaces → trimStart (spaces +:+ text) = trimStart text.
Proof.
  induction spaces as [|c spaces IH]; [done|].
  intros [Hc ?]%allSpaces_cons. rewrite append_cons. cbn [trimStart].
  rewrite Hc. by apply IH.
Qed.

Lemma trimEnd_token token after :
  isToken token → trimEnd (token +:+ after) = token +:+ trimEnd after.
Proof.
  induction token as [|c token IH]; [by intros [? _]|].
  intros [Hc Htoken]%isToken_cons. rewrite !append_cons. cbn [trimEnd].
  rewrite Hc. cbn [andb]. f_equal.
  destruct Htoken as [->|Htoken]; [done|by apply IH].
Qed.

(** The argument string when the first token is left over: the token and
    what follows it, without the whitespace around. *)
Lemma trim_firstToken text token after :
  firstToken text token after → trim text = token +:+ trimEnd after.
Proof.
  intros [spaces -> ? Htoken _]. unfold trim. rewrite trimStart_spaces by done.
  destruct token as [|c token]; [by destruct Htoken|].
  pose proof Htoken as [Hc _]%isToken_cons.
  rewrite append_cons. cbn [trimStart]. rewrite Hc, <-append_cons.
  by apply trimEnd_token.
Qed.

(** C7. On an input that starts, after trimming, with the command prefix,
    the result is the one the prose of the spec determines: the text is read
    token by token, each token is resolved in the lookup reached so far, and
    the descent stops at the end of the input, at a token without match or
    at a command without nested lookup; the result holds the last command
    resolved, the names along the way and the trimmed text left over.  If the
    first token does not resolve, no command is returned and the argument
    string is that token and the rest.  Any other input gives no command, no
    path and an empty argument string. *)
Theorem parseSlashCommand_resolves (query : string) (lookup : Lookup) :
  match trim query with
  | String c text =>
      if bool_decide (c = commandPrefix) then
        resolution lookup text None [] (parseSlashCommand query lookup) ∧
        (∀ result,
           resolution lookup text None [] result →
           result = parseSlashCommand query lookup) ∧
        (∀ token after,
           firstToken text token after → resolveToken lookup token = None →
           parseSlashCommand query lookup =
             mkParsed None (token +:+ trimEnd after) [])
      else parseSlashCommand query lookup = mkParsed None "" []
  | EmptyString => parseSlashCommand query lookup = mkParsed None "" []
  end.
Proof.
  unfold parseSlashCommand. destruct (trim query) as [|c text]; [done|].
  case_bool_decide; [|done]. split_and!.
  - apply descend_resolution.
  - apply resolution_descend.
  - intros token after Hfirst Hnone.
    rewrite (tokenize_firstToken _ _ _ Hfirst). cbn [descend]. rewrite Hnone.
    unfold finish. by rewrite (trim_firstToken _ _ _ Hfirst).
Qed.

(** *** The cases of [commands.test.ts] *)

Section tests.

Let help := mkSlashCommand "help" "Show help" BUILT_IN None None (Some 0) None None.
Let commit := mkSlashCommand "commit" "Commit changes" FILE None None (Some 1) None None.
Let add := mkSlashCommand "add" "Add to memory" BUILT_IN None None (Some 2) None None.
Let clear :=
  mkSlashCommand "clear" "Clear memory" BUILT_IN (Some ["c"]) None (Some 3) None None.
Let memory :=
  mkSlashCommand "memory" "Manage memory" BUILT_IN (Some ["mem"]) None None
    (Some [add; clear]) None.
Let mockCommands := ByList [help; commit; memory].

Example parse_simple_command :
  parseSlashCommand "/help" mockCommands = mkParsed (Some help) "" ["help"].
Proof. reflexivity. Qed.

Example parse_command_with_arguments :
  let quoted := String "034" ("Initial commit" +:+ String "034" "") in
  parseSlashCommand ("/commit -m " +:+ quoted) mockCommands =
  mkParsed (Some commit) ("-m " +:+ quoted) ["commit"].
Proof. reflexivity. Qed.

Example parse_subcommand :
  parseSlashCommand "/memory add" mockCommands =
  mkParsed (Some add) "" ["memory"; "add"].
Proof. reflexivity. Qed.

Example parse_subcommand_with_arguments :
  parseSlashCommand "/memory add some important data" mockCommands =
  mkParsed (Some add) "some important data" ["memory"; "add"].
Proof. reflexivity. Qed.

Example parse_command_alias :
  parseSlashCommand "/mem add some data" mockCommands =
  mkParsed (Some add) "some data" ["memory"; "add"].
Proof. reflexivity. Qed.

Example parse_subcommand_alias :
  parseSlashCommand "/memory c" mockCommands =
  mkParsed (Some clear) "" ["memory"; "clear"].
Proof. reflexivity. Qed.

Example parse_unknown_command :
  parseSlashCommand "/unknown" mockCommands = mkParsed None "unknown" [].
Proof. reflexivity. Qed.

Example parse_unknown_subcommand :
  parseSlashCommand "/memory unknownsub some args" mockCommands =
  mkParsed (Some memory) "unknownsub some args" ["memory"].
Proof. reflexivity. Qed.

Example parse_extra_whitespace :
  parseSlashCommand "  /memory   add  some data  " mockCommands =
  mkParsed (Some add) "some data" ["memory"; "add"].
Proof. reflexivity. Qed.

Example parse_without_slash :
  commandToExecute (parseSlashCommand "help" mockCommands) = None.
Proof. reflexivity. Qed.

Example parse_empty_query :
  commandToExecute (parseSlashCommand "" mockCommands) = None.
Proof. reflexivity. Qed.

Example parse_only_slash :
  parseSlashCommand "/" mockCommands = mkParsed None "" [].
Proof. reflexivity. Qed.

Example parse_with_map :
  let map := ByMap [("help", help); ("commit", commit); ("memory", memory);
                    ("mem", memory)] in
  parseSlashCommand "/memory add" map = mkParsed (Some add) "" ["memory"; "add"].
Proof. reflexivity. Qed.

Example parse_with_commandMap :
  let sub := mkSlashCommand "sub" "Sub command" BUILT_IN None None (Some 4) None None in
  let root := mkSlashCommand "root" "Root command" BUILT_IN None None None None
                (Some [("sub", sub)]) in
  parseSlashCommand "/root sub" (ByMap [("root", root)]) =
  mkParsed (Some sub) "" ["root"; "sub"].
Proof. reflexivity. Qed.

End tests.

End ResolutionSpec.

(** ** Properties of the injection of standard input *)

Module ArgsSpec.
Import Commands Args.

Lemma startsWith_append (s t : string) : startsWith (s +:+ t) s = true.
Proof.
  unfold startsWith. induction s as [|c s IH]; [by destruct t|].
  change (String c s +:+ t) with (String c (s +:+ t)). simpl.
  destruct (Ascii.ascii_dec c c); [done|congruence].
Qed.

(** The loop entered at the end of [visited] leaves [visited] alone and
    handles the rest as [injectFrom] does. *)
Lemma snoc_app {A} (visited : list A) arg rest :
  visited ++ arg :: rest = (visited ++ [arg]) ++ rest.
Proof. by rewrite <-app_assoc. Qed.

Lemma scanArgs_injectFrom (fuel : nat) stdinData (visited rest : list string) :
  length rest ≤ fuel →
  scanArgs fuel stdinData (visited ++ rest) (length visited) =
  Some (visited ++ injectFrom stdinData rest).
Proof.
  revert visited rest. induction fuel as [|fuel IH]; intros visited rest Hfuel.
  - destruct rest; [|simpl in Hfuel; lia].
    cbn [scanArgs]. rewrite app_nil_r, lookup_ge_None_2 by done. done.
  - destruct rest as [|arg rest].
    { cbn [scanArgs]. rewrite app_nil_r, lookup_ge_None_2 by done. done. }
    cbn [scanArgs injectFrom]. rewrite list_lookup_middle by done.
    simpl in Hfuel. destruct (startsWith arg "-").
    + assert (∀ tail, scanArgs fuel stdinData (visited ++ arg :: tail)
                  (length visited + 1) =
                Some (visited ++ arg :: injectFrom stdinData tail)
                ∨ fuel < length tail) as Hnext.
      { intros tail. destruct (decide (length tail ≤ fuel)); [left|right; lia].
        rewrite (snoc_app visited arg tail), (snoc_app visited arg (injectFrom _ _)).
        rewrite <-IH by done. by rewrite length_app. }
      assert ((visited ++ arg :: rest) !! (length visited + 1) = head rest) as ->.
      { rewrite (snoc_app visited arg rest).
        replace (length visited + 1) with (length (visited ++ [arg]) + 0)
          by (rewrite length_app; simpl; lia).
        rewrite lookup_app_r, Nat.add_comm by lia.
        rewrite Nat.add_sub. by destruct rest. }
      destruct (bool_decide (arg = "--prompt") || bool_decide (arg = "-p")),
        rest as [|next rest]; cbn [head].
      * destruct (bool_decide (arg ∈ BOOLEAN_FLAGS)).
        -- by destruct (Hnext []) as [->|?]; [|simpl in *; lia].
        -- destruct fuel; cbn [scanArgs];
             by rewrite lookup_ge_None_2, <-app_assoc
               by (rewrite length_app; simpl; lia).
      * rewrite (snoc_app visited arg (next :: rest)).
        replace (length visited + 1) with (length (visited ++ [arg]) + 0)
          by (rewrite length_app; simpl; lia).
        by rewrite insert_app_r, <-app_assoc.
      * destruct (bool_decide (arg ∈ BOOLEAN_FLAGS)).
        -- by destruct (Hnext []) as [->|?]; [|simpl in *; lia].
        -- destruct fuel; cbn [scanArgs];
             by rewrite lookup_ge_None_2, <-app_assoc
               by (rewrite length_app; simpl; lia).
      * destruct (bool_decide (arg ∈ BOOLEAN_FLAGS)).
        -- by destruct (Hnext (next :: rest)) as [->|?]; [|simpl in *; lia].
        -- rewrite (snoc_app visited arg (next :: rest)),
             (snoc_app (visited ++ [arg]) next rest).
           replace (length visited + 1 + 1)
             with (length ((visited ++ [arg]) ++ [next]))
             by (rewrite !length_app; simpl; lia).
           rewrite IH by (simpl in *; lia). by rewrite <-!app_assoc.
    + by rewrite insert_app_r_alt, Nat.sub_diag by done.
Qed.

(** [injectStdinIntoArgs] always returns.  Without data on standard input
    the arguments come back as they are; with data the first two arguments
    (the executable and the script) stay and the others are scanned. *)
Lemma injectStdinIntoArgs_eq args stdinData :
  injectStdinIntoArgs args stdinData =
  Some (if truthyString stdinData
        then take 2 args ++ injectFrom (default "" stdinData) (drop 2 args)
        else args).
Proof.
  unfold injectStdinIntoArgs. destruct (truthyString stdinData); [|done].
  cbn [negb]. destruct (decide (2 ≤ length args)) as [Hlen|Hlen].
  - pose proof (scanArgs_injectFrom (length args) (default "" stdinData)
                  (take 2 args) (drop 2 args)) as Hscan.
    rewrite take_drop, length_take, Nat.min_l in Hscan by done.
    apply Hscan. rewrite length_drop. lia.
  - rewrite drop_ge, take_ge by lia.
    destruct args as [|a [|b args]]; simpl in Hlen; [done|done|lia].
Qed.

Lemma BOOLEAN_FLAGS_options :
  Forall (λ flag, startsWith flag "-" = true ∧ isPromptOption flag = false)
    BOOLEAN_FLAGS.
Proof. repeat constructor. Qed.

Lemma injectFrom_flag stdinData flag rest :
  flag ∈ BOOLEAN_FLAGS →
  injectFrom stdinData (flag :: rest) = flag :: injectFrom stdinData rest.
Proof.
  intros Hflag.
  destruct (proj1 (Forall_forall _ _) BOOLEAN_FLAGS_options flag Hflag)
    as [Hdash Hprompt].
  cbn [injectFrom]. unfold isPromptOption in Hprompt.
  by rewrite Hdash, Hprompt, bool_decide_eq_true_2.
Qed.

Lemma injectFrom_flags stdinData flags rest :
  Forall (λ flag, flag ∈ BOOLEAN_FLAGS) flags →
  injectFrom stdinData (flags ++ rest) = flags ++ injectFrom stdinData rest.
Proof.
  induction 1 as [|flag flags Hflag _ IH]; [done|].
  by rewrite <-!app_comm_cons, injectFrom_flag, IH.
Qed.

Lemma injectFrom_valued stdinData opt value rest :
  startsWith opt "-" = true → opt ∉ BOOLEAN_FLAGS → isPromptOption opt = false →
  injectFrom stdinData (opt :: value :: rest) =
  opt :: value :: injectFrom stdinData rest.
Proof.
  intros Hdash Hflag Hprompt. cbn [injectFrom]. unfold isPromptOption in Hprompt.
  by rewrite Hdash, Hprompt, bool_decide_eq_false_2.
Qed.

Lemma injectFrom_last stdinData opt :
  startsWith opt "-" = true →
  injectFrom stdinData [opt] = [opt; "--prompt"; stdinData].
Proof.
  intros Hdash. cbn [injectFrom]. rewrite Hdash.
  by destruct (bool_decide (opt = "--prompt") || bool_decide (opt = "-p")),
    (bool_decide (opt ∈ BOOLEAN_FLAGS)).
Qed.



Lemma injectStdinIntoArgs_data node script rest data :
  data ≠ "" →
  injectStdinIntoArgs (node :: script :: rest) (Some data) =
  Some (node :: script :: injectFrom data rest).
Proof.
  intros Hdata. rewrite injectStdinIntoArgs_eq. cbn [truthyString].
  by rewrite (proj2 (String.eqb_neq _ _) Hdata).
Qed.





(** X4. An option that is neither a boolean flag nor a prompt option is
    taken to carry a value: the argument after it is passed over whatever
    it looks like, and the data goes where it would go without the pair. *)
Theorem valued_option_is_passed_over (node script opt value : string)
    (rest : list string) (data : string) :
  data ≠ "" →
  startsWith opt "-" = true → opt ∉ BOOLEAN_FLAGS → isPromptOption opt = false →
  ∃ result,
    injectStdinIntoArgs (node :: script :: rest) (Some data) =
      Some (node :: script :: result) ∧
    injectStdinIntoArgs (node :: script :: opt :: value :: rest) (Some data) =
      Some (node :: script :: opt :: value :: result).
Proof.
  intros Hdata Hdash Hflag Hprompt. rewrite !injectStdinIntoArgs_data by done.
  rewrite injectFrom_valued by done.
  by eexists.
Qed.

Lemma valued_option_is_passed_over_witness :
  ∃ result,
    injectStdinIntoArgs ["node"; "cli.js"] (Some "ctx") =
      Some ("node" :: "cli.js" :: result) ∧
    injectStdinIntoArgs ["node"; "cli.js"; "--resume"; "hello"] (Some "ctx") =
      Some ("node" :: "cli.js" :: "--resume" :: "hello" :: result).
Proof.
  apply (valued_option_is_passed_over "node" "cli.js" "--resume" "hello" [] "ctx").
  - discriminate.
  - reflexivity.
  - apply (bool_decide_eq_false_1 ("--resume" ∈ BOOLEAN_FLAGS)). reflexivity.
  - reflexivity.
Defined.

(** X5. When the arguments after the script are boolean flags, possibly
    followed by one last option of any kind (a trailing [--prompt]
    included), no argument is rewritten: [--prompt] and the data are
    appended. *)
Theorem stdin_appended_as_prompt (node script : string) (flags last : list string)
    (data : string) :
  data ≠ "" →
  Forall (λ flag, flag ∈ BOOLEAN_FLAGS) flags →
  (last = [] ∨ ∃ opt, last = [opt] ∧ startsWith opt "-" = true) →
  injectStdinIntoArgs (node :: script :: flags ++ last) (Some data) =
  Some ((node :: script :: flags ++ last) ++ ["--prompt"; data]).
Proof.
  intros Hdata Hflags Hlast. rewrite injectStdinIntoArgs_data by done.
  rewrite injectFrom_flags by done.
  destruct Hlast as [->|(opt & -> & Hdash)].
  - by rewrite app_nil_r.
  - rewrite injectFrom_last by done. cbn [app]. by rewrite <-app_assoc.
Qed.

Lemma stdin_appended_as_prompt_witness :
  injectStdinIntoArgs ["node"; "cli.js"; "--yolo"; "--prompt"] (Some "ctx") =
  Some ["node"; "cli.js"; "--yolo"; "--prompt"; "--prompt"; "ctx"].
Proof.
  apply (stdin_appended_as_prompt "node" "cli.js" ["--yolo"] ["--prompt"] "ctx").
  - discriminate.
  - repeat constructor.
  - right. exists "--prompt". split; reflexivity.
Defined.

End ArgsSpec.

(** ** Laws of the merge *)

Module MergeLaws.
Import Merge MergeSpec.

(** X6. Merging a mapping with itself gives it back, when no object of the
    mapping has an own key [__proto__]: every object in it, outside arrays,
    has the prototype [Object.prototype] and pairwise distinct keys in the
    order of [Object.keys]. *)
Theorem deepMerge_idempotent (A : record) :
  settled (toValue A) → deepMerge (Some A) (Some A) = Some A.
Proof. by apply (deepMerge_settled (depth (toValue A))). Qed.

Lemma deepMerge_idempotent_witness :
  let A := object [("0", VNumber 7);
                   ("ui", VPlain [("theme", VString "dark"); ("tabs", VArray [VNumber 2])]);
                   ("name", VNull)] in
  deepMerge (Some A) (Some A) = Some A.
Proof.
  intros A. apply (deepMerge_idempotent A).
  vm_compute. repeat split; repeat constructor; set_solver.
Defined.

(** X7. For two mappings with pairwise distinct keys other than
    [__proto__], the merge returns an object whose prototype is
    [Object.prototype] and whose keys, pairwise distinct, are the keys of
    the one or the other; and the empty mapping is a left identity: the
    merge of it and [B] holds under every key what [B] holds, and lists the
    keys as [B] does when [B] lists them in the order of [Object.keys]. *)
Theorem deepMerge_domain (A B : record) :
  plain A → plain B →
  ∃ merged,
    deepMerge (Some A) (Some B) = Some merged ∧
    proto merged = VObjectPrototype ∧
    NoDup (own merged).*1 ∧
    (∀ key, key ∈ (own merged).*1 ↔ key ∈ (own A).*1 ∨ key ∈ (own B).*1) ∧
    ∃ copy,
      deepMerge (Some (object [])) (Some B) = Some copy ∧
      proto copy = VObjectPrototype ∧
      (∀ key, ownProperty (own copy) key = ownProperty (own B) key) ∧
      (listed (own B) → own copy = own B).
Proof.
  intros HA HB.
  destruct (deepMerge_keys A B HA HB) as (merged & Hm & Hproto & Hkeys).
  exists merged. split_and!; [done|done|..].
  - rewrite deepMerge_eq in Hm. cbn [mergeIntoResult] in Hm.
    destruct (mergeEntries deepMerge emptyObject (own A)) as [r1|] eqn:H1; [|done].
    cbn [mbind option_bind] in Hm.
    eapply NoDup_mergeEntries; [|exact Hm].
    eapply NoDup_mergeEntries; [|exact H1]. constructor.
  - intros key. rewrite <-!ownProperty_is_Some. specialize (Hkeys key).
    destruct (ownProperty (own A) key) as [a|], (ownProperty (own B) key) as [b|].
    + destruct (asRecord a), (asRecord b);
        try (rewrite Hkeys; split; [by left|by eexists]).
      destruct Hkeys as (sub & _ & ->). split; [by left|by eexists].
    + rewrite Hkeys. split; [by left|by eexists].
    + rewrite Hkeys. split; [by right|by eexists].
    + rewrite Hkeys. split; [by intros [? [=]]|by intros [[? [=]]|[? [=]]]].
  - destruct (deepMerge_keys (object []) B) as (copy & Hc & Hp & Hk); [|done|].
    { split; [constructor|apply not_elem_of_nil]. }
    exists copy. split_and!; [done..| |].
    + intros key. specialize (Hk key). cbn [own object ownProperty] in Hk.
      by destruct (ownProperty (own B) key).
    + intros Hlisted. destruct (deepMerge_identity B HB Hlisted) as (_ & _ & _ & Hid).
      rewrite Hid in Hc. by injection Hc as <-.
Qed.

Lemma deepMerge_domain_witness :
  let A := object [("theme", VString "dark")] in
  let B := object [("theme", VString "light"); ("tabs", VNumber 2)] in
  ∃ merged,
    deepMerge (Some A) (Some B) = Some merged ∧
    proto merged = VObjectPrototype ∧
    NoDup (own merged).*1 ∧
    (∀ key, key ∈ (own merged).*1 ↔ key ∈ (own A).*1 ∨ key ∈ (own B).*1) ∧
    ∃ copy,
      deepMerge (Some (object [])) (Some B) = Some copy ∧
      proto copy = VObjectPrototype ∧
      (∀ key, ownProperty (own copy) key = ownProperty (own B) key) ∧
      (listed (own B) → own copy = own B).
Proof.
  intros A B. apply (deepMerge_domain A B).
  - split; [vm_compute; repeat constructor; set_solver|vm_compute; set_solver].
  - split; [vm_compute; repeat constructor; set_solver|vm_compute; set_solver].
Defined.

(** X8. The merge is not associative: a scalar between two objects cuts
    the first one off when the merge is grouped to the left, and is itself
    merged away when it is grouped to the right. *)
Theorem deepMerge_not_associative :
  ¬ ∀ A B C : record,
      (AB ← deepMerge (Some A) (Some B); deepMerge (Some AB) (Some C)) =
      (BC ← deepMerge (Some B) (Some C); deepMerge (Some A) (Some BC)).
Proof.
  intros Hassoc.
  specialize (Hassoc (object [("ui", VPlain [("footer", VBool true)])])
                     (object [("ui", VNumber 0)])
                     (object [("ui", VPlain [("width", VNumber 80)])])).
  vm_compute in Hassoc. discriminate.
Qed.

End MergeLaws.

(** ** Reading the insertion-ordered map *)

Module JsMapLaws.
Import JsMap JsMapSpec.

Section facts.
Context {V : Type}.
Implicit Types (m : t V) (key : string) (v : V).

Lemma get_None m key : get m key = None ↔ has m key = false.
Proof.
  induction m as [|[k x] rest IH]; [done|].
  rewrite has_cons. cbn [get]. destruct (decide (k = key)) as [->|Hne].
  - by rewrite bool_decide_true.
  - by rewrite bool_decide_false.
Qed.

Lemma get_is_Some m key : is_Some (get m key) ↔ has m key = true.
Proof.
  rewrite <-not_eq_None_Some, get_None. by destruct (has m key).
Qed.

Lemma get_set m key v k :
  get (set m key v) k = if decide (k = key) then Some v else get m k.
Proof.
  induction m as [|[k' old] rest IH]; cbn [set get].
  - repeat case_decide; congruence.
  - destruct (decide (k' = key)) as [->|Hne]; cbn [get];
      repeat case_decide; congruence.
Qed.

Lemma get_elem_of m key v : NoDup m.*1 → (key, v) ∈ m → get m key = Some v.
Proof.
  induction m as [|[k x] rest IH]; intros Hm Hin; [by apply elem_of_nil in Hin|].
  rewrite fmap_cons in Hm. apply NoDup_cons in Hm as [Hk Hrest].
  cbn [get]. apply elem_of_cons in Hin as [[= <- <-]|Hin].
  - by rewrite decide_True.
  - rewrite decide_False; [by apply IH|].
    intros ->. apply Hk. apply list_elem_of_fmap. by exists (key, v).
Qed.

(** [set] on a key that is not present appends the entry. *)
Lemma set_fresh m key v : has m key = false → set m key v = m ++ [(key, v)].
Proof.
  induction m as [|[k x] rest IH]; [done|].
  rewrite has_cons. intros [Hk Hrest]%orb_false_iff.
  apply bool_decide_eq_false in Hk. cbn [set].
  rewrite decide_False by done. by rewrite IH.
Qed.

End facts.
End JsMapLaws.

(** ** Laws of the conflict resolution *)

Module AggregatorLaws.
Import Commands Aggregator Precedence JsMapSpec JsMapLaws AggregatorSpec.

Lemma withName_name cmd : withName cmd (name cmd) = cmd.
Proof. by destruct cmd. Qed.

(** A command that carries no extension name is stored under its own
    name. *)
Lemma place_plain commandMap cmd :
  truthyString (extensionName cmd) = false →
  place commandMap cmd = Some (JsMap.set commandMap (name cmd) cmd).
Proof.
  intros Hext. unfold place, finalNameOf. rewrite Hext. cbn.
  by rewrite withName_name.
Qed.

(** So is every command whose name is free. *)
Lemma place_free commandMap cmd :
  JsMap.has commandMap (name cmd) = false →
  place commandMap cmd = Some (commandMap ++ [(name cmd, cmd)]).
Proof.
  intros Hfree. unfold place, finalNameOf. rewrite Hfree, andb_false_r. cbn.
  by rewrite withName_name, set_fresh.
Qed.

(** An extension command never replaces an entry. *)
Lemma place_extension commandMap cmd :
  truthyString (extensionName cmd) = true →
  ∃ finalName,
    JsMap.has commandMap finalName = false ∧
    place commandMap cmd =
      Some (commandMap ++ [(finalName, withName cmd finalName)]).
Proof.
  intros Hext. destruct (place_Some commandMap cmd) as (finalName & Hfinal & ->).
  exists finalName. unfold renamedTo in Hfinal. rewrite Hext in Hfinal.
  cbn [andb] in Hfinal.
  assert (JsMap.has commandMap finalName = false) as Hfree.
  { destruct (JsMap.has commandMap (name cmd)) eqn:Hname.
    - by destruct Hfinal as (i & _ & ? & _).
    - by subst finalName. }
  split; [done|]. by rewrite set_fresh.
Qed.

(** The key a command is stored under: its name, or one of the candidates
    when it is an extension command. *)
Lemma place_key commandMap cmd :
  ∃ finalName,
    place commandMap cmd =
      Some (JsMap.set commandMap finalName (withName cmd finalName)) ∧
    (finalName = name cmd ∨
     truthyString (extensionName cmd) = true ∧
     ∃ i, finalName = candidate (default "" (extensionName cmd)) (name cmd) i).
Proof.
  destruct (place_Some commandMap cmd) as (finalName & Hfinal & ->).
  exists finalName. split; [done|]. unfold renamedTo in Hfinal.
  destruct (truthyString (extensionName cmd)); [|by left].
  destruct (JsMap.has commandMap (name cmd)); [|by left].
  destruct Hfinal as (i & -> & _). right. eauto.
Qed.

Lemma placeAll_get_kept commandMap later key commandMap' :
  Forall (λ cmd, ¬ mayTake key cmd) later →
  placeAll commandMap later = Some commandMap' →
  JsMap.get commandMap' key = JsMap.get commandMap key.
Proof.
  revert commandMap. induction later as [|cmd later IH]; intros commandMap Hlater.
  - by intros [= <-].
  - apply Forall_cons in Hlater as [Hcmd Hlater]. cbn [placeAll].
    destruct (place_key commandMap cmd) as (finalName & -> & Hkey).
    cbn [mbind option_bind]. intros Hrest. rewrite (IH _ Hlater Hrest), get_set.
    rewrite decide_False; [done|]. intros ->. apply Hcmd.
    destruct Hkey as [->|[? [i ->]]]; [by left|right; eauto].
Qed.

Lemma placeAll_extensions commandMap later :
  Forall (λ cmd, truthyString (extensionName cmd) = true) later →
  ∃ added,
    placeAll commandMap later = Some (commandMap ++ added) ∧
    Forall2 (λ stored cmd, stored.2 = withName cmd stored.1) added later.
Proof.
  revert commandMap. induction later as [|cmd later IH]; intros commandMap Hlater.
  - exists []. by rewrite app_nil_r.
  - apply Forall_cons in Hlater as [Hcmd Hlater]. cbn [placeAll].
    destruct (place_extension commandMap cmd Hcmd) as (finalName & _ & ->).
    cbn [mbind option_bind].
    destruct (IH (commandMap ++ [(finalName, withName cmd finalName)]) Hlater)
      as (added & -> & Hadded).
    exists ((finalName, withName cmd finalName) :: added).
    rewrite <-app_assoc. split; [done|]. by constructor.
Qed.

Lemma placeAll_distinct commandMap later :
  NoDup (commandMap.*1 ++ (name <$> later)) →
  placeAll commandMap later = Some (commandMap ++ (entry <$> later)).
Proof.
  revert commandMap. induction later as [|cmd later IH]; intros commandMap Hnames.
  - by rewrite app_nil_r.
  - cbn [placeAll]. rewrite place_free.
    + cbn [mbind option_bind]. rewrite IH.
      * by rewrite <-app_assoc.
      * by rewrite fmap_app, <-app_assoc.
    + apply has_false. rewrite fmap_cons in Hnames.
      apply NoDup_app in Hnames as (_ & Hnames & _).
      intros Hin. apply (Hnames _ Hin). left.
Qed.

(** What is in the map was put there for one of the commands, renamed at
    most when it is an extension command. *)
Lemma placeAll_provenance commandMap later commandMap' (seen : list SlashCommand) :
  keyed commandMap →
  (∀ key stored, (key, stored) ∈ commandMap →
     ∃ cmd, cmd ∈ seen ∧ stored = withName cmd key ∧
            (key = name cmd ∨ truthyString (extensionName cmd) = true)) →
  placeAll commandMap later = Some commandMap' →
  length commandMap' ≤ length commandMap + length later ∧
  ∀ key stored, (key, stored) ∈ commandMap' →
    ∃ cmd, cmd ∈ seen ++ later ∧ stored = withName cmd key ∧
           (key = name cmd ∨ truthyString (extensionName cmd) = true).
Proof.
  revert commandMap seen.
  induction later as [|cmd later IH]; intros commandMap seen Hkeyed Hseen.
  - intros [= <-]. rewrite app_nil_r. split; [simpl; lia|done].
  - cbn [placeAll]. destruct (place commandMap cmd) as [m|] eqn:Hplace; [|done].
    cbn [mbind option_bind]. intros Hrest.
    destruct (place_key commandMap cmd) as (finalName & Hm & Hkey).
    rewrite Hm in Hplace. injection Hplace as <-.
    destruct (IH (JsMap.set commandMap finalName (withName cmd finalName))
                (seen ++ [cmd])) as [Hlen Hall]; [by eapply place_keyed| |done|].
    + intros key stored Hin. apply elem_of_set in Hin; [|apply Hkeyed].
      destruct Hin as [[-> ->]|[_ Hin]].
      * exists cmd. split; [set_solver|]. split; [done|]. naive_solver.
      * destruct (Hseen _ _ Hin) as (c & ? & ?). exists c. split; [set_solver|done].
    + split.
      * rewrite length_set in Hlen. simpl.
        destruct (JsMap.has commandMap finalName); lia.
      * intros key stored Hin. rewrite (cons_middle cmd seen later), app_assoc.
        by apply Hall.
Qed.

(** X9. A command that carries an extension name never replaces an entry
    of the map: whatever was loaded before the extension commands keeps its
    key, its value and its place in front, and every extension command adds
    one entry, a copy of itself under the key chosen for it. *)
Theorem extension_commands_only_append (before extensions : list SlashCommand)
    (commandMap : JsMap.t SlashCommand) :
  Forall (λ cmd, truthyString (extensionName cmd) = true) extensions →
  resolveConflicts before = Some commandMap →
  ∃ added,
    resolveConflicts (before ++ extensions) = Some (commandMap ++ added) ∧
    Forall2 (λ stored cmd, stored.2 = withName cmd stored.1) added extensions.
Proof.
  intros Hext Hbefore. unfold resolveConflicts in *.
  rewrite placeAll_app, Hbefore. cbn [mbind option_bind].
  by apply placeAll_extensions.
Qed.

Lemma extension_commands_only_append_witness :
  let help := mkSlashCommand "help" "Show help" BUILT_IN None None None None None in
  let other := mkSlashCommand "help" "Help of the extension" EXTENSION None
                 (Some "acme") None None None in
  ∃ added,
    resolveConflicts ([help] ++ [other; other]) = Some ([entry help] ++ added) ∧
    Forall2 (λ stored cmd, stored.2 = withName cmd stored.1) added [other; other].
Proof.
  intros help other.
  apply (extension_commands_only_append [help] [other; other] [entry help]).
  - repeat constructor.
  - reflexivity.
Defined.

(** X10. Among commands that carry no extension name the last loader
    wins: such a command is in the map under its name, as it was loaded,
    unless a command after it can be stored under that name (a command of
    the same name, or an extension command one of whose candidates is that
    name). *)
Theorem last_plain_command_wins (before after : list SlashCommand)
    (cmd : SlashCommand) :
  truthyString (extensionName cmd) = false →
  Forall (λ later, ¬ mayTake (name cmd) later) after →
  ∃ commandMap,
    resolveConflicts (before ++ cmd :: after) = Some commandMap ∧
    JsMap.get commandMap (name cmd) = Some cmd.
Proof.
  intros Hplain Hafter.
  destruct (resolveConflicts_is_Some (before ++ cmd :: after)) as [m Hm].
  exists m. split; [done|]. unfold resolveConflicts in Hm.
  rewrite placeAll_app in Hm.
  destruct (placeAll [] before) as [m0|]; [|done].
  cbn [mbind option_bind placeAll] in Hm. rewrite place_plain in Hm by done.
  cbn [mbind option_bind] in Hm.
  rewrite (placeAll_get_kept _ _ _ _ Hafter Hm), get_set.
  by rewrite decide_True.
Qed.

Lemma last_plain_command_wins_witness :
  let builtin := mkSlashCommand "deploy" "Built-in" BUILT_IN None None None None None in
  let user := mkSlashCommand "deploy" "From a file" FILE None None None None None in
  let other := mkSlashCommand "list" "List" FILE None None None None None in
  ∃ commandMap,
    resolveConflicts ([builtin] ++ user :: [other]) = Some commandMap ∧
    JsMap.get commandMap (name user) = Some user.
Proof.
  intros builtin user other.
  apply (last_plain_command_wins [builtin] [other] user).
  - reflexivity.
  - repeat constructor. intros [Hname|[Hext _]]; discriminate.
Defined.

(** X11. Commands with pairwise distinct names pass the conflict
    resolution untouched: the snapshot is the list of the loaded commands,
    in loader order. *)
Theorem distinct_names_pass_unchanged (allCommands : list SlashCommand) :
  NoDup (name <$> allCommands) →
  ∃ commandMap,
    resolveConflicts allCommands = Some commandMap ∧
    JsMap.values commandMap = allCommands.
Proof.
  intros Hnames. exists (entry <$> allCommands). split.
  - by apply (placeAll_distinct [] allCommands).
  - unfold JsMap.values. rewrite <-list_fmap_compose. apply list_fmap_id.
Qed.

Lemma distinct_names_pass_unchanged_witness :
  let help := mkSlashCommand "help" "Show help" BUILT_IN None None None None None in
  let other := mkSlashCommand "deploy" "Deploy" EXTENSION None (Some "acme")
                 None None None in
  ∃ commandMap,
    resolveConflicts [help; other] = Some commandMap ∧
    JsMap.values commandMap = [help; other].
Proof.
  intros help other. apply (distinct_names_pass_unchanged [help; other]).
  vm_compute. repeat constructor; set_solver.
Defined.

(** X12. The snapshot holds nothing but copies of loaded commands, and no
    more of them than were loaded: every entry is the copy of a loaded
    command under its key, and only a command that carries an extension
    name is stored under a key that is not its name. *)
Theorem snapshot_holds_loaded_commands (allCommands : list SlashCommand) :
  ∃ commandMap,
    resolveConflicts allCommands = Some commandMap ∧
    length commandMap ≤ length allCommands ∧
    ∀ key stored, (key, stored) ∈ commandMap →
      ∃ cmd, cmd ∈ allCommands ∧ stored = withName cmd key ∧
             (key = name cmd ∨ truthyString (extensionName cmd) = true).
Proof.
  destruct (resolveConflicts_is_Some allCommands) as [m Hm].
  exists m. split; [done|].
  apply (placeAll_provenance [] allCommands m []); [apply keyed_nil| |done].
  by intros key stored ?%elem_of_nil.
Qed.

End AggregatorLaws.

(** ** Laws of the lookup maps *)

Module LookupLaws.
Import Commands Runtime Aggregator Factory JsMapSpec JsMapLaws AggregatorSpec.

Lemma labels_attach cmd : labels (attach cmd) = labels cmd.
Proof. by destruct cmd as [? ? ? ? ? ? [subs|] ?]. Qed.

Lemma get_aliases (aliases : list string) (map : JsMap.t SlashCommand) cmd key :
  JsMap.get (foldl (λ map alias, JsMap.set map alias cmd) map aliases) key =
  if bool_decide (key ∈ aliases) then Some cmd else JsMap.get map key.
Proof.
  revert map. induction aliases as [|alias aliases IH]; intros map; [done|].
  cbn [foldl]. rewrite IH, get_set.
  destruct (decide (key = alias)) as [->|Hne].
  - rewrite (bool_decide_true (alias ∈ alias :: aliases)) by left.
    by destruct (bool_decide (alias ∈ aliases)).
  - apply (f_equal (λ b : bool, if b then Some cmd else JsMap.get map key)).
    apply bool_decide_ext. rewrite elem_of_cons. naive_solver.
Qed.

(** After the entries of a command are written, each of its names answers
    with it and every other key is as before. *)
Lemma get_setCommand map cmd key :
  JsMap.get (setCommand map cmd) key =
  if bool_decide (key ∈ labels cmd) then Some cmd else JsMap.get map key.
Proof.
  unfold setCommand. rewrite get_aliases, get_set. unfold labels.
  destruct (decide (key = name cmd)) as [->|Hne].
  - rewrite (bool_decide_true (name cmd ∈ name cmd :: _)) by left.
    by destruct (bool_decide (name cmd ∈ default [] (altNames cmd))).
  - apply (f_equal (λ b : bool, if b then Some cmd else JsMap.get map key)).
    apply bool_decide_ext. rewrite elem_of_cons. naive_solver.
Qed.

Lemma NoDup_setCommand map cmd : NoDup map.*1 → NoDup (setCommand map cmd).*1.
Proof.
  intros Hmap. unfold setCommand.
  assert (NoDup (JsMap.set map (name cmd) cmd).*1) as Hname
    by by apply NoDup_keys_set.
  revert Hname. generalize (JsMap.set map (name cmd) cmd).
  induction (default [] (altNames cmd)) as [|alias aliases IH]; intros m Hm;
    [done|].
  cbn [foldl]. apply IH. by apply NoDup_keys_set.
Qed.

Lemma NoDup_foldl_setCommand map cmds :
  NoDup map.*1 → NoDup (foldl setCommand map cmds).*1.
Proof.
  revert map. induction cmds as [|cmd cmds IH]; intros map Hmap; [done|].
  cbn [foldl]. by apply IH, NoDup_setCommand.
Qed.

Lemma get_foldl_setCommand_kept map cmds key :
  Forall (λ cmd, key ∉ labels cmd) cmds →
  JsMap.get (foldl setCommand map cmds) key = JsMap.get map key.
Proof.
  revert map. induction cmds as [|cmd cmds IH]; intros map Hcmds; [done|].
  apply Forall_cons in Hcmds as [Hcmd Hcmds]. cbn [foldl].
  rewrite IH, get_setCommand by done. by rewrite bool_decide_false.
Qed.

Lemma get_foldl_setCommand map cmds key stored :
  JsMap.get (foldl setCommand map cmds) key = Some stored →
  JsMap.get map key = Some stored ∨ (stored ∈ cmds ∧ key ∈ labels stored).
Proof.
  revert map. induction cmds as [|cmd cmds IH]; intros map; [by left|].
  cbn [foldl]. intros [Hget|[? ?]]%IH; [|right; split; [by right|done]].
  rewrite get_setCommand in Hget. case_bool_decide; [|by left].
  injection Hget as <-. right. split; [left|done].
Qed.

Lemma has_foldl_setCommand map cmds key :
  JsMap.has (foldl setCommand map cmds) key = true ↔
  JsMap.has map key = true ∨ ∃ cmd, cmd ∈ cmds ∧ key ∈ labels cmd.
Proof.
  revert map. induction cmds as [|cmd cmds IH]; intros map.
  - cbn [foldl]. split; [by left|]. intros [?|(? & ?%elem_of_nil & _)]; done.
  - cbn [foldl]. rewrite IH, <-!get_is_Some, get_setCommand.
    case_bool_decide as Hkey.
    + split; [|by eauto]. intros _. right. exists cmd. split; [left|done].
    + split.
      * intros [?|(c & ? & ?)]; [by left|]. right. exists c. split; [by right|done].
      * intros [?|(c & [->|?]%elem_of_cons & ?)]; [by left|done|].
        right. by exists c.
Qed.

Lemma map_fmap {A B} (f : A → B) (l : list A) : List.map f l = f <$> l.
Proof. induction l as [|x l IH]; [done|]. cbn [List.map]. by rewrite IH. Qed.

Lemma attach_attach (cmd : SlashCommand) : attach (attach cmd) = attach cmd.
Proof.
  revert cmd. fix attach_attach 1. intros cmd.
  destruct cmd as [n d k a e act [subs|] m]; [|reflexivity].
  cbn [attach].
  assert (List.map attach (List.map attach subs) = List.map attach subs) as ->.
  { induction subs as [|sub subs IH]; [reflexivity|].
    cbn [List.map]. rewrite (attach_attach sub). by rewrite IH. }
  reflexivity.
Qed.

(** X13. The map returned by [buildLookupMap] has an entry for exactly the
    names and aliases of the commands it is given, and every entry holds one
    of the processed commands that answers to the key. *)
Theorem lookup_map_indexes_labels (cmds : list SlashCommand) :
  let processed := (buildLookupMap cmds).1 in
  let map := (buildLookupMap cmds).2 in
  (∀ key, JsMap.has map key = true ↔ ∃ cmd, cmd ∈ cmds ∧ key ∈ labels cmd) ∧
  (∀ key stored, (key, stored) ∈ map → stored ∈ processed ∧ key ∈ labels stored).
Proof.
  cbn [buildLookupMap fst snd]. rewrite map_fmap. split.
  - intros key. rewrite has_foldl_setCommand. split.
    + intros [?|(c & (cmd & -> & ?)%list_elem_of_fmap & Hkey)]; [done|].
      rewrite labels_attach in Hkey. eauto.
    + intros (cmd & ? & ?). right. exists (attach cmd).
      rewrite labels_attach. split; [|done]. by apply list_elem_of_fmap_2.
  - intros key stored Hin.
    apply get_elem_of in Hin; [|apply NoDup_foldl_setCommand; constructor].
    by apply get_foldl_setCommand in Hin as [?|?].
Qed.

(** X14. Where several commands answer to a key, the last one has the
    entry: a name or alias of a command resolves to that command, processed,
    unless a later command carries the same name or alias.  An alias can
    thus take the entry of another command's name. *)
Theorem last_label_has_the_entry (before after : list SlashCommand)
    (cmd : SlashCommand) (key : string) :
  key ∈ labels cmd →
  Forall (λ later, key ∉ labels later) after →
  JsMap.get (buildLookupMap (before ++ cmd :: after)).2 key = Some (attach cmd).
Proof.
  intros Hkey Hafter. cbn [buildLookupMap snd].
  rewrite map_app, foldl_app. cbn [List.map foldl].
  rewrite get_foldl_setCommand_kept.
  - rewrite get_setCommand, bool_decide_true; [done|by rewrite labels_attach].
  - rewrite map_fmap, Forall_fmap. eapply Forall_impl; [exact Hafter|].
    intros later ?. simpl. by rewrite labels_attach.
Qed.

Lemma last_label_has_the_entry_witness :
  let mem := mkSlashCommand "mem" "Show memory" FILE None None None None None in
  let memory := mkSlashCommand "memory" "Manage memory" BUILT_IN (Some ["mem"])
                  None None None None in
  JsMap.get (buildLookupMap ([mem] ++ memory :: [])).2 "mem" = Some (attach memory).
Proof.
  intros mem memory. apply (last_label_has_the_entry [mem] [] memory "mem").
  - vm_compute. right. left.
  - constructor.
Defined.

(** X15. [buildLookupMap] keeps what it is given apart from the attached
    maps.  A processed command has the name, description, kind, aliases,
    extension name and action of the command it was made from; a command
    without sub-commands is not changed at all; a command with sub-commands
    holds its sub-commands processed in turn and, as [commandMap], the map
    built for them.  Processing the processed commands once more changes
    neither them nor the map. *)
Theorem buildLookupMap_settles (cmds : list SlashCommand) :
  Forall2 (λ processed cmd,
             name processed = name cmd ∧
             description processed = description cmd ∧
             kind processed = kind cmd ∧
             altNames processed = altNames cmd ∧
             extensionName processed = extensionName cmd ∧
             action processed = action cmd ∧
             match subCommands cmd with
             | Some subs =>
                 subCommands processed = Some (buildLookupMap subs).1 ∧
                 commandMap processed = Some (buildLookupMap subs).2
             | None => processed = cmd
             end)
          (buildLookupMap cmds).1 cmds ∧
  labels <$> (buildLookupMap cmds).1 = labels <$> cmds ∧
  buildLookupMap (buildLookupMap cmds).1 = buildLookupMap cmds.
Proof.
  cbn [buildLookupMap fst]. change (List.map attach cmds) with (attach <$> cmds).
  split_and!.
  - apply Forall2_fmap_l, Forall_Forall2_diag, Forall_forall.
    intros [n d k a e act [subs|] m] _; by split_and!.
  - rewrite <-list_fmap_compose. apply list_fmap_ext.
    intros _ cmd _. apply labels_attach.
  - unfold buildLookupMap.
    assert (List.map attach (attach <$> cmds) = attach <$> cmds) as ->; [|done].
    change (attach <$> (attach <$> cmds) = attach <$> cmds).
    rewrite <-list_fmap_compose. apply list_fmap_ext.
    intros _ cmd _. apply attach_attach.
Qed.

(** X16. The service made by the static [create] holds the commands that
    a first [reloadCommands] of the reloading service publishes for the same
    loader results, with the lookup maps attached, and the same rejections
    are logged. *)
Theorem create_agrees_with_reload (results : list SettledResult) :
  let reloaded :=
    Manager.run initial [Manager.Reload; Manager.Settled (OwnSignal 0) results] in
  ∃ service,
    create results = Some (service, debugLog reloaded) ∧
    Factory.commands service = attach <$> Runtime.commands reloaded ∧
    rootCommandMap service = (buildLookupMap (Runtime.commands reloaded)).2.
Proof.
  intros reloaded. unfold create. rewrite ManagerSpec.collect_all.
  destruct (ManagerSpec.settled_published_releases (OwnSignal 0) results
              (Manager.reloadCommands_begin initial).1 eq_refl)
    as (m & Hm & Hsettled).
  assert (Runtime.commands reloaded = JsMap.values m ∧
          debugLog reloaded = rejections results) as [-> ->].
  { unfold reloaded. cbn [Manager.run foldl Manager.step]. rewrite Hsettled.
    cbn [default id].
    by destruct (ManagerSpec.releaseController_fields (OwnSignal 0)
                   (publish (JsMap.values m) (rejections results)
                      (Manager.reloadCommands_begin initial).1))
      as (-> & _ & _ & _ & -> & _). }
  rewrite Hm. cbn [mbind option_bind buildLookupMap].
  eexists. split; [done|]. cbn [Factory.commands rootCommandMap snd].
  by rewrite map_fmap.
Qed.

End LookupLaws.

(** ** Laws of the reloading services *)

Module ServiceLaws.
Import Commands Runtime Aggregator AggregatorSpec Controllers.

(** *** Numbering of the controllers *)

Lemma numbered_initial : numbered initial.
Proof. split; [done|]. by intros c ?%elem_of_nil. Qed.

Lemma numbered_begin st :
  numbered st →
  numbered (newController
              match currentAbortController st with
              | Some controller => abort (OwnSignal controller) st
              | None => st
              end).
Proof.
  intros [Hcur Hab]. unfold numbered, newController, abort.
  destruct (currentAbortController st) as [c|] eqn:Hc; simpl; split.
  - intros ? [= <-]. lia.
  - intros c' [[= ->]|Hin]%elem_of_cons.
    + specialize (Hcur _ eq_refl). lia.
    + specialize (Hab _ Hin). lia.
  - intros ? [= <-]. lia.
  - intros c' Hin. specialize (Hab _ Hin). lia.
Qed.

Lemma numbered_fields st st' :
  numbered st → controllers st' = controllers st → aborted st' = aborted st →
  (currentAbortController st' = currentAbortController st ∨
   currentAbortController st' = None) →
  numbered st'.
Proof.
  intros [Hcur Hab] Hc Ha Hcur'. unfold numbered. rewrite Hc, Ha.
  split; [|done]. by destruct Hcur' as [-> | ->].
Qed.

Lemma manager_step_numbered st ev : numbered st → numbered (Manager.step st ev).
Proof.
  intros Hst. destruct ev as [|signal results|listener|capability]; simpl.
  - by apply numbered_begin.
  - destruct (isAborted st signal) eqn:Hsig.
    + rewrite ManagerSpec.settled_aborted_releases by done. simpl.
      destruct (ManagerSpec.releaseController_fields signal st)
        as (_ & _ & ? & ? & _ & _ & _ & Hcur).
      apply (numbered_fields st); [done..|]. naive_solver.
    + destruct (ManagerSpec.settled_published_releases signal results st Hsig)
        as (m & _ & ->). simpl.
      destruct (ManagerSpec.releaseController_fields signal
                  (publish (JsMap.values m) (rejections results) st))
        as (_ & _ & ? & ? & _ & _ & _ & Hcur).
      apply (numbered_fields st); [done..|]. naive_solver.
  - by apply (numbered_fields st); auto.
  - unfold Manager.unsubscribe. destruct (closures st !! capability); [|done].
    by apply (numbered_fields st); auto.
Qed.

Lemma manager_run_numbered st trace : numbered st → numbered (Manager.run st trace).
Proof.
  revert st. induction trace as [|ev trace IH]; intros st Hst; [done|].
  by apply IH, manager_step_numbered.
Qed.

Lemma registry_step_numbered st ev : numbered st → numbered (Registry.step st ev).
Proof.
  intros Hst. destruct ev as [[ext|]|signal results|listener|capability|id]; simpl.
  - done.
  - by apply numbered_begin.
  - destruct (isAborted st signal) eqn:Hsig.
    + by rewrite RegistrySpec.reloadCommands_settled_aborted.
    + destruct (RegistrySpec.reloadCommands_settled_published signal results st Hsig)
        as (m & _ & ->). simpl.
      by apply (numbered_fields st); auto.
  - by apply (numbered_fields st); auto.
  - unfold Registry.unsubscribe. destruct (closures st !! capability); [|done].
    by apply (numbered_fields st); auto.
  - destruct Hst as [Hcur Hab]. split; [done|]. simpl.
    intros c [[=]|?]%elem_of_cons. by apply Hab.
Qed.

Lemma registry_run_numbered st trace : numbered st → numbered (Registry.run st trace).
Proof.
  revert st. induction trace as [|ev trace IH]; intros st Hst; [done|].
  by apply IH, registry_step_numbered.
Qed.

(** The signal of a new controller is not aborted. *)
Lemma begin_not_aborted st :
  numbered st →
  OwnSignal (controllers st) ∉
    aborted (newController
               match currentAbortController st with
               | Some controller => abort (OwnSignal controller) st
               | None => st
               end).
Proof.
  intros [Hcur Hab]. unfold newController, abort.
  destruct (currentAbortController st) as [c|] eqn:Hc; simpl.
  - intros [[= <-]|Hin]%elem_of_cons.
    + specialize (Hcur _ eq_refl). lia.
    + specialize (Hab _ Hin). lia.
  - intros Hin. specialize (Hab _ Hin). lia.
Qed.

(** *** While no reload starts *)

Lemma manager_step_quiet st ev :
  ev ≠ Manager.Reload →
  aborted (Manager.step st ev) = aborted st ∧
  (currentAbortController (Manager.step st ev) = currentAbortController st ∨
   currentAbortController (Manager.step st ev) = None).
Proof.
  intros Hev. destruct ev as [|signal results|listener|capability]; simpl.
  - done.
  - destruct (isAborted st signal) eqn:Hsig.
    + rewrite ManagerSpec.settled_aborted_releases by done. simpl.
      destruct (ManagerSpec.releaseController_fields signal st)
        as (_ & _ & _ & ? & _ & _ & _ & Hcur).
      split; [done|]. naive_solver.
    + destruct (ManagerSpec.settled_published_releases signal results st Hsig)
        as (m & _ & ->). simpl.
      destruct (ManagerSpec.releaseController_fields signal
                  (publish (JsMap.values m) (rejections results) st))
        as (_ & _ & _ & ? & _ & _ & _ & Hcur).
      split; [done|]. naive_solver.
  - auto.
  - unfold Manager.unsubscribe. destruct (closures st !! capability); auto.
Qed.

Lemma manager_run_quiet st trace :
  Forall (λ ev, ev ≠ Manager.Reload) trace →
  aborted (Manager.run st trace) = aborted st ∧
  (currentAbortController (Manager.run st trace) = currentAbortController st ∨
   currentAbortController (Manager.run st trace) = None).
Proof.
  revert st. induction trace as [|ev trace IH]; intros st Hquiet; [auto|].
  apply Forall_cons in Hquiet as [Hev Hquiet].
  destruct (manager_step_quiet st ev Hev) as [Ha Hcur].
  destruct (IH (Manager.step st ev) Hquiet) as [Ha' Hcur'].
  cbn [Manager.run foldl]. fold (Manager.run (Manager.step st ev) trace).
  split; [congruence|]. destruct Hcur' as [->|?]; auto.
Qed.

Lemma registry_step_quiet st ev controller :
  ev ≠ Registry.Reload None →
  currentAbortController (Registry.step st ev) = currentAbortController st ∧
  (OwnSignal controller ∈ aborted (Registry.step st ev) →
   OwnSignal controller ∈ aborted st).
Proof.
  intros Hev.
  destruct ev as [[ext|]|signal results|listener|capability|id]; simpl; try done.
  - destruct (isAborted st signal) eqn:Hsig.
    + by rewrite RegistrySpec.reloadCommands_settled_aborted.
    + by destruct (RegistrySpec.reloadCommands_settled_published signal results
                     st Hsig) as (m & _ & ->).
  - unfold Registry.unsubscribe. by destruct (closures st !! capability).
  - split; [done|]. by intros [[=]|?]%elem_of_cons.
Qed.

Lemma registry_run_quiet st trace controller :
  Forall (λ ev, ev ≠ Registry.Reload None) trace →
  currentAbortController (Registry.run st trace) = currentAbortController st ∧
  (OwnSignal controller ∈ aborted (Registry.run st trace) →
   OwnSignal controller ∈ aborted st).
Proof.
  revert st. induction trace as [|ev trace IH]; intros st Hquiet; [auto|].
  apply Forall_cons in Hquiet as [Hev Hquiet].
  destruct (registry_step_quiet st ev controller Hev) as [Hcur Ha].
  destruct (IH (Registry.step st ev) Hquiet) as [Hcur' Ha'].
  cbn [Registry.run foldl]. fold (Registry.run (Registry.step st ev) trace).
  split; [congruence|auto].
Qed.

Lemma manager_begin_fields st :
  let first := Manager.reloadCommands_begin st in
  first.2 = OwnSignal (controllers st) ∧
  currentAbortController first.1 = Some (controllers st) ∧
  (numbered st → OwnSignal (controllers st) ∉ aborted first.1).
Proof.
  split_and!.
  - apply ManagerSpec.begin_own_signal.
  - simpl. unfold newController, abort. by destruct (currentAbortController st).
  - apply begin_not_aborted.
Qed.

Lemma registry_begin_fields st :
  let first := Registry.reloadCommands_begin None st in
  first.2 = OwnSignal (controllers st) ∧
  currentAbortController first.1 = Some (controllers st) ∧
  (numbered st → OwnSignal (controllers st) ∉ aborted first.1).
Proof.
  split_and!.
  - apply RegistrySpec.begin_signal.
  - simpl. unfold newController, abort. by destruct (currentAbortController st).
  - apply begin_not_aborted.
Qed.

Lemma released controller st :
  currentAbortController st = Some controller ∨ currentAbortController st = None →
  currentAbortController (Manager.releaseController (OwnSignal controller) st) = None.
Proof.
  unfold Manager.releaseController. intros Hcur.
  case_bool_decide as Hsame; [done|].
  destruct Hcur as [Hcur|Hcur]; [|done]. rewrite Hcur in Hsame. by destruct Hsame.
Qed.

(** X17. In the service of part_003 a reload that is not followed by
    another call of [reloadCommands] before its loaders settle is published:
    its signal is not aborted, the snapshot of its results replaces the
    commands and every listener is called.  Its controller is released
    afterwards, so the next reload finds nothing to abort. *)
Theorem manager_latest_reload_is_published (before between : list Manager.Event)
    (results : list SettledResult) :
  let first := Manager.reloadCommands_begin (Manager.run initial before) in
  let st := Manager.run first.1 between in
  Forall (λ ev, ev ≠ Manager.Reload) between →
  ∃ commandMap published,
    resolveConflicts (fulfilledCommands results) = Some commandMap ∧
    Manager.reloadCommands_settled first.2 results st = Some published ∧
    commands published = JsMap.values commandMap ∧
    notified st published = listeners st ∧
    currentAbortController published = None ∧
    aborted (Manager.reloadCommands_begin published).1 = aborted published.
Proof.
  intros first st Hquiet.
  destruct (manager_begin_fields (Manager.run initial before))
    as (Hsignal & Hcurrent & Hfresh).
  fold first in Hsignal, Hcurrent, Hfresh.
  specialize (Hfresh (manager_run_numbered _ before numbered_initial)).
  destruct (manager_run_quiet first.1 between Hquiet) as [Haborted Hcur].
  fold st in Haborted, Hcur. rewrite Hcurrent in Hcur. rewrite Hsignal.
  assert (isAborted st (OwnSignal (controllers (Manager.run initial before)))
          = false) as Hsig.
  { unfold isAborted. apply bool_decide_eq_false. by rewrite Haborted. }
  destruct (ManagerSpec.settled_published_releases _ results st Hsig)
    as (m & Hm & ->).
  eexists m, _. split_and!; [done|done|..].
  - by destruct (ManagerSpec.releaseController_fields
                   (OwnSignal (controllers (Manager.run initial before)))
                   (publish (JsMap.values m) (rejections results) st))
      as (-> & _).
  - destruct (ManagerSpec.releaseController_fields
                (OwnSignal (controllers (Manager.run initial before)))
                (publish (JsMap.values m) (rejections results) st))
      as (_ & _ & _ & _ & _ & Hinvoked & _).
    unfold notified. rewrite Hinvoked. simpl. by rewrite drop_app_length.
  - by apply released.
  - simpl. by rewrite released.
Qed.

Lemma manager_latest_reload_is_published_witness :
  let memory := mkSlashCommand "memory" "Manage memory" BUILT_IN None None None
                  None None in
  let first :=
    Manager.reloadCommands_begin (Manager.run initial [Manager.Reload]) in
  let st := Manager.run first.1 [Manager.Subscribe 4] in
  ∃ commandMap published,
    resolveConflicts (fulfilledCommands [Fulfilled [memory]]) = Some commandMap ∧
    Manager.reloadCommands_settled first.2 [Fulfilled [memory]] st = Some published ∧
    commands published = JsMap.values commandMap ∧
    notified st published = listeners st ∧
    currentAbortController published = None ∧
    aborted (Manager.reloadCommands_begin published).1 = aborted published.
Proof.
  intros memory.
  apply (manager_latest_reload_is_published [Manager.Reload] [Manager.Subscribe 4]
           [Fulfilled [memory]]).
  repeat constructor; discriminate.
Defined.

(** X18. In the service of part_002 a reload on the service's own signal
    that is not followed by another such reload before its loaders settle is
    published, whatever reloads on callers' signals and aborts of those
    signals happen meanwhile.  Its controller stays the current one: this
    version never releases it. *)
Theorem registry_latest_reload_is_published (before between : list Registry.Event)
    (results : list SettledResult) :
  let first := Registry.reloadCommands_begin None (Registry.run initial before) in
  let st := Registry.run first.1 between in
  Forall (λ ev, ev ≠ Registry.Reload None) between →
  ∃ commandMap published,
    resolveConflicts (fulfilledCommands results) = Some commandMap ∧
    Registry.reloadCommands_settled first.2 results st = Some published ∧
    commands published = JsMap.values commandMap ∧
    notified st published = listeners st ∧
    currentAbortController published = currentAbortController first.1.
Proof.
  intros first st Hquiet.
  destruct (registry_begin_fields (Registry.run initial before))
    as (Hsignal & Hcurrent & Hfresh).
  fold first in Hsignal, Hcurrent, Hfresh.
  specialize (Hfresh (registry_run_numbered _ before numbered_initial)).
  destruct (registry_run_quiet first.1 between
              (controllers (Registry.run initial before)) Hquiet)
    as [Hcur Haborted].
  fold st in Haborted, Hcur. rewrite Hsignal.
  assert (isAborted st (OwnSignal (controllers (Registry.run initial before)))
          = false) as Hsig.
  { unfold isAborted. apply bool_decide_eq_false. auto. }
  destruct (RegistrySpec.reloadCommands_settled_published _ results st Hsig)
    as (m & Hm & ->).
  eexists m, _. split_and!; [done|done|done| |done].
  unfold notified. simpl. by rewrite drop_app_length.
Qed.

Lemma registry_latest_reload_is_published_witness :
  let first :=
    Registry.reloadCommands_begin None (Registry.run initial [Registry.Reload None]) in
  let st :=
    Registry.run first.1
      [Registry.Reload (Some (ExternalSignal 1)); Registry.AbortExternal 1] in
  ∃ commandMap published,
    resolveConflicts (fulfilledCommands []) = Some commandMap ∧
    Registry.reloadCommands_settled first.2 [] st = Some published ∧
    commands published = JsMap.values commandMap ∧
    notified st published = listeners st ∧
    currentAbortController published = currentAbortController first.1.
Proof.
  apply (registry_latest_reload_is_published [Registry.Reload None]
           [Registry.Reload (Some (ExternalSignal 1)); Registry.AbortExternal 1]
           []).
  repeat constructor; discriminate.
Defined.

Lemma registry_step_external st ev id :
  ev ≠ Registry.AbortExternal id →
  isAborted st (ExternalSignal id) = false →
  isAborted (Registry.step st ev) (ExternalSignal id) = false.
Proof.
  unfold isAborted. rewrite !bool_decide_eq_false. intros Hev Hst.
  destruct ev as [[ext|]|signal results|listener|capability|id']; simpl; try done.
  - unfold newController, abort.
    destruct (currentAbortController st); simpl; [|done].
    by intros [[=]|?]%elem_of_cons.
  - destruct (isAborted st signal) eqn:Hsig.
    + by rewrite RegistrySpec.reloadCommands_settled_aborted.
    + by destruct (RegistrySpec.reloadCommands_settled_published signal results
                     st Hsig) as (m & _ & ->).
  - unfold Registry.unsubscribe. by destruct (closures st !! capability).
  - intros [[= ->]|?]%elem_of_cons; done.
Qed.

Lemma registry_run_external st trace id :
  Forall (λ ev, ev ≠ Registry.AbortExternal id) trace →
  isAborted st (ExternalSignal id) = false →
  isAborted (Registry.run st trace) (ExternalSignal id) = false.
Proof.
  revert st. induction trace as [|ev trace IH]; intros st Hquiet Hst; [done|].
  apply Forall_cons in Hquiet as [Hev Hquiet].
  apply IH; [done|]. by apply registry_step_external.
Qed.

(** X19. A reload on a caller's signal stands outside the replacement of
    reloads in part_002: starting it changes nothing in the service, the
    running reload included, and no later call of [reloadCommands] keeps it
    from being published.  Only the abort of its own signal does. *)
Theorem external_reload_is_never_superseded (st0 : State) (id : nat)
    (between : list Registry.Event) (results : list SettledResult) :
  let first := Registry.reloadCommands_begin (Some (ExternalSignal id)) st0 in
  let st := Registry.run first.1 between in
  isAborted st0 (ExternalSignal id) = false →
  Forall (λ ev, ev ≠ Registry.AbortExternal id) between →
  first.1 = st0 ∧
  ∃ commandMap published,
    resolveConflicts (fulfilledCommands results) = Some commandMap ∧
    Registry.reloadCommands_settled first.2 results st = Some published ∧
    commands published = JsMap.values commandMap ∧
    notified st published = listeners st.
Proof.
  intros first st Hsig Hquiet. split; [done|].
  pose proof (registry_run_external st0 between id Hquiet Hsig) as Hst.
  change (Registry.run st0 between) with st in Hst.
  change first.2 with (ExternalSignal id).
  destruct (RegistrySpec.reloadCommands_settled_published _ results st Hst)
    as (m & Hm & ->).
  eexists m, _. split_and!; [done..|].
  unfold notified. simpl. by rewrite drop_app_length.
Qed.

Lemma external_reload_is_never_superseded_witness :
  let first := Registry.reloadCommands_begin (Some (ExternalSignal 5)) initial in
  let st := Registry.run first.1 [Registry.Reload None; Registry.Reload None] in
  first.1 = initial ∧
  ∃ commandMap published,
    resolveConflicts (fulfilledCommands []) = Some commandMap ∧
    Registry.reloadCommands_settled first.2 [] st = Some published ∧
    commands published = JsMap.values commandMap ∧
    notified st published = listeners st.
Proof.
  apply (external_reload_is_never_superseded initial 5
           [Registry.Reload None; Registry.Reload None] []).
  - reflexivity.
  - repeat constructor; discriminate.
Defined.

(** X20. The static [create] of part_002 always yields a service.  When
    the caller's signal is aborted by the time the loaders have settled the
    service is empty and nothing is logged; otherwise it holds the snapshot
    of the results and the rejections that are no [AbortError] are logged.
    Either way no listener is called and the service has no controller of
    its own yet. *)
Theorem create_yields_a_service (signal : Signal) (results : list SettledResult) :
  (∃ service,
     RegistryCreate.create signal true results = Some service ∧
     commands service = [] ∧ debugLog service = [] ∧ invoked service = [] ∧
     currentAbortController service = None) ∧
  (∃ commandMap service,
     resolveConflicts (fulfilledCommands results) = Some commandMap ∧
     RegistryCreate.create signal false results = Some service ∧
     commands service = JsMap.values commandMap ∧
     debugLog service =
       filter (λ reason, isAbortError reason = false) (rejections results) ∧
     invoked service = [] ∧
     currentAbortController service = None).
Proof.
  unfold RegistryCreate.create. cbn [Registry.reloadCommands_begin]. split.
  - exists (abort signal initial). split; [|done].
    apply RegistrySpec.reloadCommands_settled_aborted.
    unfold isAborted. apply bool_decide_eq_true. left.
  - destruct (RegistrySpec.reloadCommands_settled_published signal results
                initial) as (m & Hm & ->).
    { unfold isAborted. apply bool_decide_eq_false. apply not_elem_of_nil. }
    by eexists m, _.
Qed.

(** X21. The two reloading services differ in the log and in the release
    of the controller, and in nothing else: for the same state, signal and
    results the continuations of [reloadCommands] of part_002 and part_003
    leave the same commands, listeners, aborted signals and closures and
    make the same listener calls; part_002 logs what part_003 logs except
    the rejections that are an [AbortError]; part_002 keeps the current
    controller, part_003 gives it up in its [finally] block when the signal
    of the call is the signal of the current controller. *)
Theorem versions_differ_in_log_and_release (st : State) (signal : Signal)
    (results : list SettledResult) :
  ∃ registry manager,
    Registry.reloadCommands_settled signal results st = Some registry ∧
    Manager.reloadCommands_settled signal results st = Some manager ∧
    commands registry = commands manager ∧
    listeners registry = listeners manager ∧
    invoked registry = invoked manager ∧
    controllers registry = controllers manager ∧
    aborted registry = aborted manager ∧
    closures registry = closures manager ∧
    debugLog registry = debugLog st ++ logged st registry ∧
    debugLog manager = debugLog st ++ logged st manager ∧
    logged st registry =
      filter (λ reason, isAbortError reason = false) (logged st manager) ∧
    currentAbortController registry = currentAbortController st ∧
    currentAbortController manager =
      match currentAbortController st with
      | Some controller =>
          if decide (signal = OwnSignal controller) then None else Some controller
      | None => None
      end.
Proof.
  assert (∀ st' : State,
    let manager := Manager.releaseController signal st' in
    commands st' = commands manager ∧ listeners st' = listeners manager ∧
    invoked st' = invoked manager ∧ controllers st' = controllers manager ∧
    aborted st' = aborted manager ∧ closures st' = closures manager ∧
    debugLog st' = debugLog manager ∧
    currentAbortController manager =
      match currentAbortController st' with
      | Some controller =>
          if decide (signal = OwnSignal controller) then None else Some controller
      | None => None
      end) as Hrelease.
  { intros st'. unfold Manager.releaseController.
    destruct (currentAbortController st') as [controller|] eqn:Hc; cbn [fmap option_fmap option_map].
    - case_bool_decide as Hsame; case_decide; simplify_eq; cbn; by rewrite ?Hc.
    - rewrite bool_decide_false by done. by rewrite Hc. }
  destruct (isAborted st signal) eqn:Hsig.
  - exists st, (Manager.releaseController signal st).
    destruct (Hrelease st) as (? & ? & ? & ? & ? & ? & Hlog & ?).
    unfold logged. rewrite <-Hlog, drop_all, app_nil_r.
    split_and!;
      [by apply RegistrySpec.reloadCommands_settled_aborted
      |by apply ManagerSpec.settled_aborted_releases|done..].
  - destruct (RegistrySpec.reloadCommands_settled_published signal results st Hsig)
      as (m & Hm & Hregistry).
    destruct (ManagerSpec.settled_published_releases signal results st Hsig)
      as (m' & Hm' & Hmanager).
    assert (m' = m) as -> by congruence.
    eexists _, _. split; [exact Hregistry|]. split; [exact Hmanager|].
    destruct (Hrelease (publish (JsMap.values m) (rejections results) st))
      as (Hc & Hl & Hi & Hn & Ha & Hcl & Hlog & Hcur).
    unfold logged. rewrite <-Hlog. simpl. rewrite !drop_app_length.
    by split_and!.
Qed.

(** X22. Nothing but the continuation of a reload whose signal is not
    aborted changes what a service of part_002 shows: starting a reload,
    subscribing, unsubscribing and aborting change neither the commands nor
    the log, and call no listener. *)
Theorem only_a_settled_reload_shows (st : State) (ev : Registry.Event) :
  (∀ signal results,
     ev = Registry.Settled signal results → isAborted st signal = true) →
  observably st (Registry.step st ev).
Proof.
  intros Hev.
  destruct ev as [[ext|]|signal results|listener|capability|id]; simpl; try done.
  - unfold newController, abort. by destruct (currentAbortController st).
  - by rewrite RegistrySpec.reloadCommands_settled_aborted by eauto.
  - unfold Registry.unsubscribe. by destruct (closures st !! capability).
Qed.

Lemma only_a_settled_reload_shows_witness :
  observably (Registry.run initial [Registry.Subscribe 3])
    (Registry.step (Registry.run initial [Registry.Subscribe 3])
       (Registry.Reload None)).
Proof.
  apply (only_a_settled_reload_shows (Registry.run initial [Registry.Subscribe 3])
           (Registry.Reload None)).
  intros signal results Hev. discriminate Hev.
Defined.

End ServiceLaws.

(** ** Properties of the refresher *)

Module RefresherSpec.
Import Refresher.

Lemma asService_step st ev :
  Registry.step (asService st) (asServiceEvent ev) = asService (step st ev).
Proof.
  destruct ev as [|callback|capability]; [done|done|].
  cbn [asServiceEvent Registry.step step].
  unfold Registry.unsubscribe, unsubscribe. cbn [Runtime.closures asService].
  by destruct (closures st !! capability).
Qed.

Lemma asService_run st trace :
  Registry.run (asService st) (asServiceEvent <$> trace) = asService (run st trace).
Proof.
  revert st. induction trace as [|ev trace IH]; intros st; [done|].
  rewrite fmap_cons. cbn [Registry.run run foldl].
  rewrite asService_step. apply IH.
Qed.

(** X25. [CommandRefresher] is the subscription half of [CommandService]:
    with a refresh read as a reload that has nothing to load, the refresher
    and the service of part_002 go through the same listeners, listener
    calls and unsubscribe closures, event by event. *)
Theorem refresher_is_a_service (trace : list Event) :
  asService (run initial trace) =
  Registry.run Runtime.initial (asServiceEvent <$> trace).
Proof. symmetry. apply (asService_run initial). Qed.

(** X26. Whatever was subscribed and unsubscribed before, a refresh calls
    every callback that is subscribed exactly once and no other callback. *)
Theorem refresh_calls_each_subscriber_once (trace : list Event)
    (callback : Runtime.Listener) :
  let st := run initial trace in
  count_occ Nat.eq_dec (notified st (refreshCommands st)) callback =
  if bool_decide (callback ∈ listeners st) then 1 else 0.
Proof.
  intros st. unfold notified. cbn [invoked refreshCommands].
  rewrite drop_app_length.
  assert (NoDup (listeners st)) as Hset.
  { change (listeners st) with (Runtime.listeners (asService st)).
    unfold st. rewrite <-asService_run. apply RegistrySpec.listeners_NoDup. }
  case_bool_decide as Hin.
  - by apply RegistrySpec.count_occ_NoDup.
  - apply count_occ_not_In. by rewrite <-list_elem_of_In.
Qed.

End RefresherSpec.

(** ** Properties of the ignore patterns *)

Module GitIgnoreSpec.
Import GitIgnore.

Lemma startsWith_char (p : string) (c : ascii) :
  Args.startsWith p (String c "") = true → p = String c (substring1 p).
Proof.
  unfold Args.startsWith. destruct p as [|c' rest]; [done|]. simpl.
  destruct (Ascii.ascii_dec c c') as [->|]; [done|discriminate].
Qed.

Lemma startsWith_cons (c : ascii) (p : string) :
  Args.startsWith (String c "" +:+ p) (String c "") = true.
Proof.
  unfold Args.startsWith. change (String c "" +:+ p) with (String c p). simpl.
  destruct (Ascii.ascii_dec c c); [by destruct p|done].
Qed.

Lemma startsWith_cons_cons (c d : ascii) (p : string) :
  Args.startsWith p (String d "") = true →
  Args.startsWith (String c "" +:+ p) (String c (String d "")) = true.
Proof.
  unfold Args.startsWith. change (String c "" +:+ p) with (String c p). simpl.
  by destruct (Ascii.ascii_dec c c).
Qed.

Section patterns.
Variable trimStart : string → string.
Variable posixJoin : string → string → string.

(** In a nested file every pattern that is kept is tied to the directory. *)
Lemma processPattern_nested (relativeBaseDir p : string) :
  relativeBaseDir ≠ "" → relativeBaseDir ≠ "." →
  let out := processPattern posixJoin relativeBaseDir p in
  out = "" ∨
  (Args.startsWith p "!" = false ∧ Args.startsWith out "/" = true) ∨
  (Args.startsWith p "!" = true ∧ Args.startsWith out "!/" = true).
Proof.
  intros Hempty%String.eqb_neq Hdot%String.eqb_neq. unfold processPattern.
  rewrite Hempty, Hdot. cbn [negb andb].
  set (q := if Args.startsWith p "!" then substring1 p else p).
  set (body := if Args.startsWith q "/" then substring1 q else q).
  destruct (String.eqb body ""); [by left|]. right.
  set (joined := posixJoin relativeBaseDir _).
  assert (∃ anchored,
            (if negb (Args.startsWith joined "/") then "/" +:+ joined else joined)
            = anchored ∧ Args.startsWith anchored "/" = true)
    as (anchored & -> & Hanchored).
  { destruct (Args.startsWith joined "/") eqn:Hj; eexists; (split; [done|]);
      [done|apply startsWith_cons]. }
  rewrite Hanchored. cbn [negb]. rewrite andb_false_r.
  destruct (Args.startsWith p "!"); [right|left]; (split; [done|]); [|done].
  by apply startsWith_cons_cons.
Qed.

(** X27. In a [.gitignore] below the project root no processed pattern is
    empty and every one is tied to the directory of the file, whatever
    [path.posix.join] returns: it starts with a slash, after the ['!'] when
    the pattern is a negation. *)
Theorem nested_patterns_are_anchored (rawPatterns : list string)
    (relativeBaseDir : string) :
  relativeBaseDir ≠ "" → relativeBaseDir ≠ "." →
  Forall (λ out, out ≠ "" ∧
                 (Args.startsWith out "/" = true ∨ Args.startsWith out "!/" = true))
    (processPatterns trimStart posixJoin rawPatterns relativeBaseDir).
Proof.
  intros Hempty Hdot. apply Forall_forall. intros out Hin.
  unfold processPatterns in Hin.
  apply list_elem_of_In, filter_In in Hin as [Hin Hout].
  apply negb_true_iff, String.eqb_neq in Hout. split; [done|].
  apply in_map_iff in Hin as (p & <- & _).
  destruct (processPattern_nested relativeBaseDir p Hempty Hdot)
    as [?|[[_ ?]|[_ ?]]]; [done|by left|by right].
Qed.

(** X28. In the file of the project root a pattern comes back as it is:
    the negation mark and the leading slash are taken off and put back.
    Two patterns do not: one that is nothing but marks is dropped, and one
    whose slash is doubled loses a slash. *)
Theorem root_pattern_comes_back (relativeBaseDir p : string) :
  relativeBaseDir = "" ∨ relativeBaseDir = "." →
  processPattern posixJoin relativeBaseDir p =
  if String.eqb (unmarked p) "" then ""
  else if Args.startsWith (unmarked p) "/"
       then (if Args.startsWith p "!" then "!" +:+ unmarked p else unmarked p)
       else p.
Proof.
  intros Hroot. unfold processPattern, unmarked.
  assert (negb (String.eqb relativeBaseDir "")
          && negb (String.eqb relativeBaseDir ".") = false) as ->.
  { by destruct Hroot as [-> | ->]. }
  destruct (Args.startsWith p "!") eqn:Hneg.
  - apply startsWith_char in Hneg. set (q := substring1 p) in *.
    destruct (Args.startsWith q "/") eqn:Hanc.
    + apply startsWith_char in Hanc. set (body := substring1 q) in *.
      destruct (String.eqb body ""); [done|]. cbn [andb].
      destruct (Args.startsWith body "/"); [done|].
      cbn [negb]. by rewrite Hneg, Hanc.
    + destruct (String.eqb q ""); [done|]. cbn [andb]. by rewrite Hanc, Hneg.
  - destruct (Args.startsWith p "/") eqn:Hanc.
    + apply startsWith_char in Hanc. set (body := substring1 p) in *.
      destruct (String.eqb body ""); [done|]. cbn [andb].
      destruct (Args.startsWith body "/"); [done|].
      cbn [negb]. by rewrite Hanc.
    + destruct (String.eqb p ""); [done|]. cbn [andb]. by rewrite Hanc.
Qed.

End patterns.

Lemma nested_patterns_are_anchored_witness :
  Forall (λ out, out ≠ "" ∧
                 (Args.startsWith out "/" = true ∨ Args.startsWith out "!/" = true))
    (processPatterns (λ p, p) (λ a b, a +:+ "/" +:+ b)
       ["# build output"; "dist"; "!dist/keep"; "/local.env"; ""] "packages/cli").
Proof.
  apply (nested_patterns_are_anchored (λ p, p) (λ a b, a +:+ "/" +:+ b)
           ["# build output"; "dist"; "!dist/keep"; "/local.env"; ""]
           "packages/cli"); discriminate.
Defined.

Lemma root_pattern_comes_back_witness :
  processPattern (λ a b, a +:+ "/" +:+ b) "." "!/dist" = "!/dist".
Proof.
  apply (root_pattern_comes_back (λ a b, a +:+ "/" +:+ b) "." "!/dist").
  by right.
Defined.

End GitIgnoreSpec.

(** ** Properties of the debug logger *)

Module DebugLogSpec.
Import DebugLog.

Section logger.
Context {Arg : Type}.
Variable ofString : string → Arg.
Variable format : list Arg → string.
Variable toISOString : nat → string.

#[local] Abbreviation State := (@State Arg).
#[local] Abbreviation Event := (@Event Arg).
#[local] Abbreviation step := (step ofString format toISOString).
#[local] Abbreviation run := (run ofString format toISOString).

(** What one call adds to the effects. *)
Lemma call_effects level args (st : State) :
  let st' := call format toISOString level args st in
  logStream st' = logStream st ∧ delegate st' = delegate st ∧
  match delegate st with
  | Some logger => effects st' = effects st ++ [ToDelegate logger level args]
  | None =>
      ∃ file,
        effects st' = effects st ++ file ++ [ToConsole level args] ∧
        (if logStream st then ∃ logEntry, file = [ToFile logEntry]
         else file = [])
  end.
Proof.
  unfold call, writeToFile. destruct (delegate st) as [logger|] eqn:Hd.
  - done.
  - destruct (logStream st) eqn:Hs; simpl; rewrite ?Hs, ?Hd.
    + split_and!; [done..|]. eexists [_]. rewrite <-app_assoc. split; [done|].
      by eexists.
    + split_and!; [done..|]. by exists [].
Qed.

Lemma step_effects (st : State) (ev : Event) :
  logStream (step st ev) = logStream st ∧
  ∃ new,
    effects (step st ev) = effects st ++ new ∧
    omap delivered new = option_list (requested ofString ev) ∧
    length (List.filter isToFile new) =
      (if logStream st then length (List.filter isToConsole new) else 0) ∧
    (∀ logger, delegate st = Some logger →
       (∀ l, ev ≠ SetDelegate l) →
       delegate (step st ev) = Some logger ∧
       Forall (λ e, ∃ level args, e = ToDelegate logger level args) new).
Proof.
  assert (∀ level args,
    let st' := call format toISOString level args st in
    logStream st' = logStream st ∧
    ∃ new,
      effects st' = effects st ++ new ∧
      omap delivered new = [(level, args)] ∧
      length (List.filter isToFile new) =
        (if logStream st then length (List.filter isToConsole new) else 0) ∧
      (∀ logger, delegate st = Some logger →
         delegate st' = Some logger ∧
         Forall (λ e, ∃ level args, e = ToDelegate logger level args) new))
    as Hcall.
  { intros level args.
    destruct (call_effects level args st) as (Hs & Hd & He).
    split; [done|]. destruct (delegate st) as [logger|].
    - eexists. split; [exact He|].
      split_and!; [done|by destruct (logStream st)|].
      intros ? [= <-]. split; [done|]. repeat constructor. by eexists _, _.
    - destruct He as (file & He & Hfile).
      eexists. split; [exact He|]. split_and!; [| |done].
      + destruct (logStream st); [by destruct Hfile as [? ->]|by subst file].
      + destruct (logStream st); [by destruct Hfile as [? ->]|by subst file]. }
  destruct ev as [logger|level args|name level args|]; simpl.
  - split; [done|]. exists []. rewrite app_nil_r.
    split_and!; [done|done|by destruct (logStream st)|].
    intros l _ Hev. by destruct (Hev logger).
  - destruct (Hcall level args) as (? & new & ? & ? & ? & Hd).
    split; [done|]. exists new. split_and!; [done..|]. eauto.
  - destruct (Hcall level (ofString ("[" +:+ name +:+ "]") :: args))
      as (? & new & ? & ? & ? & Hd).
    split; [done|]. exists new. split_and!; [done..|]. eauto.
  - split; [done|]. exists []. rewrite app_nil_r.
    split_and!; [done|done|by destruct (logStream st)|]. by split.
Qed.

Lemma run_effects (st : State) (trace : list Event) :
  ∃ new,
    effects (run st trace) = effects st ++ new ∧
    omap delivered new = omap (requested ofString) trace ∧
    length (List.filter isToFile new) =
      (if logStream st then length (List.filter isToConsole new) else 0) ∧
    (∀ logger, delegate st = Some logger →
       Forall (λ ev, ∀ l, ev ≠ SetDelegate l) trace →
       Forall (λ e, ∃ level args, e = ToDelegate logger level args) new).
Proof.
  revert st. induction trace as [|ev trace IH]; intros st.
  - exists []. rewrite app_nil_r.
    split_and!; [done|done|by destruct (logStream st)|by constructor].
  - destruct (step_effects st ev) as (Hs & new & He & Hd & Hf & Hdel).
    destruct (IH (step st ev)) as (new' & He' & Hd' & Hf' & Hdel').
    exists (new ++ new'). cbn [DebugLog.run foldl].
    fold (run (step st ev) trace). split_and!.
    + by rewrite He', He, <-app_assoc.
    + rewrite omap_app, Hd, Hd'. cbn [omap list_omap].
      by destruct (requested ofString ev).
    + rewrite !List.filter_app, !length_app, Hf, Hf', Hs.
      by destruct (logStream st).
    + intros logger Hlogger [Hev Hquiet]%Forall_cons.
      destruct (Hdel logger Hlogger Hev) as [Hlogger' Hnew].
      apply Forall_app. split; [done|]. by apply Hdel'.
Qed.


(** Effects that all went to one delegate are determined by the calls they
    deliver. *)
Lemma delegate_effects (logger : nat) (new : list (@Effect Arg)) :
  Forall (λ e, ∃ level args, e = ToDelegate logger level args) new →
  new = (λ request, ToDelegate logger request.1 request.2) <$> omap delivered new.
Proof.
  induction 1 as [|e new (level & args & ->) _ IH]; [done|].
  cbn [omap list_omap delivered fmap list_fmap fst snd]. by rewrite <-IH.
Qed.

(** X30. While a delegate is set every call goes to it and nowhere else:
    what the calls of a trace do is to call, in their order and once each,
    the method of the delegate that has the level of the call, with the
    arguments of the call; nothing is printed on the console and nothing is
    written to the log stream.  This holds for the named loggers too,
    whenever they were obtained; their calls carry the name in brackets as
    first argument. *)
Theorem delegate_takes_every_call (st : State) (trace : list Event)
    (logger : nat) :
  delegate st = Some logger →
  Forall (λ ev, ∀ l, ev ≠ SetDelegate l) trace →
  since st (run st trace) =
    (λ request, ToDelegate logger request.1 request.2) <$>
      omap (requested ofString) trace.
Proof.
  intros Hlogger Hquiet.
  destruct (run_effects st trace) as (new & He & Hd & _ & Hdel).
  unfold since. rewrite He, drop_app_length, <-Hd.
  by apply delegate_effects, Hdel.
Qed.

End logger.

Lemma delegate_takes_every_call_witness :
  let st := DebugLog.mkState true (Some 1) 0 [] in
  let trace := [Call WARN ["disk"; "full"]; Tick; NamedCall "core" LOG ["ready"]] in
  since st (DebugLog.run id (String.concat " ") pretty st trace) =
    [ToDelegate 1 WARN ["disk"; "full"]; ToDelegate 1 LOG ["[core]"; "ready"]].
Proof.
  intros st trace.
  apply (delegate_takes_every_call id (String.concat " ") pretty st trace 1).
  - reflexivity.
  - repeat constructor; discriminate.
Defined.

End DebugLogSpec.
